(** * twine: relationships, dependency graph and plugins ([src/node.py])

    A shallow embedding of [node.py] and the properties of its
    specification.  Python objects are modelled as follows.

    - Exceptions: every function that can raise returns a [Result]; the
      exception classes that [node.py] can raise are the constructors of
      [PyError] ([LoopBound] apart, which is the model's own).
    - [set] and [dict]: duplicate-free lists and association lists.  The
      iteration order of a Python [set] is not specified; the model iterates
      in list order, and the statements that depend on an order quantify over
      every permutation of the lists involved.
    - Recursion: Python bounds the depth of nested calls
      ([sys.getrecursionlimit()]).  The two recursive generators
      ([build_vertices], [dependencies]) take the number of nested calls that
      are still available and raise [RecursionError] when it is used up.
    - Generators are modelled by the list of the values they yield. *)

From Stdlib Require Import List String Ascii Bool Arith ZArith Lia Permutation.
From Stdlib Require Import DecimalString.
Import ListNotations.
Local Open Scope string_scope.
Local Open Scope list_scope.

Set Implicit Arguments.
Set Warnings "-register-all".

(** ** Exceptions *)

Inductive PyError : Type :=
| AssertionError
| AttributeError
| KeyError
| RecursionError
| TypeError
| ValueError
| NotImplementedError
| LoopBound
| CircularDependencyError.

Inductive Result (A : Type) : Type :=
| Ok (a : A)
| Raise (e : PyError).

Arguments Ok {A} a.
Arguments Raise {A} e.

Definition bind {A B : Type} (m : Result A) (k : A -> Result B) : Result B :=
  match m with
  | Ok a => k a
  | Raise e => Raise e
  end.

Declare Scope py_scope.
Delimit Scope py_scope with py.
Notation "x <- m ;; k" := (bind m (fun x => k))
  (at level 61, m at next level, right associativity) : py_scope.
Notation "' p <- m ;; k" := (bind m (fun x => let p := x in k))
  (at level 61, p pattern, m at next level, right associativity) : py_scope.
Local Open Scope py_scope.

(** A comprehension [[f(a) for a in l]] whose body may raise. *)
Fixpoint map_result {A B : Type} (f : A -> Result B) (l : list A) : Result (list B) :=
  match l with
  | [] => Ok []
  | a :: l' => b <- f a ;; bs <- map_result f l' ;; Ok (b :: bs)
  end.

(** ** Strings *)

(** [s.split(sep)[0]]: the part of [s] before the first occurrence of
    [sep] (all of [s] when there is none). *)
Fixpoint split_head (sep s : string) : string :=
  match s with
  | EmptyString => EmptyString
  | String c s' =>
      if String.prefix sep s then EmptyString else String c (split_head sep s')
  end.

(** [s.endswith(suffix)] *)
Definition endswith (s suffix : string) : bool :=
  let n := String.length s in
  let m := String.length suffix in
  (m <=? n)%nat && String.eqb (substring (n - m) m s) suffix.

(** [format % args] for a format whose only conversions are [%s], the
    arguments already converted with [str]. *)
Fixpoint percent_format (format : string) (args : list string) : Result string :=
  match format with
  | EmptyString =>
      match args with
      | [] => Ok EmptyString
      | _ :: _ => Raise TypeError
      end
  | String c rest =>
      match rest with
      | String d rest' =>
          if (Ascii.eqb c "%" && Ascii.eqb d "s")%bool then
            match args with
            | [] => Raise TypeError
            | a :: args' => r <- percent_format rest' args' ;; Ok (a ++ r)%string
            end
          else r <- percent_format rest args ;; Ok (String c r)
      | EmptyString => r <- percent_format rest args ;; Ok (String c r)
      end
  end.

(** ** Instance attributes: [setattr] on an object's [__dict__] *)

Fixpoint attr_set {V : Type} (key : string) (value : V) (d : list (string * V))
  : list (string * V) :=
  match d with
  | [] => [(key, value)]
  | (k, v) :: d' =>
      if String.eqb k key then (k, value) :: d' else (k, v) :: attr_set key value d'
  end.

Fixpoint attr_get {V : Type} (key : string) (d : list (string * V)) : option V :=
  match d with
  | [] => None
  | (k, v) :: d' => if String.eqb k key then Some v else attr_get key d'
  end.

(** [key in kwargs] *)
Definition has_key {V : Type} (key : string) (d : list (string * V)) : bool :=
  existsb (fun kv => String.eqb (fst kv) key) d.

(** The value a keyword mapping written as a list of bindings gives to a
    key: the last binding wins. *)
Definition kwargs_get {V : Type} (key : string) (d : list (string * V)) : option V :=
  attr_get key (rev d).

(** ** Filters *)

Section Filters.

(** The Python object protocol the filters use: [getattr(o, name, None)],
    [o is None] and the six rich comparisons (which may raise). *)
Variable Val : Type.
Variable py_getattr_or_none : Val -> string -> Val.
Variable py_is_none : Val -> bool.
Variables py_gt py_ge py_lt py_le py_ne py_eq : Val -> Val -> Result bool.

Inductive Filter : Type :=
| BaseFilter (key : string) (value : Val)
| AndFilter (filters : list Filter)
| OrFilter (filters : list Filter).

(** [BaseFilter.__init__(self, **query)] *)
Definition BaseFilter_init (query : list (string * Val)) : Result Filter :=
  match query with
  | [(key, value)] => Ok (BaseFilter key value)
  | _ => Raise AssertionError
  end.

Definition parse_key (key : string) : string := split_head "__" key.

Definition BaseFilter_match (key : string) (self_value value : Val) : Result bool :=
  let parsed_key := parse_key key in
  let value :=
    if String.eqb parsed_key "_self" then value
    else py_getattr_or_none value parsed_key in
  if py_is_none value then Ok false
  else if endswith key "__gt" then py_gt value self_value
  else if endswith key "__gte" then py_ge value self_value
  else if endswith key "__lt" then py_lt value self_value
  else if endswith key "__lte" then py_le value self_value
  else if endswith key "__ne" then py_ne value self_value
  else py_eq value self_value.

(** [AndFilter.__init__(self, filters, **query)]: the keyword criteria are
    appended to the list that was passed in. *)
Definition composite_filters (filters : list Filter) (query : list (string * Val))
  : list Filter :=
  filters ++ map (fun kv => BaseFilter (fst kv) (snd kv)) query.

Definition AndFilter_init (filters : list Filter) (query : list (string * Val)) : Filter :=
  AndFilter (composite_filters filters query).

(** [OrFilter] inherits [__init__] from [AndFilter]. *)
Definition OrFilter_init (filters : list Filter) (query : list (string * Val)) : Filter :=
  OrFilter (composite_filters filters query).

(** [match]: dispatch on the class of the filter. *)
Fixpoint filter_match (f : Filter) (value : Val) : Result bool :=
  match f with
  | BaseFilter key self_value => BaseFilter_match key self_value value
  | AndFilter filters =>
      (fix loop (fs : list Filter) (is_match : bool) : Result bool :=
         match fs with
         | [] => Ok is_match
         | _filter :: fs' =>
             m <- filter_match _filter value ;;
             loop fs' (is_match && m)
         end) filters true
  | OrFilter filters =>
      (fix loop (fs : list Filter) (is_match : bool) : Result bool :=
         match fs with
         | [] => Ok is_match
         | _filter :: fs' =>
             m <- filter_match _filter value ;;
             loop fs' (is_match || m)
         end) filters false
  end.

End Filters.

Arguments BaseFilter {Val} key value.
Arguments AndFilter {Val} filters.
Arguments OrFilter {Val} filters.

(** The names [Vertex.__init__] reserves. *)
Definition reserved_names : list string := ["vertex_type"; "from_node"; "to_node"].

(** The parameters of
    [Vertex.__init__(self, vertex_type, from_node, to_node, **attributes)]. *)
Definition Vertex_init_parameters : list string :=
  ["self"; "vertex_type"; "from_node"; "to_node"].

(** The attributes that Python does not keep in the [__dict__] of an
    instance of a class such as [Vertex], but hands to a descriptor of the
    class. *)
Definition special_attributes : list string :=
  ["__class__"; "__dict__"; "__weakref__"].

(** ** Nodes *)

(** What the engine needs of a node: equality (and a hash that agrees with
    it), [str(node)] for the rendering of an edge, and the attribute
    [node.name] ([None] when the object has no such attribute). *)
Class PyNode (Node : Type) : Type := {
  node_eqb : Node -> Node -> bool;
  node_eqb_spec : forall x y : Node, node_eqb x y = true <-> x = y;
  node_str : Node -> string;
  node_name : Node -> option string
}.

#[export, refine] Instance str_node : PyNode string := {
  node_eqb := String.eqb;
  node_str := fun s => s;
  node_name := fun _ => None
}.
Proof. exact String.eqb_eq. Defined.

Definition str_of_nat (n : nat) : string :=
  NilEmpty.string_of_uint (Nat.to_uint n).

#[export, refine] Instance int_node : PyNode nat := {
  node_eqb := Nat.eqb;
  node_str := str_of_nat;
  node_name := fun _ => None
}.
Proof. exact Nat.eqb_eq. Defined.

(** ** Vertex *)

Section Graph.

Variable Node : Type.
Context {node_ops : PyNode Node}.

(** The values of the attributes of a vertex: Python objects that are data
    (numbers, strings, tuples of them, ...). *)
Variable Val : Type.

(** A [Vertex] object: the three fields [__init__] sets, and the other
    instance attributes ([**attributes]) in [attributes]. *)
Record Vertex : Type := mkVertex {
  vertex_type : string;
  from_node : Node;
  to_node : Node;
  attributes : list (string * Val)
}.

(** [setattr(self, key, value)] for a key that is none of the three fields.
    The assignment goes to the [__dict__] of the instance, but for the three
    [special_attributes]: [__class__] must be set to a class and [__dict__]
    to a dictionary ([TypeError] for a value that is data), and
    [__weakref__] is not writable ([AttributeError]). *)
Definition Vertex_setattr (self : Vertex) (key : string) (value : Val) : Result Vertex :=
  if String.eqb key "__class__" then Raise TypeError
  else if String.eqb key "__dict__" then Raise TypeError
  else if String.eqb key "__weakref__" then Raise AttributeError
  else
    Ok (mkVertex (vertex_type self) (from_node self) (to_node self)
                 (attr_set key value (attributes self))).

(** [for key, value in attributes.items(): setattr(self, key, value)] *)
Fixpoint Vertex_setattrs (self : Vertex) (attributes : list (string * Val))
  : Result Vertex :=
  match attributes with
  | [] => Ok self
  | (key, value) :: attributes' =>
      self' <- Vertex_setattr self key value ;;
      Vertex_setattrs self' attributes'
  end.

(** The call [Vertex(vertex_type, from_node, to_node, **keywords)].  Python
    first binds the arguments to the parameters of [__init__]: a keyword
    that has the name of a parameter is an argument for that parameter, which
    the call has given already, and the call raises [TypeError] (multiple
    values for the argument) before the body runs.  The other keywords make
    up [attributes], on which the body runs: the three [assert], the three
    assignments and the loop. *)
Definition Vertex_init (vertex_type : string) (from_node to_node : Node)
  (keywords : list (string * Val)) : Result Vertex :=
  if existsb (fun name => has_key name keywords) Vertex_init_parameters
  then Raise TypeError
  else
    let attributes := keywords in
    if has_key "from_node" attributes then Raise AssertionError
    else if has_key "to_node" attributes then Raise AssertionError
    else if has_key "vertex_type" attributes then Raise AssertionError
    else Vertex_setattrs (mkVertex vertex_type from_node to_node []) attributes.

(** [Vertex.__eq__(self, other)] for [other] a [Vertex]. *)
Definition Vertex_eq (self other : Vertex) : bool :=
  String.eqb (vertex_type self) (vertex_type other)
  && node_eqb (from_node self) (from_node other)
  && node_eqb (to_node self) (to_node other).

(** The tuple [Vertex.__hash__] hashes. *)
Definition Vertex_key (self : Vertex) : string * Node * Node :=
  (vertex_type self, from_node self, to_node self).

(** [Vertex.__hash__(self)], for [hash] the built-in hash of tuples. *)
Definition Vertex_hash (hash : string * Node * Node -> Z) (self : Vertex) : Z :=
  hash (Vertex_key self).

(** [Vertex.__str__(self)] *)
Definition Vertex_str (self : Vertex) : Result string :=
  percent_format "(%s) --> (%s)" [node_str (from_node self); node_str (to_node self)].

(** ** Sets of nodes and of vertices

    A set is the list of its elements, in insertion order.  Membership
    compares with [__eq__]; [__hash__] agrees with [__eq__], so that two
    equal elements always meet in the same bucket. *)

Definition nset_mem (n : Node) (s : list Node) : bool := existsb (node_eqb n) s.

Definition nset_add (n : Node) (s : list Node) : list Node :=
  if nset_mem n s then s else s ++ [n].

Definition nset_of_list (l : list Node) : list Node :=
  fold_left (fun s n => nset_add n s) l [].

Definition vset_mem (v : Vertex) (s : list Vertex) : bool := existsb (Vertex_eq v) s.

Definition vset_add (v : Vertex) (s : list Vertex) : list Vertex :=
  if vset_mem v s then s else s ++ [v].

Definition vset_of_list (l : list Vertex) : list Vertex :=
  fold_left (fun s v => vset_add v s) l [].

(** [s1 - s2] *)
Definition vset_diff (s1 s2 : list Vertex) : list Vertex :=
  filter (fun v => negb (vset_mem v s2)) s1.

(** No two elements of the list are equal: the list is a set. *)
Fixpoint vset_distinct (s : list Vertex) : bool :=
  match s with
  | [] => true
  | v :: s' => negb (vset_mem v s') && vset_distinct s'
  end.

(** ** Plugins *)

(** [file_extensions] is a string or a sequence of strings. *)
Inductive FileExtensions : Type :=
| ExtStr (s : string)
| ExtSeq (l : list string).

(** A plugin object: its [file_extensions] and its method [vertices]
    (the generator, as the list it yields or the exception it raises). *)
Record Plugin : Type := mkPlugin {
  file_extensions : FileExtensions;
  Plugin_vertices : Node -> Result (list Vertex)
}.

(** [node.name] *)
Definition get_name (node : Node) : Result string :=
  match node_name node with
  | Some s => Ok s
  | None => Raise AttributeError
  end.

(** [Plugin.can_create_vertex(self, node)] *)
Definition can_create_vertex (self : Plugin) (node : Node) : Result bool :=
  match file_extensions self with
  | ExtStr s =>
      if String.eqb s "*" then Ok true
      else name <- get_name node ;; Ok (endswith name s)
  | ExtSeq l =>
      (fix loop (exts : list string) (ends_with : bool) : Result bool :=
         match exts with
         | [] => Ok ends_with
         | file_ext :: exts' =>
             if ends_with then loop exts' true
             else name <- get_name node ;; loop exts' (endswith name file_ext)
         end) l false
  end.

(** [Plugin.vertices(self, node)] of the base class. *)
Definition Plugin_base : Plugin :=
  mkPlugin (ExtStr "*") (fun _ => Raise NotImplementedError).

(** [Plugin.__init__(self, **kwargs)]: [for key, value in kwargs] iterates
    over the keys, and unpacks each key, a string, into two variables.  The
    result is the [__dict__] of the new object.  As for [Vertex.__init__],
    this is the body of the constructor on the mapping it receives. *)
Definition unpack2 (s : string) : Result (string * string) :=
  match s with
  | String a (String b EmptyString) => Ok (String a EmptyString, String b EmptyString)
  | _ => Raise ValueError
  end.

Fixpoint Plugin_init_loop (keys : list string) (self : list (string * string))
  : Result (list (string * string)) :=
  match keys with
  | [] => Ok self
  | k :: keys' =>
      '(key, value) <- unpack2 k ;;
      Plugin_init_loop keys' (attr_set key value self)
  end.

Definition Plugin_init (kwargs : list (string * Val)) : Result (list (string * string)) :=
  Plugin_init_loop (map fst kwargs) [].

(** [StaticDependencies.vertices(self, node)] *)
Fixpoint StaticDependencies_vertices (dependencies : list (Node * list Node))
  (node : Node) : Result (list Vertex) :=
  match dependencies with
  | [] => Ok []
  | deps :: rest =>
      here <- (if node_eqb (fst deps) node
               then map_result (fun sub_node => Vertex_init "static" node sub_node []) (snd deps)
               else Ok []) ;;
      more <- StaticDependencies_vertices rest node ;;
      Ok (here ++ more)
  end.

(** [StaticDependencies(dependencies)]; [file_extensions] is inherited. *)
Definition StaticDependencies (dependencies : list (Node * list Node)) : Plugin :=
  mkPlugin (ExtStr "*") (StaticDependencies_vertices dependencies).

(** ** DependencyGraph *)

Record DependencyGraph : Type := mkGraph {
  nodes : list Node;
  plugins : list Plugin;
  vertices : list Vertex
}.

(** *** Discovery *)

(** The state of discovery: [self.nodes], and the vertices yielded so far. *)
Definition Yield : Type := (list Node * list Vertex)%type.

(** [for vertex in plugin.vertices(node): ...] in [build_vertices];
    [recur] is the nested call [self.build_vertices]. *)
Fixpoint expand_vertices (recur : Node -> list Node -> Result Yield)
  (vs : list Vertex) (nodes : list Node) : Result Yield :=
  match vs with
  | [] => Ok (nodes, [])
  | vertex :: vs' =>
      '(nodes1, out1) <-
         (if nset_mem (to_node vertex) nodes then Ok (nodes, [])
          else recur (to_node vertex) (nset_add (to_node vertex) nodes)) ;;
      '(nodes2, out2) <- expand_vertices recur vs' nodes1 ;;
      Ok (nodes2, out1 ++ vertex :: out2)
  end.

(** [for plugin in plugins: ...] in [build_vertices], over the lazy
    [filter]: a plugin is asked whether it applies when its turn comes. *)
Fixpoint expand_plugins (recur : Node -> list Node -> Result Yield)
  (node : Node) (ps : list Plugin) (nodes : list Node) : Result Yield :=
  match ps with
  | [] => Ok (nodes, [])
  | plugin :: ps' =>
      applies <- can_create_vertex plugin node ;;
      '(nodes1, out1) <-
         (if applies : bool
          then vs <- Plugin_vertices plugin node ;; expand_vertices recur vs nodes
          else Ok (nodes, [])) ;;
      '(nodes2, out2) <- expand_plugins recur node ps' nodes1 ;;
      Ok (nodes2, out1 ++ out2)
  end.

(** [DependencyGraph.build_vertices(self, node)], with [depth] nested calls
    available. *)
Fixpoint build_vertices (ps : list Plugin) (depth : nat) (node : Node)
  (nodes : list Node) : Result Yield :=
  match depth with
  | O => Raise RecursionError
  | S depth' => expand_plugins (build_vertices ps depth') node ps nodes
  end.

(** [generate_vertices] of [__init__]: [pending] is the local list [nodes],
    next node to pop first. *)
Fixpoint generate_loop (ps : list Plugin) (depth : nat) (pending : list Node)
  (nodes : list Node) : Result Yield :=
  match pending with
  | [] => Ok (nodes, [])
  | node :: pending' =>
      '(nodes1, out1) <- build_vertices ps depth node nodes ;;
      '(nodes2, out2) <- generate_loop ps depth pending' nodes1 ;;
      Ok (nodes2, out1 ++ out2)
  end.

Definition generate_vertices (ps : list Plugin) (depth : nat) (nodes : list Node)
  : Result Yield :=
  generate_loop ps depth (rev nodes) nodes.

(** *** Cycle detection *)

(** The two indexes of [is_acyclic]: a dict from nodes to sets of vertices. *)
Definition Index : Type := list (Node * list Vertex).

(** [{node: set() for node in self.nodes}] *)
Definition index_init (nodes : list Node) : Index :=
  map (fun node => (node, [])) nodes.

(** [d[node]] *)
Fixpoint index_get (node : Node) (d : Index) : Result (list Vertex) :=
  match d with
  | [] => Raise KeyError
  | (k, s) :: d' => if node_eqb k node then Ok s else index_get node d'
  end.

(** [d[node].add(vertice)] *)
Fixpoint index_add (node : Node) (vertice : Vertex) (d : Index) : Result Index :=
  match d with
  | [] => Raise KeyError
  | (k, s) :: d' =>
      if node_eqb k node then Ok ((k, vset_add vertice s) :: d')
      else d'' <- index_add node vertice d' ;; Ok ((k, s) :: d'')
  end.

(** [for vertice in self.vertices: ...] *)
Fixpoint build_index (vs : list Vertex) (connected_to from_nodes : Index)
  : Result (Index * Index) :=
  match vs with
  | [] => Ok (connected_to, from_nodes)
  | vertice :: vs' =>
      connected_to' <- index_add (to_node vertice) vertice connected_to ;;
      from_nodes' <- index_add (from_node vertice) vertice from_nodes ;;
      build_index vs' connected_to' from_nodes'
  end.

(** The local list [nodes] of [is_acyclic] is a stack: it is kept with its
    last element first, so that [append] is a cons and [pop] takes the head.

    [for node in self.nodes: if len(connected_to[node]) == 0: ...] *)
Fixpoint ready_nodes (connected_to : Index) (ns : list Node) (stack : list Node)
  : Result (list Node) :=
  match ns with
  | [] => Ok stack
  | node :: ns' =>
      incoming <- index_get node connected_to ;;
      ready_nodes connected_to ns'
        (if (List.length incoming =? 0)%nat then node :: stack else stack)
  end.

(** [for vertice in connected: ...], the body of the [while] loop. *)
Fixpoint delete_connected (connected_to : Index) (node : Node)
  (connected : list Vertex) (stack : list Node) (deleted : list Vertex)
  : Result (list Node * list Vertex) :=
  match connected with
  | [] => Ok (stack, deleted)
  | vertice :: connected' =>
      let deleted' := vset_add vertice deleted in
      incoming <- index_get node connected_to ;;
      delete_connected connected_to node connected'
        (match vset_diff incoming deleted' with
         | [] => to_node vertice :: stack
         | _ :: _ => stack
         end)
        deleted'
  end.

(** [while nodes: ...]; [fuel] bounds the number of iterations, and
    [LoopBound] is the answer of the model when it is used up (it never is
    in [is_acyclic], see [is_acyclic_terminates]). *)
Fixpoint eliminate (fuel : nat) (connected_to from_nodes : Index)
  (stack : list Node) (deleted : list Vertex) : Result (list Vertex) :=
  match stack with
  | [] => Ok deleted
  | node :: stack' =>
      match fuel with
      | O => Raise LoopBound
      | S fuel' =>
          outgoing <- index_get node from_nodes ;;
          '(stack'', deleted') <-
             delete_connected connected_to node (vset_diff outgoing deleted)
                              stack' deleted ;;
          eliminate fuel' connected_to from_nodes stack'' deleted'
      end
  end.

(** [is_acyclic] on the two sets [self.nodes] and [self.vertices]. *)
Definition is_acyclic_sets (ns : list Node) (vs : list Vertex) : Result bool :=
  '(connected_to, from_nodes) <- build_index vs (index_init ns) (index_init ns) ;;
  stack <- ready_nodes connected_to ns [] ;;
  deleted_vertices <-
    eliminate (List.length ns + List.length vs) connected_to from_nodes stack [] ;;
  Ok (List.length vs =? List.length deleted_vertices)%nat.

(** [DependencyGraph.is_acyclic(self)] *)
Definition is_acyclic (self : DependencyGraph) : Result bool :=
  is_acyclic_sets (nodes self) (vertices self).

(** [DependencyGraph.__init__(self, nodes, plugins)], when every set is
    iterated in the order in which its elements were inserted.  Python
    iterates a set in the order of its hash table, and the verdict of
    [is_acyclic] depends on the order: this is one of the runs of the
    constructor, and [constructs] below admits them all. *)
Definition DependencyGraph_init (depth : nat) (seeds : list Node)
  (ps : list Plugin) : Result DependencyGraph :=
  '(ns, generated) <- generate_vertices ps depth (nset_of_list seeds) ;;
  let self := mkGraph ns ps (vset_of_list generated) in
  acyclic <- is_acyclic self ;;
  if acyclic : bool then Ok self else Raise CircularDependencyError.

(** Discovery in [__init__], whatever the order of [list(self.nodes)]:
    [pending] is that list, next node to pop first.  It ends with the node
    set [ns] and the edge set [vs]. *)
Definition discovers (depth : nat) (seeds : list Node) (ps : list Plugin)
  (ns : list Node) (vs : list Vertex) : Prop :=
  exists pending generated,
    Permutation (nset_of_list seeds) pending
    /\ generate_loop ps depth pending (nset_of_list seeds) = Ok (ns, generated)
    /\ vs = vset_of_list generated.

(** [DependencyGraph(seeds, ps)] returns the graph [self], whatever the
    order in which each set is iterated: discovery ends with its nodes and
    its edges, and [is_acyclic] returns [True] when it iterates
    [self.nodes] in the order [ns] and [self.vertices] in the order [vs]. *)
Definition constructs (depth : nat) (seeds : list Node) (ps : list Plugin)
  (self : DependencyGraph) : Prop :=
  plugins self = ps
  /\ discovers depth seeds ps (nodes self) (vertices self)
  /\ exists ns vs,
       Permutation (nodes self) ns /\ Permutation (vertices self) vs
       /\ is_acyclic_sets ns vs = Ok true.

(** [DependencyGraph.__str__(self)] *)
Definition DependencyGraph_str (self : DependencyGraph) : Result string :=
  lines <- map_result Vertex_str (vertices self) ;;
  Ok (String.concat (String (ascii_of_nat 10) EmptyString) lines).

(** *** Queries *)

(** [for vertex in vertices: ...] in [dependencies]; [recur] is the nested
    call [self.dependencies(_, follow)]. *)
Fixpoint dependencies_loop (recur : Node -> Result (list Node)) (follow : bool)
  (vs : list Vertex) : Result (list Node) :=
  match vs with
  | [] => Ok []
  | vertex :: vs' =>
      sub <- (if follow then recur (to_node vertex) else Ok []) ;;
      rest <- dependencies_loop recur follow vs' ;;
      Ok (to_node vertex :: sub ++ rest)
  end.

(** [dependencies] over the set [self.vertices], with [depth] nested calls
    available. *)
Fixpoint dependencies_in (vs : list Vertex) (depth : nat) (node : Node)
  (follow : bool) : Result (list Node) :=
  match depth with
  | O => Raise RecursionError
  | S depth' =>
      dependencies_loop (fun n => dependencies_in vs depth' n follow) follow
        (filter (fun v => node_eqb (from_node v) node) vs)
  end.

(** [DependencyGraph.dependencies(self, node, follow=False)] *)
Definition dependencies (self : DependencyGraph) (depth : nat) (node : Node)
  (follow : bool) : Result (list Node) :=
  dependencies_in (vertices self) depth node follow.

End Graph.

Arguments Plugin_base : clear implicits.
Arguments StaticDependencies {Node node_ops} Val dependencies.

(** ** Vocabulary of the specification *)

Section Paths.

Variable Node : Type.
Variable Val : Type.

(** A directed path of one or more edges of [vs]. *)
Inductive path (vs : list (Vertex Node Val)) : Node -> Node -> Prop :=
| path_edge (v : Vertex Node Val) :
    In v vs -> path vs (from_node v) (to_node v)
| path_step (v : Vertex Node Val) (n : Node) :
    In v vs -> path vs (to_node v) n -> path vs (from_node v) n.

(** The directed graph with edges [vs] has no directed cycle. *)
Definition acyclic (vs : list (Vertex Node Val)) : Prop :=
  forall n, ~ path vs n n.

End Paths.

(** Two lists with the same elements. *)
Definition same_elements {A : Type} (l1 l2 : list A) : Prop :=
  forall x, In x l1 <-> In x l2.

(** A query answers with the elements of [expected], in some order and
    possibly repeated. *)
Definition yields {A : Type} (r : Result (list A)) (expected : list A) : Prop :=
  exists out, r = Ok out /\ same_elements out expected.

(** Every order in which a set can be iterated: the permutations of a list. *)
Fixpoint insert_all {A : Type} (x : A) (l : list A) : list (list A) :=
  match l with
  | [] => [[x]]
  | y :: l' => (x :: l) :: map (cons y) (insert_all x l')
  end.

Fixpoint perms {A : Type} (l : list A) : list (list A) :=
  match l with
  | [] => [[]]
  | x :: l' => flat_map (insert_all x) (perms l')
  end.

(** ** The graphs of [tests/testsGraph.py] and of the examples *)

(** [Vertex("static", a, b)] *)
Definition static_edge {Node : Type} (a b : Node) : Vertex Node unit :=
  mkVertex "static" a b [].

(** [plugins=[StaticDependencies(deps),]] *)
Definition static_plugins {Node : Type} {node_ops : PyNode Node}
  (deps : list (Node * list Node)) : list (Plugin Node unit) :=
  [StaticDependencies unit deps].

(** The table of [test_single_node]. *)
Definition single_node_deps : list (string * list string) :=
  [("A", ["B"; "C"; "D"]); ("B", ["C"; "D"]); ("D", ["E"])].

(** [sys.getrecursionlimit()] of CPython, by default: the bound on the
    depth of the interpreter's stack.  Every frame counts, those of the
    caller, of [__init__] and of [generate_vertices] too, so that the
    nested calls of [build_vertices] or of [dependencies] that are available
    under this limit are fewer than [recursion_limit] (by a few frames):
    [recursion_limit] is an upper bound of their number. *)
Definition recursion_limit : nat := 1000.

(** An acyclic graph in which [B] has two predecessors, and [D] lies below
    [B]. *)
Definition joined_deps : list (string * list string) :=
  [("A", ["B"]); ("C", ["B"]); ("B", ["D"]); ("D", ["E"])].

(** A graph in which [B] and [C] depend on each other. *)
Definition two_cycle_deps : list (string * list string) :=
  [("A", ["B"; "C"]); ("B", ["C"]); ("C", ["B"])].

(** A graph in which [B] depends on itself. *)
Definition self_loop_deps : list (string * list string) :=
  [("A", ["B"]); ("B", ["B"])].

(** A chain [0 -> 1 -> ... -> m] of [m + 1] nodes, as the table of a
    [StaticDependencies]: one row [(i, (i + 1,))] for each [i < m]. *)
Definition chain_deps (m : nat) : list (nat * list nat) :=
  map (fun i => (i, [S i])) (seq 0 m).

(** The edge [i -> i + 1] of the chain. *)
Definition chain_edge (i : nat) : Vertex nat unit := static_edge i (S i).

(** The [m] edges of the chain, last one first. *)
Definition chain_edges (m : nat) : list (Vertex nat unit) :=
  map chain_edge (rev (seq 0 m)).

(** ** Decision procedures for the statements about every iteration order *)

Section Checks.

Variable Node : Type.
Context {node_ops : PyNode Node}.
Variable Val : Type.

(** The node and edge sets on which [__init__] calls [is_acyclic]. *)
Definition discovered (depth : nat) (seeds : list Node) (ps : list (Plugin Node Val))
  : Result (list Node * list (Vertex Node Val)) :=
  '(ns, generated) <- generate_vertices ps depth (nset_of_list seeds) ;;
  Ok (ns, vset_of_list generated).

Definition same_elementsb (l1 l2 : list Node) : bool :=
  forallb (fun x => nset_mem x l2) l1 && forallb (fun x => nset_mem x l1) l2.

Definition yieldsb (r : Result (list Node)) (expected : list Node) : bool :=
  match r with
  | Ok out => same_elementsb out expected
  | Raise _ => false
  end.

Definition verdictb (r : Result bool) (expected : bool) : bool :=
  match r with
  | Ok b => Bool.eqb b expected
  | Raise _ => false
  end.

(** [check] holds for every iteration order of the two sets. *)
Definition for_all_orders (check : list Node -> list (Vertex Node Val) -> bool)
  (ns : list Node) (vs : list (Vertex Node Val)) : bool :=
  forallb (fun ns' => forallb (check ns') (perms vs)) (perms ns).

End Checks.

(** ** Vocabulary of the further properties *)

(** [sep in s] *)
Fixpoint occurs (sep s : string) : bool :=
  String.prefix sep s
  || match s with
     | EmptyString => false
     | String _ s' => occurs sep s'
     end.

(** A node object with an attribute [name], compared by it. *)
Record File : Type := mkFile { file_name : string }.

#[export, refine] Instance file_node : PyNode File := {
  node_eqb := fun a b => String.eqb (file_name a) (file_name b);
  node_str := file_name;
  node_name := fun a => Some (file_name a)
}.
Proof.
  intros [a] [b]. simpl. rewrite String.eqb_eq. split; congruence.
Defined.

(** Optional numbers as the values a filter looks at: [None], and numbers
    with their order; every attribute of a number is [None] but [real], the
    number itself. *)
Definition num_getattr (value : option nat) (name : string) : option nat :=
  if String.eqb name "real" then value else None.

Definition num_is_none (value : option nat) : bool :=
  match value with None => true | Some _ => false end.

Definition num_compare (op : nat -> nat -> bool) (a b : option nat) : Result bool :=
  match a, b with
  | Some x, Some y => Ok (op x y)
  | _, _ => Raise TypeError
  end.

Section Producers.

Variable Node : Type.
Context {node_ops : PyNode Node}.
Variable Val : Type.

(** One of the plugins [ps] applies to [node] and yields [v] for it. *)
Definition yielded_by (ps : list (Plugin Node Val)) (node : Node)
  (v : Vertex Node Val) : Prop :=
  exists plugin vs,
    In plugin ps /\ can_create_vertex plugin node = Ok true
    /\ Plugin_vertices plugin node = Ok vs /\ In v vs.

(** Every vertex a plugin yields for a node starts at that node. *)
Definition starts_at_node (ps : list (Plugin Node Val)) : Prop :=
  forall plugin node vs v,
    In plugin ps -> Plugin_vertices plugin node = Ok vs -> In v vs ->
    from_node v = node.

(** Every plugin answers on every node: [can_create_vertex] and [vertices]
    do not raise. *)
Definition total_plugins (ps : list (Plugin Node Val)) : Prop :=
  forall plugin node,
    In plugin ps ->
    (exists applies, can_create_vertex plugin node = Ok applies)
    /\ exists vs, Plugin_vertices plugin node = Ok vs.

(** The vertices the plugins yield all lead to nodes of [universe]. *)
Definition targets_in (ps : list (Plugin Node Val)) (universe : list Node) : Prop :=
  forall plugin node vs v,
    In plugin ps -> Plugin_vertices plugin node = Ok vs -> In v vs ->
    In (to_node v) universe.

(** The number of nodes of [universe] that are not in [nodes] yet. *)
Definition unseen (universe nodes : list Node) : nat :=
  List.length (filter (fun u => negb (nset_mem u nodes)) universe).

(** [n] is a node without incoming edge, or can be reached from one. *)
Definition below_root (ns : list Node) (vs : list (Vertex Node Val)) (n : Node) : Prop :=
  exists r,
    In r ns /\ (forall w, In w vs -> to_node w <> r) /\ (r = n \/ path vs r n).

(** [x] entered the node set between [nodes] and [nodes']. *)
Definition added (nodes nodes' : list Node) (x : Node) : Prop :=
  In x nodes' /\ ~ In x nodes.

(** What a stretch of discovery that takes [self.nodes] from [nodes] to
    [nodes'] and yields [out] does, when the vertices it has to yield
    itself are those of [own]: the node set grows, by the targets of
    yielded vertices only; the vertices yielded are those of [own] and those
    the plugins give for the added nodes, all of them; and, when the plugins
    keep to [starts_at_node], every added node is reached from a vertex of
    [own] along yielded vertices. *)
Definition expands (ps : list (Plugin Node Val)) (own : Vertex Node Val -> Prop)
  (nodes nodes' : list Node) (out : list (Vertex Node Val)) : Prop :=
  incl nodes nodes'
  /\ (NoDup nodes -> NoDup nodes')
  /\ (forall v, In v out -> In (to_node v) nodes')
  /\ (forall x, added nodes nodes' x -> exists v, In v out /\ to_node v = x)
  /\ (forall v, In v out ->
        own v \/ exists m, added nodes nodes' m /\ yielded_by ps m v)
  /\ (forall v, own v -> In v out)
  /\ (forall m v, added nodes nodes' m -> yielded_by ps m v -> In v out)
  /\ (starts_at_node ps ->
      forall x, added nodes nodes' x ->
        exists v, own v /\ (to_node v = x \/ path out (to_node v) x)).

End Producers.

(** An acyclic graph in which [B] is reached from [A] directly and through
    [Y]. *)
Definition diamond_deps : list (string * list string) :=
  [("A", ["B"; "Y"]); ("Y", ["B"]); ("B", ["D"]); ("D", ["E"])].

(** * Properties *)

Local Open Scope nat_scope.

(** ** Composite filters *)

Section FilterFacts.

Variable Val : Type.
Variable py_getattr_or_none : Val -> string -> Val.
Variable py_is_none : Val -> bool.
Variables py_gt py_ge py_lt py_le py_ne py_eq : Val -> Val -> Result bool.

Let run := filter_match py_getattr_or_none py_is_none
                        py_gt py_ge py_lt py_le py_ne py_eq.

(** C9: [AndFilter([])], with no keyword criterion, matches every value, and
    [OrFilter([])], with none either, matches no value. *)
Theorem empty_composite_filters (value : Val) :
  run (AndFilter_init [] []) value = Ok true
  /\ run (OrFilter_init [] []) value = Ok false.
Proof. split; reflexivity. Qed.

End FilterFacts.

(** ** Attribute dictionaries *)

Lemma attr_get_set_same {V : Type} (key : string) (value : V) d :
  attr_get key (attr_set key value d) = Some value.
Proof.
  induction d as [|[k v] d IH]; simpl.
  - now rewrite String.eqb_refl.
  - destruct (String.eqb k key) eqn:E; simpl; rewrite E; auto.
Qed.

Lemma attr_get_set_other {V : Type} (key key' : string) (value : V) d :
  key' <> key -> attr_get key' (attr_set key value d) = attr_get key' d.
Proof.
  intros Hne. induction d as [|[k v] d IH]; simpl.
  - destruct (String.eqb key key') eqn:E; auto.
    apply String.eqb_eq in E. congruence.
  - destruct (String.eqb k key) eqn:E; simpl.
    + apply String.eqb_eq in E. subst k.
      destruct (String.eqb key key') eqn:E'; auto.
      apply String.eqb_eq in E'. congruence.
    + now rewrite IH.
Qed.

Lemma attr_get_app {V : Type} (key : string) (d1 d2 : list (string * V)) :
  attr_get key (d1 ++ d2) =
  match attr_get key d1 with Some v => Some v | None => attr_get key d2 end.
Proof.
  induction d1 as [|[k v] d1 IH]; simpl; auto.
  destruct (String.eqb k key); auto.
Qed.

Lemma has_key_false {V : Type} (key : string) (d : list (string * V)) :
  has_key key d = false <-> (forall k v, In (k, v) d -> k <> key).
Proof.
  unfold has_key. split.
  - intros H k v Hin Heq. subst k.
    assert (existsb (fun kv => String.eqb (fst kv) key) d = true) as Ht.
    { apply existsb_exists. exists (key, v). split; auto. apply String.eqb_refl. }
    congruence.
  - intros H. destruct (existsb _ d) eqn:E; auto.
    apply existsb_exists in E. destruct E as [[k v] [Hin Hk]].
    apply String.eqb_eq in Hk. simpl in Hk. now apply H in Hin.
Qed.

(** ** Vertex *)

Section VertexFacts.

Variable Node : Type.
Context {node_ops : PyNode Node}.
Variable Val : Type.

Lemma node_eqb_refl (n : Node) : node_eqb n n = true.
Proof. now apply node_eqb_spec. Qed.

Lemma node_eqb_neq (n m : Node) : node_eqb n m = false <-> n <> m.
Proof.
  split.
  - intros H Heq. apply node_eqb_spec in Heq. congruence.
  - intros H. destruct (node_eqb n m) eqn:E; auto.
    apply node_eqb_spec in E. contradiction.
Qed.

Lemma Vertex_eq_key (e1 e2 : Vertex Node Val) :
  Vertex_eq e1 e2 = true <-> Vertex_key e1 = Vertex_key e2.
Proof.
  unfold Vertex_eq, Vertex_key. rewrite !andb_true_iff, String.eqb_eq, !node_eqb_spec.
  split.
  - intros [[-> ->] ->]. reflexivity.
  - intros H. injection H as -> -> ->. auto.
Qed.

Lemma Vertex_eq_refl (v : Vertex Node Val) : Vertex_eq v v = true.
Proof. now apply Vertex_eq_key. Qed.

Lemma Vertex_eq_sym (v w : Vertex Node Val) : Vertex_eq v w = Vertex_eq w v.
Proof.
  destruct (Vertex_eq v w) eqn:E1, (Vertex_eq w v) eqn:E2; auto.
  - apply Vertex_eq_key in E1. symmetry in E1. apply Vertex_eq_key in E1. congruence.
  - apply Vertex_eq_key in E2. symmetry in E2. apply Vertex_eq_key in E2. congruence.
Qed.

Lemma Vertex_eq_trans_l (u v w : Vertex Node Val) :
  Vertex_eq u v = true -> Vertex_eq u w = Vertex_eq v w.
Proof.
  intros H. apply Vertex_eq_key in H.
  destruct (Vertex_eq u w) eqn:E1, (Vertex_eq v w) eqn:E2; auto.
  - apply Vertex_eq_key in E1. rewrite H in E1. apply Vertex_eq_key in E1. congruence.
  - apply Vertex_eq_key in E2. rewrite <- H in E2. apply Vertex_eq_key in E2. congruence.
Qed.

Lemma vset_mem_eq (u v : Vertex Node Val) (s : list (Vertex Node Val)) :
  Vertex_eq u v = true -> vset_mem u s = vset_mem v s.
Proof.
  intros H. unfold vset_mem. induction s as [|w s IH]; simpl; auto.
  now rewrite IH, (@Vertex_eq_trans_l u v w H).
Qed.

Lemma vset_mem_app (v : Vertex Node Val) (s1 s2 : list (Vertex Node Val)) :
  vset_mem v (s1 ++ s2) = vset_mem v s1 || vset_mem v s2.
Proof. unfold vset_mem. apply existsb_app. Qed.

Lemma vset_mem_add_same (v : Vertex Node Val) (s : list (Vertex Node Val)) :
  vset_mem v (vset_add v s) = true.
Proof.
  unfold vset_add. destruct (vset_mem v s) eqn:E; auto.
  rewrite vset_mem_app. simpl. now rewrite Vertex_eq_refl, orb_true_r.
Qed.

(** C4: two edges are equal exactly when their
    [(vertex_type, from_node, to_node)] triples are, whatever their
    attributes; edges with the same triple have the same hash, and adding the
    second one to a set that holds the first leaves the set as it is. *)
Theorem Vertex_eq_hash :
  (forall e1 e2 : Vertex Node Val,
      Vertex_eq e1 e2 = true <-> Vertex_key e1 = Vertex_key e2)
  /\ (forall (kind : string) (f t : Node) (attrs1 attrs2 : list (string * Val)),
         let e1 := mkVertex kind f t attrs1 in
         let e2 := mkVertex kind f t attrs2 in
         Vertex_eq e1 e2 = true
         /\ (forall hash, Vertex_hash hash e1 = Vertex_hash hash e2)
         /\ (forall s, vset_add e2 (vset_add e1 s) = vset_add e1 s)
         /\ vset_of_list [e1; e2] = [e1]).
Proof.
  split; [exact Vertex_eq_key|].
  intros kind f t attrs1 attrs2 e1 e2.
  assert (Vertex_eq e1 e2 = true) as Heq by (now apply Vertex_eq_key).
  assert (forall s, vset_add e2 (vset_add e1 s) = vset_add e1 s) as Hadd.
  { intros s. unfold vset_add at 1.
    now rewrite <- (@vset_mem_eq e1 e2 (vset_add e1 s) Heq), vset_mem_add_same. }
  repeat split; auto.
  unfold vset_of_list. simpl. now rewrite Hadd.
Qed.

Lemma Vertex_setattr_ordinary (self : Vertex Node Val) (key : string) (value : Val) :
  ~ In key special_attributes ->
  Vertex_setattr self key value =
  Ok (mkVertex (vertex_type self) (from_node self) (to_node self)
               (attr_set key value (attributes self))).
Proof.
  intros H. unfold Vertex_setattr.
  destruct (String.eqb_spec key "__class__") as [->|_]; [exfalso; apply H; simpl; auto|].
  destruct (String.eqb_spec key "__dict__") as [->|_]; [exfalso; apply H; simpl; auto|].
  destruct (String.eqb_spec key "__weakref__") as [->|_]; [exfalso; apply H; simpl; auto|].
  reflexivity.
Qed.

Lemma Vertex_setattrs_raise (attrs : list (string * Val)) (self : Vertex Node Val)
  (e : PyError) :
  Vertex_setattrs self attrs = Raise e -> e = TypeError \/ e = AttributeError.
Proof.
  revert self. induction attrs as [|[key value] attrs IH]; intros self; [discriminate|].
  cbn [Vertex_setattrs]. unfold Vertex_setattr.
  destruct (String.eqb key "__class__"); [cbn; intros H; injection H as <-; auto|].
  destruct (String.eqb key "__dict__"); [cbn; intros H; injection H as <-; auto|].
  destruct (String.eqb key "__weakref__"); [cbn; intros H; injection H as <-; auto|].
  cbn [bind]. apply IH.
Qed.

Lemma Vertex_init_fields (attrs : list (string * Val)) (self : Vertex Node Val) :
  (forall k v, In (k, v) attrs -> ~ In k special_attributes) ->
  exists self',
    Vertex_setattrs self attrs = Ok self'
    /\ vertex_type self' = vertex_type self
    /\ from_node self' = from_node self
    /\ to_node self' = to_node self
    /\ forall k, attr_get k (attributes self') =
                 match kwargs_get k attrs with
                 | Some v => Some v
                 | None => attr_get k (attributes self)
                 end.
Proof.
  revert self. induction attrs as [|[key value] attrs IH]; intros self Hord.
  - exists self. simpl. auto.
  - cbn [Vertex_setattrs].
    rewrite Vertex_setattr_ordinary by (apply (Hord key value); now left).
    cbn [bind].
    destruct (IH (mkVertex (vertex_type self) (from_node self) (to_node self)
                           (attr_set key value (attributes self))))
      as (self' & Hs & H1 & H2 & H3 & H4).
    { intros k v Hin. apply (Hord k v). now right. }
    exists self'. split; [exact Hs|]. repeat split; auto.
    intros k. rewrite H4. unfold kwargs_get. simpl. rewrite attr_get_app.
    destruct (attr_get k (rev attrs)); auto. simpl.
    destruct (String.eqb key k) eqn:E.
    + apply String.eqb_eq in E. subst. apply attr_get_set_same.
    + apply attr_get_set_other. intros ->. now rewrite String.eqb_refl in E.
Qed.

Lemma Vertex_init_bound (kind : string) (f t : Node) (attrs : list (string * Val)) :
  existsb (fun name => has_key name attrs) Vertex_init_parameters = false ->
  Vertex_init kind f t attrs = Vertex_setattrs (mkVertex kind f t []) attrs.
Proof.
  intros H. unfold Vertex_init. rewrite H.
  cbn [existsb Vertex_init_parameters] in H.
  repeat (apply orb_false_iff in H; destruct H as [? H]).
  repeat match goal with E : has_key _ attrs = false |- _ => rewrite E; clear E end.
  reflexivity.
Qed.

(** C6, as the code has it: [vertex_type], [from_node] and [to_node] are
    parameters of [__init__], and so is [self]: a keyword with one of these
    names never reaches [**attributes], the call raises [TypeError] when it
    binds its arguments, and the three [assert] of the body never fail.  A
    bag with none of the four names, and none of the attributes Python
    handles itself, is attached to the new vertex, whose three fields are
    the arguments. *)
Theorem Vertex_init_reserved (kind : string) (f t : Node) (attrs : list (string * Val)) :
  ((exists k v, In (k, v) attrs /\ (In k reserved_names \/ k = "self")) ->
   Vertex_init kind f t attrs = Raise TypeError)
  /\ Vertex_init kind f t attrs <> Raise AssertionError
  /\ ((forall k v, In (k, v) attrs ->
         ~ In k Vertex_init_parameters /\ ~ In k special_attributes) ->
      exists self,
        Vertex_init kind f t attrs = Ok self
        /\ Vertex_key self = (kind, f, t)
        /\ forall k, attr_get k (attributes self) = kwargs_get k attrs).
Proof.
  split; [|split].
  - intros (k & v & Hin & Hk). unfold Vertex_init.
    replace (existsb (fun name => has_key name attrs) Vertex_init_parameters) with true;
      [reflexivity|].
    symmetry. apply existsb_exists. exists k. split.
    + unfold reserved_names, Vertex_init_parameters in *. simpl in *. intuition.
    + unfold has_key. apply existsb_exists. exists (k, v).
      split; [exact Hin | apply String.eqb_refl].
  - destruct (existsb (fun name => has_key name attrs) Vertex_init_parameters) eqn:E.
    + unfold Vertex_init. rewrite E. discriminate.
    + rewrite (Vertex_init_bound kind f t attrs E). intros H.
      apply Vertex_setattrs_raise in H. destruct H; discriminate.
  - intros H.
    assert (E : existsb (fun name => has_key name attrs) Vertex_init_parameters = false).
    { destruct (existsb _ Vertex_init_parameters) eqn:E; [|reflexivity].
      apply existsb_exists in E. destruct E as (name & Hname & Hk).
      unfold has_key in Hk. apply existsb_exists in Hk.
      destruct Hk as ([k v] & Hin & Heq). apply String.eqb_eq in Heq. simpl in Heq.
      subst k. exfalso. exact (proj1 (H _ _ Hin) Hname). }
    rewrite (Vertex_init_bound kind f t attrs E).
    destruct (Vertex_init_fields attrs (mkVertex kind f t []))
      as (self & Hs & H1 & H2 & H3 & H4).
    { intros k v Hin. exact (proj2 (H _ _ Hin)). }
    exists self. split; [exact Hs|].
    unfold Vertex_key. rewrite H1, H2, H3. split; auto.
    intros k. rewrite H4. simpl. now destruct (kwargs_get k attrs).
Qed.

End VertexFacts.

(** Witness for C6: [Vertex("static", 1, 2, weight=7, to_node=3)], then
    [Vertex("static", 1, 2, weight=7, label=3)]. *)
Lemma Vertex_init_reserved_witness :
  Vertex_init "static" 1 2 [("weight", 7); ("to_node", 3)] = Raise TypeError
  /\ Vertex_init "static" 1 2 [("weight", 7); ("to_node", 3)] <> Raise AssertionError
  /\ exists self,
       Vertex_init "static" 1 2 [("weight", 7); ("label", 3)] = Ok self
       /\ Vertex_key self = ("static", 1, 2)
       /\ forall k, attr_get k (attributes self) = kwargs_get k [("weight", 7); ("label", 3)].
Proof.
  split; [|split].
  - apply (proj1 (Vertex_init_reserved "static" 1 2 [("weight", 7); ("to_node", 3)])).
    exists "to_node", 3. split; [simpl; auto | left; simpl; auto].
  - apply (proj1 (proj2 (Vertex_init_reserved "static" 1 2
                           [("weight", 7); ("to_node", 3)]))).
  - apply (proj2 (proj2 (Vertex_init_reserved "static" 1 2
                           [("weight", 7); ("label", 3)]))).
    intros k v [H|[H|[]]]; injection H as <- _; simpl; intuition discriminate.
Defined.

(** C6, as the specification has it, fails: the bag [{"self": 7}] holds none
    of the three reserved names, and [Vertex("static", 1, 2, self=7)] raises
    [TypeError]; so does setting [__class__] to a number, in the loop of the
    body. *)
Lemma Vertex_init_unreserved_rejected :
  (forall k v, In (k, v) [("self", 7)] -> ~ In k reserved_names)
  /\ Vertex_init "static" 1 2 [("self", 7)] = Raise TypeError
  /\ (forall k v, In (k, v) [("__class__", 7)] -> ~ In k reserved_names)
  /\ Vertex_init "static" 1 2 [("__class__", 7)] = Raise TypeError.
Proof.
  split; [|split; [reflexivity|split; [|reflexivity]]].
  - intros k v [H|[]]. injection H as <- _. simpl. intuition discriminate.
  - intros k v [H|[]]. injection H as <- _. simpl. intuition discriminate.
Qed.

Section VertexStr.

Variable Node : Type.
Context {node_ops : PyNode Node}.
Variable Val : Type.

(** C8, as the code has it: the rendering of an edge is the source in
    parentheses, the literal [" --> "], and the target in parentheses. *)
Theorem Vertex_str_parenthesised (self : Vertex Node Val) :
  Vertex_str self =
  Ok ("(" ++ node_str (from_node self) ++ ") --> (" ++ node_str (to_node self) ++ ")")%string.
Proof.
  unfold Vertex_str. simpl. reflexivity.
Qed.

End VertexStr.

(** C8, as the specification has it, fails: the edge from [A] to [B] is not
    rendered as [A --> B]. *)
Lemma Vertex_str_not_bare :
  Vertex_str (mkVertex (Val := unit) "static" "A" "B" [])
  <> Ok ("A" ++ " --> " ++ "B")%string.
Proof. vm_compute. discriminate. Qed.

(** ** Plugin.__init__ *)

Lemma unpack2_ok (k key value : string) :
  unpack2 k = Ok (key, value) ->
  String.length k = 2 /\ String.length key = 1 /\ k = (key ++ value)%string.
Proof.
  destruct k as [|a [|b [|c k]]]; simpl; try discriminate.
  intros H. injection H as <- <-. auto.
Qed.

Lemma unpack2_raise (k : string) :
  String.length k <> 2 -> unpack2 k = Raise ValueError.
Proof.
  destruct k as [|a [|b [|c k]]]; simpl; auto. congruence.
Qed.

Lemma unpack2_cases (k : string) :
  unpack2 k = Raise ValueError \/ exists key value, unpack2 k = Ok (key, value).
Proof.
  destruct k as [|a [|b [|c k]]]; simpl; eauto.
Qed.

Lemma Plugin_init_loop_raise (keys : list string) (self : list (string * string)) :
  (exists k, In k keys /\ String.length k <> 2) ->
  Plugin_init_loop keys self = Raise ValueError.
Proof.
  revert self. induction keys as [|k keys IH]; intros self (k' & Hin & Hlen).
  - destruct Hin.
  - simpl. destruct (unpack2_cases k) as [->|(key & value & Hk)]; [reflexivity|].
    rewrite Hk. simpl. destruct Hin as [->|Hin].
    + apply unpack2_ok in Hk. tauto.
    + apply IH. eauto.
Qed.

(** The attributes [Plugin.__init__] sets have one-character names, one for
    each keyword. *)
Lemma Plugin_init_loop_ok (keys : list string) (self attrs : list (string * string)) :
  Plugin_init_loop keys self = Ok attrs ->
  (forall name, attr_get name self <> None -> attr_get name attrs <> None)
  /\ (forall name, attr_get name attrs <> None ->
        attr_get name self <> None \/ String.length name = 1)
  /\ (forall k, In k keys ->
        exists a b, k = String a (String b EmptyString)
                    /\ attr_get (String a EmptyString) attrs <> None).
Proof.
  revert self. induction keys as [|k keys IH]; intros self; simpl.
  - intros H. injection H as <-. repeat split; auto. intros k [].
  - destruct (unpack2 k) as [[key value]|e] eqn:Hk; simpl; [|discriminate].
    intros H. destruct (IH _ H) as (H1 & H2 & H3).
    assert (forall name, attr_get name self <> None ->
                         attr_get name (attr_set key value self) <> None) as Hset.
    { intros name Hn. destruct (String.eqb name key) eqn:E.
      - apply String.eqb_eq in E. subst. rewrite attr_get_set_same. discriminate.
      - rewrite attr_get_set_other; auto. intros ->. now rewrite String.eqb_refl in E. }
    repeat split.
    + intros name Hn. auto.
    + intros name Hn. destruct (H2 _ Hn) as [Hs|]; auto.
      destruct (String.eqb name key) eqn:E.
      * apply String.eqb_eq in E. subst. apply unpack2_ok in Hk. tauto.
      * rewrite attr_get_set_other in Hs; auto.
        intros ->. now rewrite String.eqb_refl in E.
    + intros k' [<-|Hin]; auto.
      destruct k as [|a [|b [|c k]]]; simpl in Hk; try discriminate.
      injection Hk as <- <-. exists a, b. split; auto.
      apply H1. rewrite attr_get_set_same. discriminate.
Qed.

(** C10: a keyword whose name is not two characters long makes
    [Plugin.__init__] raise; when it returns, no keyword is stored under its
    name, and each keyword has set the attribute named by its first
    character. *)
Theorem Plugin_init_unpacks_keys (Val : Type) (kwargs : list (string * Val)) :
  ((exists k v, In (k, v) kwargs /\ String.length k <> 2) ->
   Plugin_init kwargs = Raise ValueError)
  /\ (forall attrs, Plugin_init kwargs = Ok attrs ->
        forall k v, In (k, v) kwargs ->
          attr_get k attrs = None
          /\ exists a b, k = String a (String b EmptyString)
                         /\ attr_get (String a EmptyString) attrs <> None).
Proof.
  unfold Plugin_init. split.
  - intros (k & v & Hin & Hlen). apply Plugin_init_loop_raise.
    exists k. split; auto. apply in_map_iff. exists (k, v). auto.
  - intros attrs H k v Hin.
    destruct (Plugin_init_loop_ok _ _ H) as (_ & H2 & H3).
    assert (In k (map fst kwargs)) as Hk by (apply in_map_iff; exists (k, v); auto).
    destruct (H3 _ Hk) as (a & b & -> & Ha).
    split; [|eauto].
    destruct (attr_get (String a (String b EmptyString)) attrs) eqn:E; auto.
    exfalso.
    assert (attr_get (String a (String b EmptyString)) attrs <> None) as Hn
      by (rewrite E; discriminate).
    destruct (H2 _ Hn) as [Hs|Hs]; simpl in Hs; congruence.
Qed.

(** Witness for C10: [Plugin(name=1)] raises, and [Plugin(ab=1)] sets [a]
    to ["b"]. *)
Lemma Plugin_init_unpacks_keys_witness :
  Plugin_init [("name", 1)] = Raise ValueError
  /\ Plugin_init [("ab", 1)] = Ok [("a", "b")]
  /\ attr_get "ab" [("a", "b")] = None.
Proof.
  split; [|split; [reflexivity|]].
  - apply (proj1 (Plugin_init_unpacks_keys [("name", 1)])).
    exists "name", 1. simpl. split; [auto | lia].
  - apply (proj2 (Plugin_init_unpacks_keys [("ab", 1)]) [("a", "b")] eq_refl "ab" 1).
    simpl. auto.
Defined.

(** ** Endpoints of the edges of a constructed graph *)

Section GraphFacts.

Variable Node : Type.
Context {node_ops : PyNode Node}.
Variable Val : Type.

Lemma index_init_keys (ns : list Node) :
  map fst (index_init Val ns) = ns.
Proof.
  unfold index_init. rewrite map_map. simpl. apply map_id.
Qed.

Lemma index_add_keys (node : Node) (v : Vertex Node Val) (d d' : Index Node Val) :
  index_add node v d = Ok d' ->
  map fst d' = map fst d /\ In node (map fst d).
Proof.
  revert d'. induction d as [|[k s] d IH]; intros d'; simpl; [discriminate|].
  destruct (node_eqb k node) eqn:E.
  - intros H. injection H as <-. apply node_eqb_spec in E. simpl. auto.
  - destruct (index_add node v d) as [d''|e]; simpl; [|discriminate].
    intros H. injection H as <-. destruct (IH d'' eq_refl) as [Hk Hin].
    simpl. split; [now f_equal | auto].
Qed.

Lemma build_index_keys (vs : list (Vertex Node Val)) (c f c' f' : Index Node Val) :
  build_index vs c f = Ok (c', f') ->
  map fst c' = map fst c /\ map fst f' = map fst f
  /\ forall v, In v vs -> In (from_node v) (map fst f) /\ In (to_node v) (map fst c).
Proof.
  revert c f. induction vs as [|v vs IH]; intros c f; simpl.
  - intros H. injection H as <- <-. repeat split; auto; contradiction.
  - destruct (index_add (to_node v) v c) as [c1|e] eqn:Hc; simpl; [|discriminate].
    destruct (index_add (from_node v) v f) as [f1|e] eqn:Hf; simpl; [|discriminate].
    intros H. apply IH in H. destruct H as (Hc' & Hf' & Hall).
    apply index_add_keys in Hc. apply index_add_keys in Hf.
    destruct Hc as [Hc1 Hc2], Hf as [Hf1 Hf2].
    repeat split; try congruence.
    + destruct H as [<-|H]; auto. apply Hall in H. rewrite <- Hf1. tauto.
    + destruct H as [<-|H]; auto. apply Hall in H. rewrite <- Hc1. tauto.
Qed.

(** When [is_acyclic] returns (it raises [KeyError] otherwise), both ends of
    every vertex are in [self.nodes]. *)
Lemma is_acyclic_sets_endpoints (ns : list Node) (vs : list (Vertex Node Val)) (b : bool) :
  is_acyclic_sets ns vs = Ok b ->
  forall v, In v vs -> In (from_node v) ns /\ In (to_node v) ns.
Proof.
  unfold is_acyclic_sets.
  destruct (build_index vs (index_init Val ns) (index_init Val ns)) as [[c f]|e] eqn:Hb;
    simpl; [|discriminate].
  intros _ v Hin. apply build_index_keys in Hb.
  destruct Hb as (_ & _ & Hall). apply Hall in Hin.
  now rewrite !index_init_keys in Hin.
Qed.

Lemma DependencyGraph_init_acyclic (depth : nat) (seeds : list Node)
  (ps : list (Plugin Node Val)) (g : DependencyGraph Node Val) :
  DependencyGraph_init depth seeds ps = Ok g -> is_acyclic g = Ok true.
Proof.
  unfold DependencyGraph_init.
  destruct (generate_vertices ps depth (nset_of_list seeds)) as [[ns generated]|e];
    simpl; [|discriminate].
  destruct (is_acyclic _) as [[|]|e] eqn:Ha; simpl; try discriminate.
  intros H. injection H as <-. exact Ha.
Qed.

(** The run in insertion order is one of the runs of the constructor. *)
Lemma discovered_discovers (depth : nat) (seeds : list Node)
  (ps : list (Plugin Node Val)) (ns : list Node) (vs : list (Vertex Node Val)) :
  discovered depth seeds ps = Ok (ns, vs) -> discovers depth seeds ps ns vs.
Proof.
  unfold discovered, generate_vertices. intros H.
  destruct (generate_loop ps depth (rev (nset_of_list seeds)) (nset_of_list seeds))
    as [[ns' generated]|e] eqn:Hg; [|discriminate].
  cbn [bind] in H. injection H as <- <-.
  exists (rev (nset_of_list seeds)), generated.
  split; [apply Permutation_rev|]. split; [exact Hg | reflexivity].
Qed.

Lemma DependencyGraph_init_constructs (depth : nat) (seeds : list Node)
  (ps : list (Plugin Node Val)) (g : DependencyGraph Node Val) :
  DependencyGraph_init depth seeds ps = Ok g -> constructs depth seeds ps g.
Proof.
  intros H. pose proof (DependencyGraph_init_acyclic _ _ _ H) as Ha.
  unfold DependencyGraph_init, generate_vertices in H.
  destruct (generate_loop ps depth (rev (nset_of_list seeds)) (nset_of_list seeds))
    as [[ns generated]|e] eqn:Hg; [|discriminate].
  cbn [bind] in H. destruct (is_acyclic _) as [[|]|e]; try discriminate.
  cbn [bind] in H. injection H as <-.
  split; [reflexivity|]. split.
  - exists (rev (nset_of_list seeds)), generated.
    split; [apply Permutation_rev|]. split; [exact Hg | reflexivity].
  - exists ns, (vset_of_list generated).
    split; [apply Permutation_refl|]. split; [apply Permutation_refl | exact Ha].
Qed.

Lemma constructed_endpoints (depth : nat) (seeds : list Node)
  (ps : list (Plugin Node Val)) (g : DependencyGraph Node Val) :
  constructs depth seeds ps g ->
  forall v, In v (vertices g) ->
    In (from_node v) (nodes g) /\ In (to_node v) (nodes g).
Proof.
  intros (_ & _ & ns & vs & Hn & Hv & Ha) v Hin.
  destruct (is_acyclic_sets_endpoints _ _ Ha v (Permutation_in _ Hv Hin)) as [Hf Ht].
  split; apply (Permutation_in _ (Permutation_sym Hn)); assumption.
Qed.

(** C5: in a graph that [DependencyGraph] has constructed, whatever the
    order in which the sets were iterated, both ends of every edge are
    members of the node set. *)
Theorem endpoints_in_nodes (depth : nat) (seeds : list Node)
  (ps : list (Plugin Node Val)) (g : DependencyGraph Node Val) :
  constructs depth seeds ps g ->
  forall v, In v (vertices g) ->
    In (from_node v) (nodes g) /\ In (to_node v) (nodes g).
Proof. exact (@constructed_endpoints depth seeds ps g). Qed.

(** ** Queries on unknown nodes and on leaves *)

Lemma dependencies_in_no_edge (vs : list (Vertex Node Val)) (d : nat)
  (node : Node) (follow : bool) :
  (forall v, In v vs -> from_node v <> node) ->
  dependencies_in vs (S d) node follow = Ok [].
Proof.
  intros H. simpl.
  replace (filter (fun v => node_eqb (from_node v) node) vs) with (@nil (Vertex Node Val)).
  - reflexivity.
  - symmetry. induction vs as [|v vs IH]; simpl; auto.
    destruct (node_eqb (from_node v) node) eqn:E.
    + apply node_eqb_spec in E. exfalso. apply (H v); simpl; auto.
    + apply IH. intros w Hw. apply H. simpl. auto.
Qed.

(** C7: for a node that the graph does not know, and for a node without
    outgoing edge, the direct ([follow = false]) and the transitive
    ([follow = true]) query yield nothing and do not raise: on any set of
    edges whose ends are in the node set, iterated in any order, and so on
    every graph that [DependencyGraph] has constructed, in whatever order
    its sets were and are iterated. *)
Theorem dependencies_of_unknown_or_leaf (d : nat) (node : Node) (follow : bool) :
  (forall (ns : list Node) (vs : list (Vertex Node Val)),
      (forall v, In v vs -> In (from_node v) ns /\ In (to_node v) ns) ->
      (~ In node ns \/ forall v, In v vs -> from_node v <> node) ->
      dependencies_in vs (S d) node follow = Ok [])
  /\ (forall (depth : nat) (seeds : list Node) (ps : list (Plugin Node Val))
             (g : DependencyGraph Node Val) (vs : list (Vertex Node Val)),
        constructs depth seeds ps g ->
        Permutation (vertices g) vs ->
        (~ In node (nodes g) \/ forall v, In v (vertices g) -> from_node v <> node) ->
        dependencies_in vs (S d) node follow = Ok []).
Proof.
  assert (Hany : forall (ns : list Node) (vs : list (Vertex Node Val)),
             (forall v, In v vs -> In (from_node v) ns /\ In (to_node v) ns) ->
             (~ In node ns \/ forall v, In v vs -> from_node v <> node) ->
             dependencies_in vs (S d) node follow = Ok []).
  { intros ns vs Hends Hnode. apply dependencies_in_no_edge.
    destruct Hnode as [Hunknown|Hleaf]; auto.
    intros v Hv Heq. apply Hunknown. rewrite <- Heq. now apply Hends. }
  split; [exact Hany|].
  intros depth seeds ps g vs Hg Hvs Hnode. apply (Hany (nodes g)).
  - intros v Hv. apply (constructed_endpoints Hg).
    exact (Permutation_in _ (Permutation_sym Hvs) Hv).
  - destruct Hnode as [Hunknown|Hleaf]; [now left|right].
    intros v Hv. apply Hleaf. exact (Permutation_in _ (Permutation_sym Hvs) Hv).
Qed.

End GraphFacts.

(** ** The indexes of [is_acyclic] *)

Lemma Permutation_filter {A : Type} (f : A -> bool) (l l' : list A) :
  Permutation l l' -> Permutation (filter f l) (filter f l').
Proof.
  induction 1 as [|x l l' _ IH|x y l|l l' l'' _ IH1 _ IH2]; simpl.
  - constructor.
  - destruct (f x); auto.
  - destruct (f x), (f y); auto using perm_swap.
  - now transitivity (filter f l').
Qed.

Section IndexFacts.

Variable Node : Type.
Context {node_ops : PyNode Node}.
Variable Val : Type.

Lemma index_get_init (n : Node) (ns : list Node) :
  In n ns -> index_get n (index_init Val ns) = Ok [].
Proof.
  induction ns as [|k ns IH]; simpl; [contradiction|].
  intros [->|H].
  - now rewrite node_eqb_refl.
  - destruct (node_eqb k n); auto.
Qed.

Lemma index_add_ok (n : Node) (v : Vertex Node Val) (d : Index Node Val) :
  In n (map fst d) -> exists d', index_add n v d = Ok d'.
Proof.
  induction d as [|[k s] d IH]; simpl; [contradiction|].
  intros H. destruct (node_eqb k n) eqn:E; eauto.
  destruct H as [->|H].
  - now rewrite node_eqb_refl in E.
  - destruct (IH H) as [d' ->]. simpl. eauto.
Qed.

(** Reading an index after [d[m].add(v)]. *)
Lemma index_add_get (n m : Node) (v : Vertex Node Val) (d d' : Index Node Val) :
  index_add m v d = Ok d' ->
  index_get n d' =
  if node_eqb m n then s <- index_get n d ;; Ok (vset_add v s) else index_get n d.
Proof.
  revert d'. induction d as [|[k s] d IH]; intros d'; simpl; [discriminate|].
  destruct (node_eqb k m) eqn:Ekm.
  - intros H. injection H as <-. apply node_eqb_spec in Ekm. subst k. simpl.
    destruct (node_eqb m n); reflexivity.
  - destruct (index_add m v d) as [d''|e]; simpl; [|discriminate].
    intros H. injection H as <-. simpl.
    destruct (node_eqb k n) eqn:Ekn.
    + apply node_eqb_spec in Ekn. subst k.
      assert (node_eqb m n = false) as ->; [|reflexivity].
      apply node_eqb_neq. intros ->. now rewrite node_eqb_refl in Ekm.
    + now apply IH.
Qed.

(** Reading the two indexes that the first loop of [is_acyclic] builds. *)
Lemma build_index_get (vs : list (Vertex Node Val)) (c f c' f' : Index Node Val) :
  build_index vs c f = Ok (c', f') ->
  forall n,
    index_get n c' =
      (s <- index_get n c ;;
       Ok (fold_left (fun s v => vset_add v s)
                     (filter (fun v => node_eqb (to_node v) n) vs) s))
    /\ index_get n f' =
      (s <- index_get n f ;;
       Ok (fold_left (fun s v => vset_add v s)
                     (filter (fun v => node_eqb (from_node v) n) vs) s)).
Proof.
  revert c f. induction vs as [|v vs IH]; intros c f; simpl.
  - intros H. injection H as <- <-. intros n.
    split; [destruct (index_get n c)|destruct (index_get n f)]; reflexivity.
  - destruct (index_add (to_node v) v c) as [c1|e] eqn:Hc; simpl; [|discriminate].
    destruct (index_add (from_node v) v f) as [f1|e] eqn:Hf; simpl; [|discriminate].
    intros H n. destruct (IH _ _ H n) as [IHc IHf].
    rewrite IHc, IHf, (@index_add_get n _ _ _ _ Hc), (@index_add_get n _ _ _ _ Hf).
    split.
    + destruct (node_eqb (to_node v) n); [|reflexivity].
      destruct (index_get n c); reflexivity.
    + destruct (node_eqb (from_node v) n); [|reflexivity].
      destruct (index_get n f); reflexivity.
Qed.

Lemma build_index_ok (vs : list (Vertex Node Val)) (c f : Index Node Val) :
  (forall v, In v vs -> In (to_node v) (map fst c) /\ In (from_node v) (map fst f)) ->
  exists c' f', build_index vs c f = Ok (c', f').
Proof.
  revert c f. induction vs as [|v vs IH]; intros c f H; simpl; [eauto|].
  destruct (H v (or_introl eq_refl)) as [Hc Hf].
  destruct (@index_add_ok _ v _ Hc) as [c1 Hc1], (@index_add_ok _ v _ Hf) as [f1 Hf1].
  rewrite Hc1, Hf1. simpl. apply IH. intros w Hw.
  apply index_add_keys in Hc1. apply index_add_keys in Hf1.
  destruct Hc1 as [-> _], Hf1 as [-> _]. apply H. simpl. auto.
Qed.

(** The stack before the [while] loop: the nodes without incoming edge, the
    last one of [self.nodes] on top. *)
Lemma ready_nodes_filter (c : Index Node Val) (incoming : Node -> list (Vertex Node Val))
  (ns stack : list Node) :
  (forall n, In n ns -> index_get n c = Ok (incoming n)) ->
  ready_nodes c ns stack =
  Ok (rev (filter (fun n => (List.length (incoming n) =? 0)%nat) ns) ++ stack).
Proof.
  revert stack. induction ns as [|n ns IH]; intros stack H; simpl; [reflexivity|].
  rewrite (H n) by (simpl; auto). simpl.
  rewrite IH by (intros k Hk; apply H; simpl; auto).
  destruct (List.length (incoming n) =? 0)%nat; simpl; [|reflexivity].
  now rewrite <- app_assoc.
Qed.

End IndexFacts.

(** ** Termination of [is_acyclic] *)

Section Termination.

Variable Node : Type.
Context {node_ops : PyNode Node}.
Variable Val : Type.

Lemma vset_mem_add (w e : Vertex Node Val) (s : list (Vertex Node Val)) :
  vset_mem w (vset_add e s) = vset_mem w s || Vertex_eq w e.
Proof.
  unfold vset_add. destruct (vset_mem e s) eqn:E.
  - destruct (Vertex_eq w e) eqn:Ew; [|now rewrite orb_false_r].
    now rewrite (@vset_mem_eq _ _ _ w e s Ew), E.
  - rewrite vset_mem_app. simpl. now rewrite orb_false_r.
Qed.

Lemma vset_mem_exists (e : Vertex Node Val) (s : list (Vertex Node Val)) :
  vset_mem e s = true <-> exists w, In w s /\ Vertex_eq e w = true.
Proof. unfold vset_mem. apply existsb_exists. Qed.

Lemma vset_distinct_add (e : Vertex Node Val) (s : list (Vertex Node Val)) :
  vset_distinct s = true -> vset_distinct (vset_add e s) = true.
Proof.
  unfold vset_add. destruct (vset_mem e s) eqn:E; auto.
  induction s as [|w s IH]; simpl; auto.
  rewrite !andb_true_iff, !negb_true_iff. intros [Hw Hs].
  simpl in E. apply orb_false_iff in E. destruct E as [Eew Ees].
  split; [|auto].
  rewrite vset_mem_app, Hw. simpl. now rewrite orb_false_r, Vertex_eq_sym.
Qed.

Lemma vset_distinct_filter (f : Vertex Node Val -> bool) (s : list (Vertex Node Val)) :
  vset_distinct s = true -> vset_distinct (filter f s) = true.
Proof.
  induction s as [|w s IH]; simpl; auto.
  rewrite andb_true_iff, negb_true_iff. intros [Hw Hs].
  destruct (f w); simpl; auto.
  rewrite IH by exact Hs. rewrite andb_true_r, negb_true_iff.
  destruct (vset_mem w (filter f s)) eqn:E; auto.
  apply vset_mem_exists in E. destruct E as (x & Hx & Hwx).
  apply filter_In in Hx.
  assert (vset_mem w s = true) as Hmem
    by (apply vset_mem_exists; exists x; tauto).
  congruence.
Qed.

(** What [set.add] builds from a part of [self.vertices] is a set of
    vertices of [self.vertices]. *)
Lemma vset_fold_add (l acc : list (Vertex Node Val)) :
  vset_distinct acc = true ->
  let s := fold_left (fun s v => vset_add v s) l acc in
  vset_distinct s = true /\ forall e, In e s -> In e acc \/ In e l.
Proof.
  revert acc. induction l as [|v l IH]; intros acc Hacc; simpl; auto.
  destruct (IH (vset_add v acc) (@vset_distinct_add v acc Hacc)) as [Hd Hin].
  split; auto. intros e He. destruct (Hin e He) as [H|H]; auto.
  unfold vset_add in H. destruct (vset_mem v acc); auto.
  apply in_app_or in H. simpl in H. intuition.
Qed.

Lemma index_get_raise (n : Node) (d : Index Node Val) (e : PyError) :
  index_get n d = Raise e -> e = KeyError.
Proof.
  induction d as [|[k s] d IH]; simpl.
  - congruence.
  - destruct (node_eqb k n); [discriminate | exact IH].
Qed.

Lemma index_get_init_ok (n : Node) (ns : list Node) (s : list (Vertex Node Val)) :
  index_get n (index_init Val ns) = Ok s -> s = [].
Proof.
  induction ns as [|k ns IH]; simpl; [discriminate|].
  destruct (node_eqb k n); [congruence | exact IH].
Qed.

Lemma filter_length_lt {A : Type} (f g : A -> bool) (l : list A) (w : A) :
  (forall x, g x = true -> f x = true) ->
  In w l -> f w = true -> g w = false ->
  List.length (filter g l) < List.length (filter f l).
Proof.
  intros Hgf.
  assert (forall l', List.length (filter g l') <= List.length (filter f l')) as Hle.
  { induction l' as [|x l' IH]; simpl; auto.
    destruct (g x) eqn:Eg.
    - rewrite (Hgf x Eg). simpl. lia.
    - destruct (f x); simpl; lia. }
  induction l as [|x l IH]; simpl; [contradiction|].
  intros [->|Hin] Hf Hg.
  - rewrite Hf, Hg. simpl. specialize (Hle l). lia.
  - specialize (IH Hin Hf Hg). destruct (g x) eqn:Eg.
    + rewrite (Hgf x Eg). simpl. lia.
    + destruct (f x); simpl; lia.
Qed.

(** Deleting a vertex that was not deleted leaves fewer of them. *)
Lemma undeleted_add (vs deleted : list (Vertex Node Val)) (e : Vertex Node Val) :
  vset_mem e deleted = false ->
  (exists w, In w vs /\ Vertex_eq e w = true) ->
  List.length (vset_diff vs (vset_add e deleted)) < List.length (vset_diff vs deleted).
Proof.
  intros He (w & Hw & Hew). unfold vset_diff.
  apply (@filter_length_lt _ _ _ vs w); auto.
  - intros x. rewrite vset_mem_add, !negb_true_iff, orb_false_iff. tauto.
  - apply negb_true_iff. rewrite <- He. symmetry. exact (@vset_mem_eq _ _ _ e w deleted Hew).
  - apply negb_false_iff. rewrite vset_mem_add, Vertex_eq_sym, Hew.
    apply orb_true_r.
Qed.

(** The body of the [while] loop pushes at most one node for each vertex it
    deletes, and raises nothing but [KeyError]. *)
Lemma delete_connected_measure (vs : list (Vertex Node Val)) (c : Index Node Val)
  (node : Node) :
  forall connected stack deleted,
    vset_distinct connected = true ->
    (forall e, In e connected ->
       vset_mem e deleted = false /\ exists w, In w vs /\ Vertex_eq e w = true) ->
    match delete_connected c node connected stack deleted with
    | Ok (stack', deleted') =>
        List.length stack' + List.length (vset_diff vs deleted')
        <= List.length stack + List.length (vset_diff vs deleted)
    | Raise e => e = KeyError
    end.
Proof.
  induction connected as [|v connected IH]; intros stack deleted Hd Hc; simpl; auto.
  destruct (index_get node c) as [incoming|e] eqn:Hi; simpl;
    [|exact (@index_get_raise node c e Hi)].
  simpl in Hd. apply andb_true_iff in Hd. destruct Hd as [Hv Hd].
  apply negb_true_iff in Hv.
  destruct (Hc v (or_introl eq_refl)) as [Hvd Hvs].
  pose proof (@undeleted_add vs deleted v Hvd Hvs) as Hlt.
  match goal with
  | |- match delete_connected _ _ _ ?st ?del with _ => _ end =>
      specialize (IH st del Hd)
  end.
  match type of IH with
  | ?P -> _ => assert P as Hc'
  end.
  { intros e He. destruct (Hc e (or_intror He)) as [Hed Hes]. split; auto.
    rewrite vset_mem_add, Hed. simpl.
    destruct (Vertex_eq e v) eqn:Eev; auto.
    assert (vset_mem v connected = true) as Hmem
      by (apply vset_mem_exists; exists e; split; auto;
          now rewrite Vertex_eq_sym).
    congruence. }
  specialize (IH Hc').
  destruct (delete_connected _ _ _ _ _) as [[stack' deleted']|e]; auto.
  destruct (vset_diff incoming (vset_add v deleted)); simpl in IH; lia.
Qed.

Lemma ready_nodes_length (c : Index Node Val) (ns stack stack' : list Node) :
  ready_nodes c ns stack = Ok stack' ->
  List.length stack' <= List.length ns + List.length stack.
Proof.
  revert stack. induction ns as [|n ns IH]; intros stack; simpl.
  - intros H. injection H as <-. lia.
  - destruct (index_get n c) as [incoming|e]; simpl; [|discriminate].
    intros H. apply IH in H.
    destruct (List.length incoming =? 0)%nat; simpl in H; lia.
Qed.

Lemma ready_nodes_raise (c : Index Node Val) (ns stack : list Node) (e : PyError) :
  ready_nodes c ns stack = Raise e -> e = KeyError.
Proof.
  revert stack. induction ns as [|n ns IH]; intros stack; simpl; [discriminate|].
  destruct (index_get n c) as [incoming|e'] eqn:Hi; simpl.
  - apply IH.
  - intros H. injection H as <-. exact (@index_get_raise n c e' Hi).
Qed.

Lemma build_index_raise (vs : list (Vertex Node Val)) (c f : Index Node Val)
  (e : PyError) :
  build_index vs c f = Raise e -> e = KeyError.
Proof.
  revert c f. induction vs as [|v vs IH]; intros c f; simpl; [discriminate|].
  destruct (index_add (to_node v) v c) as [c1|e1] eqn:Hc; simpl.
  - destruct (index_add (from_node v) v f) as [f1|e2] eqn:Hf; simpl.
    + apply IH.
    + intros H. injection H as <-. clear - Hf.
      revert Hf. generalize (from_node v). intros n.
      revert e2. induction f as [|[k s] d IHd]; simpl; intros e2; [congruence|].
      destruct (node_eqb k n); [discriminate|].
      destruct (index_add n v d) as [d'|e'] eqn:Hd; simpl; [discriminate|].
      intros H. injection H as <-. now apply IHd.
  - intros H. injection H as <-. clear - Hc.
    revert Hc. generalize (to_node v). intros n.
    revert e1. induction c as [|[k s] d IHd]; simpl; intros e1; [congruence|].
    destruct (node_eqb k n); [discriminate|].
    destruct (index_add n v d) as [d'|e'] eqn:Hd; simpl; [discriminate|].
    intros H. injection H as <-. now apply IHd.
Qed.

(** The [while] loop ends within [fuel] iterations when [fuel] covers the
    stack and the vertices that are not deleted yet. *)
Lemma eliminate_terminates (vs : list (Vertex Node Val)) (c f : Index Node Val) :
  (forall n s, index_get n f = Ok s ->
     vset_distinct s = true /\ forall e, In e s -> In e vs) ->
  forall fuel stack deleted,
    List.length stack + List.length (vset_diff vs deleted) <= fuel ->
    match eliminate fuel c f stack deleted with
    | Ok _ => True
    | Raise e => e = KeyError
    end.
Proof.
  intros Hf. induction fuel as [|fuel IH]; intros stack deleted Hfuel;
    destruct stack as [|node stack]; simpl; auto; simpl in Hfuel; try lia.
  destruct (index_get node f) as [outgoing|e] eqn:Ho; simpl;
    [|exact (@index_get_raise node f e Ho)].
  destruct (Hf node outgoing Ho) as [Hd Hin].
  pose proof (@delete_connected_measure vs c node (vset_diff outgoing deleted)
                stack deleted) as Hm.
  destruct (delete_connected _ _ _ _ _) as [[stack' deleted']|e]; simpl.
  - apply IH.
    assert (List.length stack' + List.length (vset_diff vs deleted')
            <= List.length stack + List.length (vset_diff vs deleted)); [|lia].
    apply Hm.
    + now apply vset_distinct_filter.
    + intros e He. apply filter_In in He. destruct He as [He Hmem].
      apply negb_true_iff in Hmem. split; auto.
      exists e. split; [auto | apply Vertex_eq_refl].
  - apply Hm.
    + now apply vset_distinct_filter.
    + intros e' He. apply filter_In in He. destruct He as [He Hmem].
      apply negb_true_iff in Hmem. split; auto.
      exists e'. split; [auto | apply Vertex_eq_refl].
Qed.

(** [is_acyclic] returns, or raises [KeyError] (when a vertex has an end
    outside [self.nodes]): the bound on the iterations of its loop is never
    reached. *)
Lemma is_acyclic_terminates (ns : list Node) (vs : list (Vertex Node Val)) :
  (exists b, is_acyclic_sets ns vs = Ok b)
  \/ is_acyclic_sets ns vs = Raise KeyError.
Proof.
  unfold is_acyclic_sets.
  destruct (build_index vs (index_init Val ns) (index_init Val ns))
    as [[c f]|e] eqn:Hb; simpl;
    [|right; f_equal; exact (@build_index_raise vs _ _ e Hb)].
  destruct (ready_nodes c ns []) as [stack|e] eqn:Hr; simpl;
    [|right; f_equal; exact (@ready_nodes_raise c ns [] e Hr)].
  apply ready_nodes_length in Hr. simpl in Hr.
  pose proof (@eliminate_terminates vs c f) as He.
  match type of He with
  | ?P -> _ => assert P as Hidx
  end.
  { intros n s Hs. destruct (@build_index_get _ _ _ _ _ _ _ _ Hb n) as [_ Hget].
    rewrite Hs in Hget.
    destruct (index_get n (index_init Val ns)) as [s0|e] eqn:H0;
      simpl in Hget; [|discriminate].
    apply index_get_init_ok in H0. subst s0. injection Hget as ->.
    destruct (@vset_fold_add
                (filter (fun v => node_eqb (from_node v) n) vs) [] eq_refl)
      as [Hd Hin].
    split; [exact Hd|]. intros e He'. destruct (Hin e He') as [[]|H].
    now apply filter_In in H. }
  specialize (He Hidx (List.length ns + List.length vs) stack []).
  match type of He with
  | ?P -> _ => assert P as Hfuel
  end.
  { unfold vset_diff.
    pose proof (filter_length_le
                  (fun v : Vertex Node Val => negb (vset_mem v [])) vs).
    lia. }
  specialize (He Hfuel).
  destruct (eliminate _ _ _ _ _) as [deleted|e]; simpl.
  - left. eauto.
  - right. now subst.
Qed.

End Termination.

(** ** Iteration orders *)

Lemma insert_all_complete {A : Type} (x : A) (l1 l2 : list A) :
  In (l1 ++ x :: l2) (insert_all x (l1 ++ l2)).
Proof.
  induction l1 as [|y l1 IH]; simpl.
  - destruct l2; simpl; auto.
  - right. apply in_map. exact IH.
Qed.

Lemma perms_complete {A : Type} (l l' : list A) :
  Permutation l l' -> In l' (perms l).
Proof.
  revert l'. induction l as [|a l IH]; intros l' H.
  - apply Permutation_nil in H. subst. simpl. auto.
  - destruct (Permutation_vs_cons_inv (Permutation_sym H)) as (l1 & l2 & ->).
    apply Permutation_cons_app_inv in H.
    simpl. apply in_flat_map. exists (l1 ++ l2). split.
    + now apply IH.
    + apply insert_all_complete.
Qed.

Section CheckFacts.

Variable Node : Type.
Context {node_ops : PyNode Node}.
Variable Val : Type.

Lemma nset_mem_In (n : Node) (s : list Node) : nset_mem n s = true <-> In n s.
Proof.
  unfold nset_mem. rewrite existsb_exists. split.
  - intros (m & Hin & Heq). apply node_eqb_spec in Heq. now subst.
  - intros H. exists n. split; auto. apply node_eqb_refl.
Qed.

Lemma same_elementsb_sound (l1 l2 : list Node) :
  same_elementsb l1 l2 = true -> same_elements l1 l2.
Proof.
  unfold same_elementsb, same_elements. rewrite andb_true_iff, !forallb_forall.
  intros [H1 H2] x. split; intros H.
  - apply nset_mem_In. auto.
  - apply nset_mem_In. auto.
Qed.

Lemma yieldsb_sound (r : Result (list Node)) (expected : list Node) :
  yieldsb r expected = true -> yields r expected.
Proof.
  destruct r as [out|e]; simpl; [|discriminate].
  intros H. exists out. split; auto. now apply same_elementsb_sound.
Qed.

Lemma verdictb_sound (r : Result bool) (expected : bool) :
  verdictb r expected = true -> r = Ok expected.
Proof.
  destruct r as [b|e]; simpl; [|discriminate].
  intros H. apply Bool.eqb_prop in H. now subst.
Qed.

Lemma for_all_orders_sound (check : list Node -> list (Vertex Node Val) -> bool)
  (ns : list Node) (vs : list (Vertex Node Val)) :
  for_all_orders check ns vs = true ->
  forall ns' vs', Permutation ns ns' -> Permutation vs vs' -> check ns' vs' = true.
Proof.
  unfold for_all_orders. rewrite forallb_forall. intros H ns' vs' Hn Hv.
  apply perms_complete in Hn. apply perms_complete in Hv.
  specialize (H _ Hn). rewrite forallb_forall in H. auto.
Qed.

(** A graph whose edges all go up along a rank has no cycle. *)
Lemma ranked_acyclic (rank : Node -> nat) (vs : list (Vertex Node Val)) :
  (forall v, In v vs -> rank (from_node v) < rank (to_node v)) ->
  acyclic vs.
Proof.
  intros Hrank.
  assert (forall a b, path vs a b -> rank a < rank b) as Hpath.
  { intros a b Hp. induction Hp as [v Hv|v n Hv _ IH].
    - auto.
    - specialize (Hrank _ Hv). lia. }
  intros n Hn. apply Hpath in Hn. lia.
Qed.

End CheckFacts.

(** ** The graph of [test_single_node] *)

Ltac perm_solve :=
  apply NoDup_Permutation;
  [ repeat constructor; simpl; intuition congruence
  | repeat constructor; simpl; intuition congruence
  | intros ?; simpl; intuition congruence ].

(** C2: from the seed [A] and the table [A -> (B, C, D)], [B -> (C, D)],
    [D -> (E)], construction succeeds with the five nodes [A .. E] and the
    six edges of the table; in whatever order the edge set is iterated, the
    transitive query yields the nodes [B, C, D, E] for [A], [E] for [D] and
    nothing for [C]. *)
Theorem single_node_graph :
  exists g,
    DependencyGraph_init recursion_limit ["A"] (static_plugins single_node_deps) = Ok g
    /\ Permutation (nodes g) ["A"; "B"; "C"; "D"; "E"]
    /\ List.length (nodes g) = 5
    /\ Permutation (map (@Vertex_key _ _) (vertices g))
         [("static", "A", "B"); ("static", "A", "C"); ("static", "A", "D");
          ("static", "B", "C"); ("static", "B", "D"); ("static", "D", "E")]
    /\ List.length (vertices g) = 6
    /\ forall vs, Permutation (vertices g) vs ->
         yields (dependencies_in vs recursion_limit "A" true) ["B"; "C"; "D"; "E"]
         /\ yields (dependencies_in vs recursion_limit "D" true) ["E"]
         /\ yields (dependencies_in vs recursion_limit "C" true) [].
Proof.
  eexists. split; [vm_compute; reflexivity|]. cbn [nodes vertices].
  split; [perm_solve|]. split; [reflexivity|].
  split; [cbv [map Vertex_key vertex_type from_node to_node]; perm_solve|].
  split; [reflexivity|].
  intros vs Hvs.
  pose (check := fun (_ : list string) (vs : list (Vertex string unit)) =>
          yieldsb (dependencies_in vs recursion_limit "A" true) ["B"; "C"; "D"; "E"]
          && yieldsb (dependencies_in vs recursion_limit "D" true) ["E"]
          && yieldsb (dependencies_in vs recursion_limit "C" true) []).
  assert (check [] vs = true) as H.
  { refine (@for_all_orders_sound _ _ check [] _ _ [] vs (perm_nil _) Hvs).
    vm_compute. reflexivity. }
  unfold check in H. rewrite !andb_true_iff in H. destruct H as [[HA HD] HC].
  repeat split; now apply (yieldsb_sound (node_ops := str_node)).
Qed.

(** Witness for C5, on the graph of [test_single_node]. *)
Lemma endpoints_in_nodes_witness :
  exists g,
    DependencyGraph_init 4 ["A"] (static_plugins single_node_deps) = Ok g
    /\ constructs 4 ["A"] (static_plugins single_node_deps) g
    /\ forall v, In v (vertices g) ->
         In (from_node v) (nodes g) /\ In (to_node v) (nodes g).
Proof.
  eexists. split; [vm_compute; reflexivity|].
  assert (H : constructs 4 ["A"] (static_plugins single_node_deps)
                (mkGraph ["A"; "B"; "C"; "D"; "E"] (static_plugins single_node_deps)
                   [static_edge "B" "C"; static_edge "D" "E"; static_edge "B" "D";
                    static_edge "A" "B"; static_edge "A" "C"; static_edge "A" "D"])).
  { apply DependencyGraph_init_constructs. vm_compute. reflexivity. }
  split; [exact H|].
  exact (@endpoints_in_nodes _ _ _ 4 ["A"] (static_plugins single_node_deps) _ H).
Defined.

(** Witness for C7, on the graph of [test_single_node]: [Z] is unknown and
    [C] has no outgoing edge. *)
Lemma dependencies_of_unknown_or_leaf_witness :
  exists g,
    DependencyGraph_init 4 ["A"] (static_plugins single_node_deps) = Ok g
    /\ (forall vs, Permutation (vertices g) vs ->
          dependencies_in vs 1 "Z" true = Ok []
          /\ dependencies_in vs 1 "C" false = Ok []).
Proof.
  eexists. split; [vm_compute; reflexivity|].
  assert (H : constructs 4 ["A"] (static_plugins single_node_deps)
                (mkGraph ["A"; "B"; "C"; "D"; "E"] (static_plugins single_node_deps)
                   [static_edge "B" "C"; static_edge "D" "E"; static_edge "B" "D";
                    static_edge "A" "B"; static_edge "A" "C"; static_edge "A" "D"])).
  { apply DependencyGraph_init_constructs. vm_compute. reflexivity. }
  intros vs Hvs. split.
  - apply (proj2 (@dependencies_of_unknown_or_leaf string str_node unit 0 "Z" true)
             4 ["A"] (static_plugins single_node_deps) _ vs H Hvs).
    left. cbn [nodes]. simpl. intuition discriminate.
  - apply (proj2 (@dependencies_of_unknown_or_leaf string str_node unit 0 "C" false)
             4 ["A"] (static_plugins single_node_deps) _ vs H Hvs).
    right. cbn [vertices]. intros v Hv. simpl in Hv.
    intuition (subst; discriminate).
Defined.

(** ** The verdicts of [is_acyclic] *)

(** [A -> B], [C -> B], [B -> D], [D -> E] has no cycle, and construction
    raises [CircularDependencyError]: when [B] is popped for the first time
    one of its two incoming edges is still there, so [D] is never pushed and
    [D -> E] is never deleted. *)
Lemma acyclic_graph_rejected (seeds : list string) :
  Permutation ["A"; "C"] seeds ->
  exists ns vs,
    discovered recursion_limit seeds (static_plugins joined_deps) = Ok (ns, vs)
    /\ acyclic vs
    /\ DependencyGraph_init recursion_limit seeds (static_plugins joined_deps)
       = Raise CircularDependencyError
    /\ forall ns' vs', Permutation ns ns' -> Permutation vs vs' ->
         is_acyclic_sets ns' vs' = Ok false.
Proof.
  intros H. apply perms_complete in H. simpl in H.
  pose (rank := fun n : string =>
          if String.eqb n "B" then 1
          else if String.eqb n "D" then 2
          else if String.eqb n "E" then 3 else 0).
  destruct H as [<-|[<-|[]]].
  all: eexists; eexists; split; [vm_compute; reflexivity|].
  all: split;
    [apply (@ranked_acyclic _ _ rank); intros v Hv; simpl in Hv;
     intuition (subst; vm_compute; lia)|].
  all: split; [vm_compute; reflexivity|].
  all: intros ns' vs' Hn Hv; apply verdictb_sound.
  all: refine (@for_all_orders_sound _ _
                 (fun ns vs => verdictb (is_acyclic_sets ns vs) false)
                 _ _ _ ns' vs' Hn Hv).
  all: vm_compute; reflexivity.
Qed.

(** [A -> B], [A -> C], [B -> C], [C -> B] has a cycle, and construction
    succeeds: [A] pushes both [B] and [C], so every edge is deleted.  The
    transitive query on the graph then exhausts the call stack. *)
Lemma cyclic_graph_accepted :
  exists g,
    DependencyGraph_init recursion_limit ["A"] (static_plugins two_cycle_deps) = Ok g
    /\ path (vertices g) "B" "B"
    /\ (forall ns' vs', Permutation (nodes g) ns' -> Permutation (vertices g) vs' ->
          is_acyclic_sets ns' vs' = Ok true)
    /\ dependencies g recursion_limit "A" true = Raise RecursionError.
Proof.
  eexists. split; [vm_compute; reflexivity|]. cbn [nodes vertices]. split.
  - refine (@path_step _ _ _ (static_edge "B" "C") "B" _
              (@path_edge _ _ _ (static_edge "C" "B") _)); simpl; auto 10.
  - split.
    + intros ns' vs' Hn Hv. apply verdictb_sound.
      refine (@for_all_orders_sound _ _
                (fun ns vs => verdictb (is_acyclic_sets ns vs) true)
                _ _ _ ns' vs' Hn Hv).
      vm_compute. reflexivity.
    + vm_compute. reflexivity.
Qed.

(** [A -> B], [B -> B]: a node that depends on itself is accepted too. *)
Lemma self_loop_accepted :
  exists g,
    DependencyGraph_init recursion_limit ["A"] (static_plugins self_loop_deps) = Ok g
    /\ path (vertices g) "B" "B"
    /\ forall ns' vs', Permutation (nodes g) ns' -> Permutation (vertices g) vs' ->
         is_acyclic_sets ns' vs' = Ok true.
Proof.
  eexists. split; [vm_compute; reflexivity|]. cbn [nodes vertices]. split.
  - refine (@path_edge _ _ _ (static_edge "B" "B") _). simpl. auto.
  - intros ns' vs' Hn Hv. apply verdictb_sound.
    refine (@for_all_orders_sound _ _
              (fun ns vs => verdictb (is_acyclic_sets ns vs) true)
              _ _ _ ns' vs' Hn Hv).
    vm_compute. reflexivity.
Qed.

(** C1 does not hold of the code: [is_acyclic] tests the incoming edges of
    the node it has popped, not those of the target of the edge it deletes.
    In every iteration order of the sets, an acyclic graph is rejected and
    two graphs with a cycle are accepted. *)
Theorem is_acyclic_wrong_verdicts :
  (forall seeds, Permutation ["A"; "C"] seeds ->
     exists ns vs,
       discovered recursion_limit seeds (static_plugins joined_deps) = Ok (ns, vs)
       /\ acyclic vs
       /\ DependencyGraph_init recursion_limit seeds (static_plugins joined_deps)
          = Raise CircularDependencyError
       /\ forall ns' vs', Permutation ns ns' -> Permutation vs vs' ->
            is_acyclic_sets ns' vs' = Ok false)
  /\ (exists g,
        DependencyGraph_init recursion_limit ["A"] (static_plugins two_cycle_deps) = Ok g
        /\ ~ acyclic (vertices g)
        /\ forall ns' vs', Permutation (nodes g) ns' -> Permutation (vertices g) vs' ->
             is_acyclic_sets ns' vs' = Ok true)
  /\ (exists g,
        DependencyGraph_init recursion_limit ["A"] (static_plugins self_loop_deps) = Ok g
        /\ ~ acyclic (vertices g)
        /\ forall ns' vs', Permutation (nodes g) ns' -> Permutation (vertices g) vs' ->
             is_acyclic_sets ns' vs' = Ok true).
Proof.
  split; [exact acyclic_graph_rejected|]. split.
  - destruct cyclic_graph_accepted as (g & Hg & Hpath & Horders & _).
    exists g. repeat split; auto. intros Hacyclic. exact (Hacyclic _ Hpath).
  - destruct self_loop_accepted as (g & Hg & Hpath & Horders).
    exists g. repeat split; auto. intros Hacyclic. exact (Hacyclic _ Hpath).
Qed.

(** ** Chains *)

Lemma filter_Permutation_short {A : Type} (f : A -> bool) (l l' : list A) :
  Permutation l l' -> List.length (filter f l) <= 1 -> filter f l' = filter f l.
Proof.
  intros H Hlen. apply (Permutation_filter f) in H.
  destruct (filter f l) as [|x [|y t]].
  - now apply Permutation_nil in H.
  - now apply Permutation_length_1_inv in H.
  - simpl in Hlen. lia.
Qed.

Lemma chain_edges_S (m : nat) : chain_edges (S m) = chain_edge m :: chain_edges m.
Proof.
  unfold chain_edges. now rewrite seq_S, rev_app_distr.
Qed.

Lemma chain_edges_length (m : nat) : List.length (chain_edges m) = m.
Proof.
  unfold chain_edges. now rewrite length_map, length_rev, length_seq.
Qed.

Lemma In_chain_edges (m : nat) (v : Vertex nat unit) :
  In v (chain_edges m) -> exists i, i < m /\ v = chain_edge i.
Proof.
  unfold chain_edges. rewrite in_map_iff. intros (i & <- & Hi).
  apply in_rev, in_seq in Hi. exists i. split; [lia | reflexivity].
Qed.

Lemma chain_edge_eq (i j : nat) :
  Vertex_eq (chain_edge i) (chain_edge j) = Nat.eqb i j.
Proof.
  unfold Vertex_eq. simpl. destruct (Nat.eqb i j); reflexivity.
Qed.

Lemma chain_edges_from (m k : nat) :
  filter (fun v => node_eqb (from_node v) k) (chain_edges m) =
  if k <? m then [chain_edge k] else [].
Proof.
  induction m as [|m IH]; [reflexivity|].
  rewrite chain_edges_S. cbn [filter]. rewrite IH.
  change (node_eqb (from_node (chain_edge m)) k) with (Nat.eqb m k).
  destruct (Nat.eqb_spec m k) as [->|Hne].
  - rewrite Nat.ltb_irrefl.
    now destruct (Nat.ltb_spec k (S k)); [|lia].
  - destruct (Nat.ltb_spec k m), (Nat.ltb_spec k (S m)); auto; lia.
Qed.

Lemma chain_edges_to (m k : nat) :
  filter (fun v => node_eqb (to_node v) k) (chain_edges m) =
  match k with
  | O => []
  | S k' => if k' <? m then [chain_edge k'] else []
  end.
Proof.
  induction m as [|m IH]; [now destruct k|].
  rewrite chain_edges_S. cbn [filter]. rewrite IH.
  change (node_eqb (to_node (chain_edge m)) k) with (Nat.eqb (S m) k).
  destruct k as [|k]; [reflexivity|].
  simpl. destruct (Nat.eqb_spec m k) as [->|Hne].
  - rewrite Nat.ltb_irrefl.
    now destruct (Nat.ltb_spec k (S k)); [|lia].
  - destruct (Nat.ltb_spec k m), (Nat.ltb_spec k (S m)); auto; lia.
Qed.

Lemma vset_mem_rev (v : Vertex nat unit) (s : list (Vertex nat unit)) :
  vset_mem v (rev s) = vset_mem v s.
Proof.
  induction s as [|w s IH]; [reflexivity|].
  simpl rev. rewrite vset_mem_app, IH. simpl.
  now rewrite orb_false_r, orb_comm.
Qed.

Lemma vset_mem_chain (i m : nat) :
  vset_mem (chain_edge i) (chain_edges m) = (i <? m).
Proof.
  induction m as [|m IH]; [reflexivity|].
  rewrite chain_edges_S. simpl. rewrite chain_edge_eq.
  fold (vset_mem (chain_edge i) (chain_edges m)). rewrite IH.
  destruct (Nat.eqb_spec i m), (Nat.ltb_spec i m), (Nat.ltb_spec i (S m));
    auto; lia.
Qed.

(** The set of the generated vertices is the list itself: no two edges of
    the chain are equal. *)
Lemma vset_of_chain (m : nat) : vset_of_list (chain_edges m) = chain_edges m.
Proof.
  unfold vset_of_list.
  enough (forall acc,
             (forall i, i < m -> vset_mem (chain_edge i) acc = false) ->
             fold_left (fun s v => vset_add v s) (chain_edges m) acc
             = acc ++ chain_edges m) as H by (apply (H []); reflexivity).
  induction m as [|m IH]; intros acc Hacc.
  - simpl. now rewrite app_nil_r.
  - rewrite chain_edges_S. simpl. unfold vset_add at 2.
    rewrite Hacc by lia. rewrite IH.
    + now rewrite <- app_assoc.
    + intros i Hi. rewrite vset_mem_app, Hacc by lia. simpl.
      rewrite chain_edge_eq.
      destruct (Nat.eqb_spec i m); [lia | reflexivity].
Qed.

(** The two indexes of [is_acyclic] on a chain, in any iteration order. *)
Lemma chain_indexes (m : nat) (ns : list nat) (vs : list (Vertex nat unit)) :
  Permutation (seq 0 (S m)) ns -> Permutation (chain_edges m) vs ->
  exists c f,
    build_index vs (index_init unit ns) (index_init unit ns) = Ok (c, f)
    /\ forall k, k <= m ->
         index_get k c = Ok (match k with O => [] | S k' => [chain_edge k'] end)
         /\ index_get k f = Ok (if k <? m then [chain_edge k] else []).
Proof.
  intros Hns Hvs.
  destruct (@build_index_ok _ _ _ vs (index_init unit ns) (index_init unit ns))
    as (c & f & Hb).
  { intros v Hv. rewrite index_init_keys.
    apply (Permutation_in _ (Permutation_sym Hvs)), In_chain_edges in Hv.
    destruct Hv as (i & Hi & ->).
    split; apply (Permutation_in _ Hns), in_seq; simpl; lia. }
  exists c, f. split; [exact Hb|]. intros k Hk.
  assert (In k ns) as Hin by (apply (Permutation_in _ Hns), in_seq; lia).
  destruct (build_index_get _ _ _ Hb k) as [Hc Hf].
  rewrite Hc, Hf, (index_get_init unit _ _ Hin). simpl.
  rewrite (filter_Permutation_short _ Hvs), chain_edges_to
    by (rewrite chain_edges_to; destruct k; [|destruct (_ <? _)]; simpl; lia).
  rewrite (filter_Permutation_short _ Hvs), chain_edges_from
    by (rewrite chain_edges_from; destruct (_ <? _); simpl; lia).
  split.
  - destruct k as [|k]; [reflexivity|].
    now destruct (Nat.ltb_spec k m); [|lia].
  - now destruct (k <? m).
Qed.

(** Only the head of the chain is ready when the [while] loop starts. *)
Lemma chain_ready (m : nat) (ns : list nat) (c : Index nat unit) :
  Permutation (seq 0 (S m)) ns ->
  (forall k, k <= m ->
     index_get k c = Ok (match k with O => [] | S k' => [chain_edge k'] end)) ->
  ready_nodes c ns [] = Ok [0].
Proof.
  intros Hns Hc.
  rewrite (@ready_nodes_filter _ _ _ c
             (fun k => match k with O => [] | S k' => [chain_edge k'] end)).
  - assert (filter (fun n => List.length
                       match n with O => [] | S k' => [chain_edge k'] end =? 0)
                   (seq 0 (S m)) = [0]) as Hseq.
    { assert (forall len a,
                 filter (fun n => List.length
                           match n with O => [] | S k' => [chain_edge k'] end =? 0)
                        (seq (S a) len) = []) as Hpos
        by (induction len as [|len IH]; intros a; simpl; auto).
      cbn [seq filter]. simpl List.length. simpl Nat.eqb. now rewrite Hpos. }
    rewrite (filter_Permutation_short _ Hns), Hseq by (rewrite Hseq; simpl; lia).
    reflexivity.
  - intros n Hn. apply Hc.
    apply (Permutation_in _ (Permutation_sym Hns)), in_seq in Hn. lia.
Qed.

(** The [while] loop on a chain: node [i] is on the stack when the edges
    below it are deleted, and pushes [i + 1]. *)
Lemma chain_eliminate (m : nat) (c f : Index nat unit) :
  (forall k, k <= m ->
     index_get k c = Ok (match k with O => [] | S k' => [chain_edge k'] end)
     /\ index_get k f = Ok (if k <? m then [chain_edge k] else [])) ->
  forall j i fuel,
    i + j = m -> j < fuel ->
    eliminate fuel c f [i] (rev (chain_edges i)) = Ok (rev (chain_edges m)).
Proof.
  intros Hidx. induction j as [|j IH]; intros i fuel Hij Hfuel;
    (destruct fuel as [|fuel]; [lia|]); simpl;
    destruct (Hidx i ltac:(lia)) as [Hc Hf]; rewrite Hf.
  - assert (i = m) as -> by lia. rewrite Nat.ltb_irrefl. simpl.
    now destruct fuel.
  - destruct (Nat.ltb_spec i m); [|lia]. cbn [bind vset_diff filter].
    rewrite vset_mem_rev, vset_mem_chain, Nat.ltb_irrefl.
    cbn [negb delete_connected]. rewrite Hc. cbn [bind].
    assert (vset_add (chain_edge i) (rev (chain_edges i)) = rev (chain_edges (S i)))
      as ->.
    { unfold vset_add. rewrite vset_mem_rev, vset_mem_chain, Nat.ltb_irrefl.
      now rewrite chain_edges_S. }
    assert (vset_diff match i with O => [] | S k' => [chain_edge k'] end
                      (rev (chain_edges (S i))) = []) as ->.
    { destruct i as [|i]; [reflexivity|]. unfold vset_diff. cbn [filter].
      rewrite vset_mem_rev, vset_mem_chain.
      now destruct (Nat.ltb_spec i (S (S i))); [|lia]. }
    cbn [delete_connected bind]. apply IH; lia.
Qed.

(** [is_acyclic] accepts a chain, in any iteration order of the two sets. *)
Lemma chain_is_acyclic (m : nat) (ns : list nat) (vs : list (Vertex nat unit)) :
  Permutation (seq 0 (S m)) ns -> Permutation (chain_edges m) vs ->
  is_acyclic_sets ns vs = Ok true.
Proof.
  intros Hns Hvs. unfold is_acyclic_sets.
  destruct (chain_indexes Hns Hvs) as (c & f & -> & Hidx). simpl.
  rewrite (@chain_ready m ns c Hns) by (intros k Hk; apply (Hidx k Hk)).
  cbn [bind].
  rewrite <- (Permutation_length Hns), <- (Permutation_length Hvs).
  rewrite length_seq, chain_edges_length.
  pose proof (@chain_eliminate m c f Hidx m 0 (S m + m) ltac:(lia) ltac:(lia)) as He.
  change (rev (chain_edges 0)) with (@nil (Vertex nat unit)) in He.
  rewrite He. cbn [bind].
  now rewrite length_rev, chain_edges_length, Nat.eqb_refl.
Qed.

(** [StaticDependencies(chain_deps m).vertices(i)] *)
Lemma chain_vertices (m i : nat) :
  StaticDependencies_vertices unit (chain_deps m) i =
  Ok (if i <? m then [chain_edge i] else []).
Proof.
  unfold chain_deps.
  enough (forall len a,
             StaticDependencies_vertices unit
               (map (fun i => (i, [S i])) (seq a len)) i =
             Ok (if (a <=? i) && (i <? a + len) then [chain_edge i] else []))
    as H by (rewrite H; reflexivity).
  induction len as [|len IH]; intros a.
  - simpl. rewrite andb_comm.
    now destruct (Nat.ltb_spec i (a + 0)), (Nat.leb_spec a i); try lia.
  - cbn [seq map StaticDependencies_vertices fst snd]. rewrite IH.
    change (node_eqb a i) with (Nat.eqb a i).
    destruct (Nat.eqb_spec a i) as [->|Hne].
    + rewrite Nat.leb_refl.
      assert ((i <? i + S len) = true) as -> by (apply Nat.ltb_lt; lia).
      assert ((S i <=? i) = false) as -> by (apply Nat.leb_gt; lia).
      reflexivity.
    + replace (a + S len) with (S a + len) by lia.
      assert ((a <=? i) = (S a <=? i)) as ->
        by (destruct (Nat.leb_spec a i), (Nat.leb_spec (S a) i); lia || reflexivity).
      cbn [bind app]. reflexivity.
Qed.

Lemma nset_mem_seq (i n : nat) : nset_mem i (seq 0 n) = (i <? n).
Proof.
  destruct (Nat.ltb_spec i n) as [H|H].
  - apply nset_mem_In, in_seq. lia.
  - destruct (nset_mem i (seq 0 n)) eqn:E; auto.
    apply nset_mem_In, in_seq in E. lia.
Qed.

(** Discovery along a chain: [build_vertices(i)] calls itself once for each
    node below [i], each call nested in the previous one. *)
Lemma chain_build_vertices (m : nat) :
  forall j i depth,
    i + j = m ->
    (j < depth ->
     build_vertices (static_plugins (chain_deps m)) depth i (seq 0 (S i))
     = Ok (seq 0 (S m), map chain_edge (rev (seq i j))))
    /\ (depth <= j ->
        build_vertices (static_plugins (chain_deps m)) depth i (seq 0 (S i))
        = Raise RecursionError).
Proof.
  induction j as [|j IH]; intros i depth Hij;
    (destruct depth as [|depth]; [split; [lia | reflexivity]|]);
    (split; [intros Hd | intros Hd; try lia]);
    cbn [build_vertices static_plugins expand_plugins can_create_vertex
         StaticDependencies file_extensions Plugin_vertices];
    change (String.eqb "*" "*") with true; cbn [bind];
    rewrite chain_vertices.
  - assert (i = m) as -> by lia. rewrite Nat.ltb_irrefl. reflexivity.
  - destruct (Nat.ltb_spec i m); [|lia].
    cbn [bind expand_vertices]. change (to_node (chain_edge i)) with (S i).
    rewrite nset_mem_seq, Nat.ltb_irrefl.
    unfold nset_add. rewrite nset_mem_seq, Nat.ltb_irrefl.
    change (seq 0 (S i) ++ [S i]) with (seq 0 (S i) ++ [0 + S i]).
    rewrite <- seq_S.
    destruct (IH (S i) depth ltac:(lia)) as [IHok _]. rewrite IHok by lia.
    cbn [bind]. cbn [seq rev]. now rewrite map_app, app_nil_r.
  - destruct (Nat.ltb_spec i m); [|lia].
    cbn [bind expand_vertices]. change (to_node (chain_edge i)) with (S i).
    rewrite nset_mem_seq, Nat.ltb_irrefl.
    unfold nset_add. rewrite nset_mem_seq, Nat.ltb_irrefl.
    change (seq 0 (S i) ++ [S i]) with (seq 0 (S i) ++ [0 + S i]).
    rewrite <- seq_S.
    destruct (IH (S i) depth ltac:(lia)) as [_ IHfail]. rewrite IHfail by lia.
    reflexivity.
Qed.

(** The transitive query along a chain, in any iteration order of the edge
    set: [dependencies(i)] calls itself once for each node below [i]. *)
Lemma chain_dependencies (m : nat) (vs : list (Vertex nat unit)) :
  Permutation (chain_edges m) vs ->
  forall j i depth,
    i + j = m ->
    (j < depth -> dependencies_in vs depth i true = Ok (seq (S i) j))
    /\ (depth <= j -> dependencies_in vs depth i true = Raise RecursionError).
Proof.
  intros Hvs.
  assert (forall i, filter (fun v => node_eqb (from_node v) i) vs
                    = if i <? m then [chain_edge i] else []) as Hout.
  { intros i. rewrite <- chain_edges_from.
    apply (filter_Permutation_short _ Hvs).
    rewrite chain_edges_from. destruct (i <? m); simpl; lia. }
  induction j as [|j IH]; intros i depth Hij;
    (destruct depth as [|depth]; [split; [lia | reflexivity]|]);
    (split; [intros Hd | intros Hd; try lia]);
    cbn [dependencies_in]; rewrite Hout.
  - assert (i = m) as -> by lia. rewrite Nat.ltb_irrefl. reflexivity.
  - destruct (Nat.ltb_spec i m); [|lia]. cbn [dependencies_loop].
    change (to_node (chain_edge i)) with (S i).
    destruct (IH (S i) depth ltac:(lia)) as [IHok _]. rewrite IHok by lia.
    cbn [bind]. now rewrite app_nil_r.
  - destruct (Nat.ltb_spec i m); [|lia]. cbn [dependencies_loop].
    change (to_node (chain_edge i)) with (S i).
    destruct (IH (S i) depth ltac:(lia)) as [_ IHfail]. rewrite IHfail by lia.
    reflexivity.
Qed.

Lemma chain_init_raise (m depth : nat) :
  depth <= m ->
  DependencyGraph_init depth [0] (static_plugins (chain_deps m)) = Raise RecursionError.
Proof.
  intros Hd. unfold DependencyGraph_init, generate_vertices.
  cbn [nset_of_list fold_left nset_add nset_mem existsb app rev generate_loop].
  destruct (@chain_build_vertices m m 0 depth eq_refl) as [_ Hfail].
  change [0] with (seq 0 1). now rewrite Hfail.
Qed.

Lemma chain_init_ok (m depth : nat) :
  m < depth ->
  DependencyGraph_init depth [0] (static_plugins (chain_deps m))
  = Ok (mkGraph (seq 0 (S m)) (static_plugins (chain_deps m)) (chain_edges m)).
Proof.
  intros Hd. unfold DependencyGraph_init, generate_vertices.
  cbn [nset_of_list fold_left nset_add nset_mem existsb app rev generate_loop].
  destruct (@chain_build_vertices m m 0 depth eq_refl) as [Hok _].
  change [0] with (seq 0 1). rewrite Hok by exact Hd. cbn [bind].
  fold (chain_edges m). rewrite app_nil_r, vset_of_chain.
  unfold is_acyclic. cbn [nodes vertices].
  now rewrite (chain_is_acyclic (Permutation_refl _) (Permutation_refl _)).
Qed.

(** C3, as the code has it: discovery and the transitive query call
    themselves once for each node of a chain, each call inside the previous
    one.  On the chain of [m + 1] nodes, construction raises
    [RecursionError] when at most [m] nested calls are available; with more
    it discovers the [m + 1] nodes and the [m] edges and [is_acyclic] accepts
    them in any iteration order; the transitive query on the head then
    returns the [m] descendants, and raises [RecursionError] with at most [m]
    nested calls. *)
Theorem chain_needs_call_depth (m depth : nat) :
  (depth <= m ->
   DependencyGraph_init depth [0] (static_plugins (chain_deps m)) = Raise RecursionError)
  /\ (m < depth ->
      exists g,
        DependencyGraph_init depth [0] (static_plugins (chain_deps m)) = Ok g
        /\ nodes g = seq 0 (S m)
        /\ vertices g = chain_edges m
        /\ forall ns vs, Permutation (nodes g) ns -> Permutation (vertices g) vs ->
             is_acyclic_sets ns vs = Ok true
             /\ dependencies_in vs depth 0 true = Ok (seq 1 m)
             /\ forall d, d <= m -> dependencies_in vs d 0 true = Raise RecursionError).
Proof.
  split; [apply chain_init_raise|].
  intros Hd. eexists. split; [now apply chain_init_ok|]. cbn [nodes vertices].
  split; [reflexivity|]. split; [reflexivity|].
  intros ns vs Hns Hvs. split; [exact (@chain_is_acyclic m ns vs Hns Hvs)|]. split.
  - now apply (@chain_dependencies m vs Hvs m 0 depth eq_refl).
  - intros d Hle. now apply (@chain_dependencies m vs Hvs m 0 d eq_refl).
Qed.

(** Witness for C3: the chain [0 -> 1 -> 2] with two, then three, nested
    calls available. *)
Lemma chain_needs_call_depth_witness :
  DependencyGraph_init 2 [0] (static_plugins (chain_deps 2)) = Raise RecursionError
  /\ exists g,
       DependencyGraph_init 3 [0] (static_plugins (chain_deps 2)) = Ok g
       /\ nodes g = [0; 1; 2]
       /\ vertices g = chain_edges 2
       /\ forall ns vs, Permutation (nodes g) ns -> Permutation (vertices g) vs ->
            is_acyclic_sets ns vs = Ok true
            /\ dependencies_in vs 3 0 true = Ok [1; 2]
            /\ forall d, d <= 2 -> dependencies_in vs d 0 true = Raise RecursionError.
Proof.
  split.
  - apply (proj1 (chain_needs_call_depth 2 2)). apply le_n.
  - apply (proj2 (chain_needs_call_depth 2 3)). apply le_n.
Defined.

(** C3, as the specification has it, fails: there is no explicit worklist,
    and no number of nested calls is enough for every chain.  A chain of 300
    nodes exhausts 299 nested calls, and a chain of 1001 nodes exhausts the
    default limit of CPython. *)
Lemma native_recursion_exhausts_stack :
  DependencyGraph_init 299 [0] (static_plugins (chain_deps 299)) = Raise RecursionError
  /\ dependencies_in (chain_edges 299) 299 0 true = Raise RecursionError
  /\ DependencyGraph_init recursion_limit [0] (static_plugins (chain_deps recursion_limit))
     = Raise RecursionError
  /\ ~ (exists depth, forall m,
          exists g, DependencyGraph_init depth [0] (static_plugins (chain_deps m)) = Ok g).
Proof.
  split; [vm_compute; reflexivity|]. split; [vm_compute; reflexivity|].
  split; [apply chain_init_raise, le_n|].
  intros (depth & H). destruct (H depth) as [g Hg].
  rewrite chain_init_raise in Hg by apply le_n. discriminate.
Qed.

(** * Further properties of the code *)

(** ** Strings *)

Lemma length_append (s t : string) :
  String.length (s ++ t) = String.length s + String.length t.
Proof. induction s as [|c s IH]; simpl; [reflexivity | now rewrite IH]. Qed.

Lemma substring_all (s : string) : substring 0 (String.length s) s = s.
Proof. induction s as [|c s IH]; simpl; [reflexivity | now rewrite IH]. Qed.

Lemma substring_skip (p s : string) (m : nat) :
  substring (String.length p) m (p ++ s) = substring 0 m s.
Proof. induction p as [|c p IH]; simpl; [reflexivity | exact IH]. Qed.

Lemma substring_split (s : string) (k : nat) :
  k <= String.length s ->
  s = (substring 0 k s ++ substring k (String.length s - k) s)%string.
Proof.
  revert k. induction s as [|c s IH]; intros k Hk.
  - destruct k; reflexivity.
  - destruct k as [|k]; simpl.
    + now rewrite substring_all.
    + simpl in Hk. f_equal. apply IH. lia.
Qed.

Lemma endswith_spec (s suffix : string) :
  endswith s suffix = true <-> exists p, s = (p ++ suffix)%string.
Proof.
  unfold endswith. split.
  - intros H. apply andb_true_iff in H. destruct H as [Hle Heq].
    apply Nat.leb_le in Hle. apply String.eqb_eq in Heq.
    exists (substring 0 (String.length s - String.length suffix) s).
    pose proof (@substring_split s (String.length s - String.length suffix)) as Hs.
    replace (String.length s - (String.length s - String.length suffix))
      with (String.length suffix) in Hs by lia.
    rewrite Heq in Hs. apply Hs. lia.
  - intros [p ->]. rewrite length_append. apply andb_true_iff. split.
    + apply Nat.leb_le. lia.
    + replace (String.length p + String.length suffix - String.length suffix)
        with (String.length p) by lia.
      rewrite substring_skip, substring_all. apply String.eqb_refl.
Qed.

(** Two suffixes of one string: one is a suffix of the other. *)
Lemma suffixes_comparable (a b p c : string) :
  (a ++ b)%string = (p ++ c)%string -> endswith b c = true \/ endswith c b = true.
Proof.
  revert p. induction a as [|x a IH]; intros p H; simpl in H.
  - left. apply endswith_spec. now exists p.
  - destruct p as [|y p]; simpl in H.
    + right. apply endswith_spec. exists (String x a). now rewrite <- H.
    + injection H as _ H. now apply IH in H.
Qed.

Lemma endswith_app (a b c : string) :
  endswith b c = false -> endswith c b = false -> endswith (a ++ b) c = false.
Proof.
  intros Hb Hc. destruct (endswith (a ++ b) c) eqn:E; [|reflexivity].
  apply endswith_spec in E. destruct E as [p E].
  apply suffixes_comparable in E. destruct E; congruence.
Qed.

Lemma occurs_app_r (sep p s : string) :
  occurs sep s = true -> occurs sep (p ++ s) = true.
Proof.
  intros H. induction p as [|c p IH]; simpl; [exact H|].
  rewrite IH. apply orb_true_r.
Qed.

Lemma occurs_endswith (sep s suffix : string) :
  occurs sep s = false -> occurs sep suffix = true -> endswith s suffix = false.
Proof.
  intros Hs Hsuf. destruct (endswith s suffix) eqn:E; [|reflexivity].
  apply endswith_spec in E. destruct E as [p ->].
  rewrite occurs_app_r in Hs by exact Hsuf. discriminate.
Qed.

Lemma endswith_cons (c : ascii) (s suffix : string) :
  String.length suffix <= String.length s ->
  endswith (String c s) suffix = endswith s suffix.
Proof.
  intros Hle. apply Bool.eq_true_iff_eq. rewrite !endswith_spec. split.
  - intros [p H]. destruct p as [|y p]; simpl in H.
    + rewrite <- H in Hle. simpl in Hle. lia.
    + injection H as _ H. now exists p.
  - intros [p ->]. now exists (String c p).
Qed.

Lemma prefix_sep (c : ascii) (s : string) :
  String.prefix "__" (String c s) = Ascii.eqb c "_" && String.prefix "_" s.
Proof.
  cbn [String.prefix]. destruct (ascii_dec "_" c) as [<-|Hc].
  - reflexivity.
  - destruct (Ascii.eqb_spec c "_"); [congruence | reflexivity].
Qed.

Lemma prefix_underscore (s : string) :
  String.prefix "_" s = match s with String c _ => Ascii.eqb c "_" | EmptyString => false end.
Proof.
  destruct s as [|c s]; [reflexivity|]. cbn [String.prefix].
  destruct (ascii_dec "_" c) as [<-|Hc]; [now destruct s|].
  destruct (Ascii.eqb_spec c "_"); [congruence | reflexivity].
Qed.

Lemma split_head_none (s : string) :
  occurs "__" s = false -> split_head "__" s = s.
Proof.
  induction s as [|c s IH]; [reflexivity|]. intros H.
  cbn [occurs] in H. apply orb_false_iff in H. destruct H as [Hp Ho].
  cbn [split_head]. rewrite Hp. now rewrite IH.
Qed.

Lemma split_head_field (field rest : string) :
  occurs "__" field = false -> endswith field "_" = false ->
  split_head "__" (field ++ "__" ++ rest) = field.
Proof.
  induction field as [|c f IH]; intros Ho He.
  - cbn [append split_head]. rewrite prefix_sep, prefix_underscore. reflexivity.
  - cbn [occurs] in Ho. apply orb_false_iff in Ho. destruct Ho as [Hp Ho].
    cbn [append split_head]. rewrite prefix_sep in *.
    destruct f as [|d f].
    + assert (Hc : Ascii.eqb c "_" = false).
      { destruct (Ascii.eqb_spec c "_") as [->|]; [discriminate He | reflexivity]. }
      rewrite Hc. cbn [andb append split_head].
      rewrite prefix_sep, prefix_underscore. reflexivity.
    + rewrite prefix_underscore in *. cbn [append]. rewrite Hp. f_equal.
      apply IH; [exact Ho|]. rewrite endswith_cons in He by (simpl; lia). exact He.
Qed.

Lemma split_head_starts (s : string) :
  String.prefix "_" (split_head "__" s) = true -> String.prefix "_" s = true.
Proof.
  destruct s as [|c s]; [discriminate|]. cbn [split_head].
  destruct (String.prefix "__" (String c s)); [discriminate|].
  now rewrite !prefix_underscore.
Qed.

Lemma split_head_split (s : string) :
  exists rest,
    s = (split_head "__" s ++ rest)%string
    /\ occurs "__" (split_head "__" s) = false
    /\ (rest = EmptyString
        \/ (String.prefix "__" rest = true /\ endswith (split_head "__" s) "_" = false)).
Proof.
  induction s as [|c s (rest & Hs & Ho & Hr)].
  - exists EmptyString. repeat split; auto.
  - cbn [split_head]. destruct (String.prefix "__" (String c s)) eqn:Hp.
    + exists (String c s). repeat split; auto.
    + exists rest. split; [cbn [append]; now rewrite <- Hs|]. split.
      * cbn [occurs]. rewrite Ho, orb_false_r. rewrite prefix_sep in *.
        destruct (Ascii.eqb c "_"); [|reflexivity]. simpl in *.
        destruct (String.prefix "_" (split_head "__" s)) eqn:E; [|reflexivity].
        apply split_head_starts in E. congruence.
      * destruct Hr as [Hr|[Hr He]]; [now left|right]. split; [exact Hr|].
        destruct (split_head "__" s) as [|d r] eqn:E.
        -- simpl in Hs. subst rest. rewrite prefix_sep in Hp.
           assert (Hu : String.prefix "_" s = true).
           { rewrite prefix_underscore. destruct s as [|x s]; [discriminate Hr|].
             rewrite prefix_sep in Hr. now apply andb_true_iff in Hr. }
           rewrite Hu, andb_true_r in Hp.
           unfold endswith. simpl. now rewrite Hp.
        -- rewrite endswith_cons by (simpl; lia). exact He.
Qed.

(** ** Filters *)

Section FilterMore.

Variable Val : Type.
Variable py_getattr_or_none : Val -> string -> Val.
Variable py_is_none : Val -> bool.
Variables py_gt py_ge py_lt py_le py_ne py_eq : Val -> Val -> Result bool.

Let run := filter_match py_getattr_or_none py_is_none
                        py_gt py_ge py_lt py_le py_ne py_eq.
Let run_base := BaseFilter_match py_getattr_or_none py_is_none
                        py_gt py_ge py_lt py_le py_ne py_eq.

Lemma and_loop (value : Val) (fs : list (Filter Val)) (acc : bool) :
  (fix loop (fs : list (Filter Val)) (is_match : bool) : Result bool :=
     match fs with
     | [] => Ok is_match
     | _filter :: fs' => m <- run _filter value ;; loop fs' (is_match && m)
     end) fs acc
  = (answers <- map_result (fun f => run f value) fs ;;
     Ok (acc && forallb (fun b => b) answers)).
Proof.
  revert acc. induction fs as [|f fs IH]; intros acc; simpl.
  - now rewrite andb_true_r.
  - destruct (run f value) as [m|e]; simpl; [|reflexivity].
    rewrite IH. destruct (map_result (fun f => run f value) fs); simpl; [|reflexivity].
    now rewrite andb_assoc.
Qed.

Lemma or_loop (value : Val) (fs : list (Filter Val)) (acc : bool) :
  (fix loop (fs : list (Filter Val)) (is_match : bool) : Result bool :=
     match fs with
     | [] => Ok is_match
     | _filter :: fs' => m <- run _filter value ;; loop fs' (is_match || m)
     end) fs acc
  = (answers <- map_result (fun f => run f value) fs ;;
     Ok (acc || existsb (fun b => b) answers)).
Proof.
  revert acc. induction fs as [|f fs IH]; intros acc; simpl.
  - now rewrite orb_false_r.
  - destruct (run f value) as [m|e]; simpl; [|reflexivity].
    rewrite IH. destruct (map_result (fun f => run f value) fs); simpl; [|reflexivity].
    now rewrite orb_assoc.
Qed.

(** X18: [AndFilter.match] and [OrFilter.match] ask every filter of the
    list, the ones passed in and then one [BaseFilter] per keyword criterion,
    in that order, and combine all the answers with [&] (resp. [|]); nothing
    is skipped once the outcome is known, so the first exception a filter
    raises is the result. *)
Theorem composite_match_all (filters : list (Filter Val)) (query : list (string * Val))
  (value : Val) :
  let asked := filters ++ map (fun kv => BaseFilter (fst kv) (snd kv)) query in
  run (AndFilter_init filters query) value =
    (answers <- map_result (fun f => run f value) asked ;;
     Ok (forallb (fun b => b) answers))
  /\ run (OrFilter_init filters query) value =
    (answers <- map_result (fun f => run f value) asked ;;
     Ok (existsb (fun b => b) answers)).
Proof.
  split.
  - exact (and_loop value (composite_filters filters query) true).
  - exact (or_loop value (composite_filters filters query) false).
Qed.

(** X19: for a field name without [__] that does not end in [_],
    [BaseFilter(field__gt=x)], [__gte], [__lt], [__lte], [__ne] and
    [BaseFilter(field=x)] compare [getattr(value, field, None)] (the value
    itself when the field is [_self]) with [x] by [>], [>=], [<], [<=], [!=]
    and [==], and answer [False] without comparing when the value looked up
    is [None]. *)
Theorem BaseFilter_match_operators (field : string) (self_value value : Val) :
  occurs "__" field = false -> endswith field "_" = false ->
  let target :=
    if String.eqb field "_self" then value else py_getattr_or_none value field in
  let answer (compare : Val -> Val -> Result bool) :=
    if py_is_none target then Ok false else compare target self_value in
  run_base (field ++ "__gt") self_value value = answer py_gt
  /\ run_base (field ++ "__gte") self_value value = answer py_ge
  /\ run_base (field ++ "__lt") self_value value = answer py_lt
  /\ run_base (field ++ "__lte") self_value value = answer py_le
  /\ run_base (field ++ "__ne") self_value value = answer py_ne
  /\ run_base field self_value value = answer py_eq.
Proof.
  intros Ho He target answer. subst run_base. unfold BaseFilter_match, parse_key.
  assert (Hop : forall op, split_head "__" (field ++ "__" ++ op) = field)
    by (intros op; now apply split_head_field).
  assert (Hsuf : forall op suffix,
             endswith ("__" ++ op) suffix = false ->
             endswith suffix ("__" ++ op) = false ->
             endswith (field ++ "__" ++ op) suffix = false)
    by (intros op suffix; apply endswith_app).
  assert (Hyes : forall op, endswith (field ++ "__" ++ op) ("__" ++ op) = true)
    by (intros op; apply endswith_spec; now exists field).
  assert (Hno : forall suffix, occurs "__" suffix = true -> endswith field suffix = false)
    by (intros suffix; now apply occurs_endswith).
  repeat split.
  - change (field ++ "__gt")%string with (field ++ "__" ++ "gt")%string.
    rewrite Hop, Hyes. reflexivity.
  - change (field ++ "__gte")%string with (field ++ "__" ++ "gte")%string.
    rewrite Hop, Hyes, (Hsuf "gte" "__gt") by reflexivity. reflexivity.
  - change (field ++ "__lt")%string with (field ++ "__" ++ "lt")%string.
    rewrite Hop, Hyes, (Hsuf "lt" "__gt"), (Hsuf "lt" "__gte") by reflexivity.
    reflexivity.
  - change (field ++ "__lte")%string with (field ++ "__" ++ "lte")%string.
    rewrite Hop, Hyes, (Hsuf "lte" "__gt"), (Hsuf "lte" "__gte"), (Hsuf "lte" "__lt")
      by reflexivity.
    reflexivity.
  - change (field ++ "__ne")%string with (field ++ "__" ++ "ne")%string.
    rewrite Hop, Hyes, (Hsuf "ne" "__gt"), (Hsuf "ne" "__gte"), (Hsuf "ne" "__lt"),
      (Hsuf "ne" "__lte") by reflexivity.
    reflexivity.
  - rewrite split_head_none by exact Ho.
    rewrite !Hno by reflexivity. reflexivity.
Qed.

(** X20: [parse_key] cuts a key at its first [__]: the result is a prefix
    of the key that contains no [__], and what is cut off is empty or starts
    with [__] (the result then does not end in [_]); so for a field name
    without [__] that does not end in [_], [parse_key(field + "__" + rest)]
    is the field, whatever [rest] is. *)
Theorem parse_key_field :
  (forall key, exists rest,
      key = (parse_key key ++ rest)%string
      /\ occurs "__" (parse_key key) = false
      /\ (rest = EmptyString
          \/ (String.prefix "__" rest = true /\ endswith (parse_key key) "_" = false)))
  /\ (forall field rest,
        occurs "__" field = false -> endswith field "_" = false ->
        parse_key (field ++ "__" ++ rest) = field).
Proof.
  split.
  - exact split_head_split.
  - exact split_head_field.
Qed.

End FilterMore.

(** ** Plugins *)

Section PluginFacts.

Variable Node : Type.
Context {node_ops : PyNode Node}.
Variable Val : Type.

Lemma can_create_loop (node : Node) (name : string) (exts : list string) (acc : bool) :
  node_name node = Some name ->
  (fix loop (exts : list string) (ends_with : bool) : Result bool :=
     match exts with
     | [] => Ok ends_with
     | file_ext :: exts' =>
         if ends_with then loop exts' true
         else name <- get_name node ;; loop exts' (endswith name file_ext)
     end) exts acc
  = Ok (acc || existsb (endswith name) exts).
Proof.
  intros Hn. revert acc. induction exts as [|file_ext exts IH]; intros acc.
  - now rewrite orb_false_r.
  - destruct acc.
    + rewrite IH. reflexivity.
    + unfold get_name at 1. rewrite Hn. cbn [bind]. rewrite IH. reflexivity.
Qed.

Lemma can_create_vertex_named (self : Plugin Node Val) (node : Node) (name : string) :
  node_name node = Some name ->
  exists applies,
    can_create_vertex self node = Ok applies
    /\ (applies = true <->
        match file_extensions self with
        | ExtStr s => s = "*" \/ exists p, name = (p ++ s)%string
        | ExtSeq l => exists file_ext p, In file_ext l /\ name = (p ++ file_ext)%string
        end).
Proof.
  intros Hn. unfold can_create_vertex. destruct (file_extensions self) as [s|l].
  - destruct (String.eqb_spec s "*") as [->|Hs].
    + exists true. split; [reflexivity|]. split; auto.
    + unfold get_name. rewrite Hn. cbn [bind]. eexists. split; [reflexivity|].
      rewrite endswith_spec. split; [auto|]. intros [H|H]; [contradiction | exact H].
  - rewrite (can_create_loop node l false Hn). eexists. split; [reflexivity|].
    cbn [orb]. rewrite existsb_exists. split.
    + intros (x & Hx & He). apply endswith_spec in He. destruct He as [p He]. eauto.
    + intros (x & p & Hx & He). exists x. split; [exact Hx|].
      apply endswith_spec. eauto.
Qed.

Lemma can_create_vertex_nameless (self : Plugin Node Val) (node : Node) :
  node_name node = None ->
  can_create_vertex self node =
  match file_extensions self with
  | ExtStr s => if String.eqb s "*" then Ok true else Raise AttributeError
  | ExtSeq [] => Ok false
  | ExtSeq (_ :: _) => Raise AttributeError
  end.
Proof.
  intros Hn. unfold can_create_vertex, get_name. rewrite Hn.
  destruct (file_extensions self) as [s|[|file_ext l]]; reflexivity.
Qed.

(** X15: [can_create_vertex] on a node that has a [name]: the plugin applies
    exactly when its [file_extensions] is ["*"] or the name ends with it
    (a string), or when the name ends with one of them (a sequence; ["*"] in
    a sequence is an ordinary suffix); it does not raise. *)
Theorem can_create_vertex_suffixes (self : Plugin Node Val) (node : Node) (name : string) :
  node_name node = Some name ->
  exists applies,
    can_create_vertex self node = Ok applies
    /\ (applies = true <->
        match file_extensions self with
        | ExtStr s => s = "*" \/ exists p, name = (p ++ s)%string
        | ExtSeq l => exists file_ext p, In file_ext l /\ name = (p ++ file_ext)%string
        end).
Proof. apply can_create_vertex_named. Qed.

(** X16: [can_create_vertex] on a node without attribute [name] (a plain
    string, as in [tests/testsGraph.py]): only the plugins whose
    [file_extensions] is ["*"] (the default, which [StaticDependencies]
    keeps) or an empty sequence answer; any other raises [AttributeError],
    and with it [build_vertices] on that node. *)
Theorem can_create_vertex_needs_name (self : Plugin Node Val) (node : Node)
  (depth : nat) (ps : list (Plugin Node Val)) :
  node_name node = None ->
  can_create_vertex self node =
    match file_extensions self with
    | ExtStr s => if String.eqb s "*" then Ok true else Raise AttributeError
    | ExtSeq [] => Ok false
    | ExtSeq (_ :: _) => Raise AttributeError
    end
  /\ (can_create_vertex self node = Raise AttributeError ->
      forall nodes,
        build_vertices (self :: ps) (S depth) node nodes = Raise AttributeError).
Proof.
  intros Hn. split; [now apply can_create_vertex_nameless|].
  intros H nodes. cbn [build_vertices expand_plugins]. now rewrite H.
Qed.

Lemma static_vertices_row (node : Node) (subs : list Node) :
  map_result (fun sub_node => Vertex_init (Val := Val) "static" node sub_node []) subs
  = Ok (map (fun sub_node => mkVertex "static" node sub_node []) subs).
Proof.
  induction subs as [|s subs IH]; [reflexivity|].
  cbn [map_result map]. rewrite IH. reflexivity.
Qed.

Lemma StaticDependencies_vertices_map (dependencies : list (Node * list Node))
  (node : Node) :
  StaticDependencies_vertices Val dependencies node =
  Ok (map (fun sub_node => mkVertex "static" node sub_node [])
          (flat_map snd (filter (fun deps => node_eqb (fst deps) node) dependencies))).
Proof.
  induction dependencies as [|deps rest IH]; [reflexivity|].
  cbn [StaticDependencies_vertices filter]. rewrite IH.
  destruct (node_eqb (fst deps) node).
  - rewrite static_vertices_row. cbn [bind flat_map]. now rewrite map_app.
  - reflexivity.
Qed.

(** X17: [StaticDependencies.vertices(node)] never raises; it yields, in the
    order of the table, one vertex [Vertex("static", node, sub_node)] for
    each [sub_node] of every row whose first component equals [node] (the
    rows with the same key add up), and nothing for a node that has no row. *)
Theorem StaticDependencies_vertices_rows (dependencies : list (Node * list Node))
  (node : Node) :
  StaticDependencies_vertices Val dependencies node =
  Ok (map (fun sub_node => mkVertex "static" node sub_node [])
          (flat_map snd (filter (fun deps => node_eqb (fst deps) node) dependencies))).
Proof. apply StaticDependencies_vertices_map. Qed.

End PluginFacts.

(** ** Queries *)

Section QueryFacts.

Variable Node : Type.
Context {node_ops : PyNode Node}.
Variable Val : Type.

Lemma path_inv (vs : list (Vertex Node Val)) (n x : Node) :
  path vs n x <->
  exists v, In v vs /\ from_node v = n /\ (to_node v = x \/ path vs (to_node v) x).
Proof.
  split.
  - intros H. inversion H as [v Hv|v m Hv Hp]; subst; exists v; auto.
  - intros (v & Hv & <- & [<-|Hp]).
    + now apply path_edge.
    + now apply path_step.
Qed.

Lemma path_snoc (vs : list (Vertex Node Val)) (a : Node) (v : Vertex Node Val) :
  In v vs -> path vs a (from_node v) -> path vs a (to_node v).
Proof.
  intros Hv H. remember (from_node v) as n eqn:En. induction H as [w Hw|w m Hw Hp IH].
  - apply path_step; [exact Hw|]. rewrite En. now apply path_edge.
  - apply path_step; [exact Hw|]. now apply IH.
Qed.

Lemma outgoing_In (vs : list (Vertex Node Val)) (node : Node) (v : Vertex Node Val) :
  In v (filter (fun v => node_eqb (from_node v) node) vs)
  <-> In v vs /\ from_node v = node.
Proof. rewrite filter_In, node_eqb_spec. reflexivity. Qed.

Lemma dependencies_loop_direct (recur : Node -> Result (list Node))
  (l : list (Vertex Node Val)) :
  dependencies_loop recur false l = Ok (map (@to_node _ _) l).
Proof.
  induction l as [|v l IH]; [reflexivity|].
  cbn [dependencies_loop bind map]. rewrite IH. reflexivity.
Qed.

Lemma dependencies_loop_follow (recur : Node -> Result (list Node))
  (l : list (Vertex Node Val)) (out : list Node) :
  dependencies_loop recur true l = Ok out ->
  (forall v, In v l -> exists sub, recur (to_node v) = Ok sub)
  /\ forall x, In x out <->
       exists v, In v l
         /\ (x = to_node v \/ exists sub, recur (to_node v) = Ok sub /\ In x sub).
Proof.
  revert out. induction l as [|v l IH]; intros out H.
  - injection H as <-. split; [intros ? []|]. intros x. split; [intros []|].
    intros (? & [] & _).
  - cbn [dependencies_loop] in H.
    destruct (recur (to_node v)) as [sub|e] eqn:Er; [|discriminate].
    cbn [bind] in H.
    destruct (dependencies_loop recur true l) as [rest|e] eqn:El; [|discriminate].
    injection H as <-. destruct (IH rest eq_refl) as [IH1 IH2]. split.
    + intros w [<-|Hw]; [eauto | auto].
    + intros x. cbn [In]. rewrite in_app_iff, IH2. split.
      * intros [Hx|[Hx|(w & Hw & Hx)]].
        -- exists v. auto.
        -- exists v. split; [auto|]. right. eauto.
        -- exists w. auto.
      * intros (w & [<-|Hw] & Hx).
        -- destruct Hx as [->|(sub' & Es & Hx)]; [auto|].
           right. left. congruence.
        -- right. right. eauto.
Qed.

Lemma dependencies_loop_ok (recur : Node -> Result (list Node))
  (l : list (Vertex Node Val)) :
  (forall v, In v l -> exists sub, recur (to_node v) = Ok sub) ->
  exists out, dependencies_loop recur true l = Ok out.
Proof.
  induction l as [|v l IH]; intros H; [now exists []|].
  destruct (H v (or_introl eq_refl)) as [sub Es].
  destruct IH as [rest Er]; [intros w Hw; apply H; now right|].
  cbn [dependencies_loop]. rewrite Es. cbn [bind]. rewrite Er. cbn [bind]. eauto.
Qed.

Lemma dependencies_loop_raise (recur : Node -> Result (list Node))
  (l : list (Vertex Node Val)) (follow : bool) (e : PyError) :
  (forall n e, recur n = Raise e -> e = RecursionError) ->
  dependencies_loop recur follow l = Raise e -> e = RecursionError.
Proof.
  intros Hr. induction l as [|v l IH]; [discriminate|].
  cbn [dependencies_loop]. destruct follow.
  - destruct (recur (to_node v)) as [sub|e'] eqn:Er.
    + cbn [bind]. destruct (dependencies_loop recur true l); [discriminate|].
      cbn [bind]. intros H. injection H as <-. now apply IH.
    + cbn [bind]. intros H. injection H as <-. now apply Hr in Er.
  - cbn [bind]. destruct (dependencies_loop recur false l); [discriminate|].
    cbn [bind]. intros H. injection H as <-. now apply IH.
Qed.

Lemma dependencies_in_raise (vs : list (Vertex Node Val)) (depth : nat) (node : Node)
  (follow : bool) (e : PyError) :
  dependencies_in vs depth node follow = Raise e -> e = RecursionError.
Proof.
  revert node e. induction depth as [|d IH]; intros node e.
  - cbn. congruence.
  - cbn [dependencies_in]. apply dependencies_loop_raise. intros n e'. apply IH.
Qed.

Lemma dependencies_loop_stuck (recur : Node -> Result (list Node))
  (l : list (Vertex Node Val)) (v : Vertex Node Val) :
  (forall n e, recur n = Raise e -> e = RecursionError) ->
  In v l -> recur (to_node v) = Raise RecursionError ->
  dependencies_loop recur true l = Raise RecursionError.
Proof.
  intros Hr Hv Hs.
  destruct (dependencies_loop recur true l) as [out|e] eqn:E.
  - apply dependencies_loop_follow in E. destruct E as [E _].
    destruct (E v Hv) as [sub Hsub]. congruence.
  - f_equal. eapply dependencies_loop_raise; eauto.
Qed.

(** X11: the direct query ([follow=False]) makes no nested call and never
    raises: it yields the [to_node] of each vertex that starts at the node,
    once per such vertex and in the iteration order of [self.vertices]; so a
    node is yielded exactly when an edge leads to it from the queried node. *)
Theorem dependencies_direct (vs : list (Vertex Node Val)) (depth : nat) (node : Node) :
  dependencies_in vs (S depth) node false =
    Ok (map (@to_node _ _) (filter (fun v => node_eqb (from_node v) node) vs))
  /\ forall x,
       In x (map (@to_node _ _) (filter (fun v => node_eqb (from_node v) node) vs))
       <-> exists v, In v vs /\ from_node v = node /\ to_node v = x.
Proof.
  split; [apply dependencies_loop_direct|].
  intros x. rewrite in_map_iff. split.
  - intros (v & Ht & Hv). apply outgoing_In in Hv. exists v. tauto.
  - intros (v & Hv & Hf & Ht). exists v. split; [exact Ht|]. now apply outgoing_In.
Qed.

Lemma dependencies_in_reachable (vs : list (Vertex Node Val)) (depth : nat)
  (node : Node) (out : list Node) :
  dependencies_in vs depth node true = Ok out ->
  forall x, In x out <-> path vs node x.
Proof.
  revert node out. induction depth as [|d IH]; intros node out H; [discriminate|].
  cbn [dependencies_in] in H. apply dependencies_loop_follow in H.
  destruct H as [Hall Hout]. intros x. rewrite Hout, path_inv. split.
  - intros (v & Hv & Hx). apply outgoing_In in Hv. destruct Hv as [Hv Hf].
    exists v. split; [exact Hv|]. split; [exact Hf|].
    destruct Hx as [->|(sub & Es & Hx)]; [now left|].
    right. now apply (IH _ _ Es).
  - intros (v & Hv & Hf & Hx).
    assert (Hv' : In v (filter (fun v => node_eqb (from_node v) node) vs))
      by now apply outgoing_In.
    exists v. split; [exact Hv'|]. destruct Hx as [<-|Hp]; [now left|].
    right. destruct (Hall v Hv') as [sub Es]. exists sub. split; [exact Es|].
    now apply (IH _ _ Es).
Qed.

(** X12: when the transitive query ([follow=True]) returns, the nodes it
    yields are exactly the nodes that can be reached from the queried node
    along one or more edges (each possibly several times). *)
Theorem dependencies_reachable (vs : list (Vertex Node Val)) (depth : nat)
  (node : Node) (out : list Node) :
  dependencies_in vs depth node true = Ok out ->
  forall x, In x out <-> path vs node x.
Proof. apply dependencies_in_reachable. Qed.

Lemma cycle_ahead (vs : list (Vertex Node Val)) (node x : Node) :
  (node = x \/ path vs node x) -> path vs x x ->
  exists v, In v vs /\ from_node v = node
            /\ (to_node v = x \/ path vs (to_node v) x).
Proof.
  intros [->|Hp] Hc; now apply path_inv.
Qed.

(** X13: [dependencies] keeps no record of the nodes it has visited: when
    the queried node lies on a cycle or a cycle can be reached from it, the
    transitive query raises [RecursionError] whatever the number of nested
    calls available; it never returns. *)
Theorem dependencies_cycle_raises (vs : list (Vertex Node Val)) (node x : Node) :
  (node = x \/ path vs node x) -> path vs x x ->
  forall depth, dependencies_in vs depth node true = Raise RecursionError.
Proof.
  intros Hn Hc depth. revert node Hn.
  induction depth as [|d IH]; intros node Hn; [reflexivity|].
  destruct (cycle_ahead Hn Hc) as (v & Hv & Hf & Hx).
  cbn [dependencies_in]. apply dependencies_loop_stuck with (v := v).
  - intros n e. apply dependencies_in_raise.
  - now apply outgoing_In.
  - apply IH. destruct Hx as [->|Hx]; auto.
Qed.

Lemma dependencies_in_returns (vs : list (Vertex Node Val)) (start : Node) :
  (forall x, (x = start \/ path vs start x) -> ~ path vs x x) ->
  forall depth node chain,
    (node = start \/ path vs start node) ->
    NoDup chain ->
    (forall a, In a chain -> In a (map (@to_node _ _) vs) /\ (a = node \/ path vs a node)) ->
    List.length vs < depth + List.length chain ->
    exists out, dependencies_in vs depth node true = Ok out.
Proof.
  intros Hsafe. induction depth as [|d IH]; intros node chain Hreach Hnd Hchain Hlen.
  - exfalso. assert (List.length chain <= List.length (map (@to_node _ _) vs)).
    { apply NoDup_incl_length; [exact Hnd|]. intros a Ha. now apply Hchain. }
    rewrite length_map in H. lia.
  - cbn [dependencies_in]. apply dependencies_loop_ok. intros v Hv.
    apply outgoing_In in Hv. destruct Hv as [Hv Hf].
    assert (Hr : to_node v = start \/ path vs start (to_node v)).
    { right. destruct Hreach as [->|Hp].
      - rewrite <- Hf. now apply path_edge.
      - apply path_snoc; [exact Hv|]. now rewrite Hf. }
    assert (Hr' : to_node v = start \/ path vs start (to_node v)) by exact Hr.
    apply (IH (to_node v) (to_node v :: chain)).
    + exact Hr.
    + constructor; [|exact Hnd]. intros Hin. destruct (Hchain _ Hin) as [_ Ha].
      apply (Hsafe (to_node v)); [destruct Hr; auto|].
      destruct Ha as [Ha|Ha].
      * rewrite Ha at 1. rewrite <- Hf. now apply path_edge.
      * apply path_snoc; [exact Hv|]. now rewrite Hf.
    + intros a [<-|Ha].
      * split; [now apply in_map|now left].
      * destruct (Hchain _ Ha) as [Hin Hp]. split; [exact Hin|]. right.
        destruct Hp as [->|Hp].
        -- rewrite <- Hf. now apply path_edge.
        -- apply path_snoc; [exact Hv|]. now rewrite Hf.
    + simpl. simpl in Hlen. lia.
Qed.

Lemma dependencies_in_safe (vs : list (Vertex Node Val)) (node : Node)
  (depth : nat) :
  (forall x, (x = node \/ path vs node x) -> ~ path vs x x) ->
  List.length vs < depth ->
  exists out,
    dependencies_in vs depth node true = Ok out
    /\ forall x, In x out <-> path vs node x.
Proof.
  intros Hsafe Hlen.
  destruct (@dependencies_in_returns vs node Hsafe depth node []) as [out Ho].
  - now left.
  - constructor.
  - intros a [].
  - simpl. lia.
  - exists out. split; [exact Ho|]. now apply dependencies_in_reachable with (depth := depth).
Qed.

(** X14: when no cycle can be reached from the queried node, the
    transitive query returns as soon as more nested calls are available than
    the graph has edges, with exactly the reachable nodes. *)
Theorem dependencies_acyclic_returns (vs : list (Vertex Node Val)) (node : Node)
  (depth : nat) :
  (forall x, (x = node \/ path vs node x) -> ~ path vs x x) ->
  List.length vs < depth ->
  exists out,
    dependencies_in vs depth node true = Ok out
    /\ forall x, In x out <-> path vs node x.
Proof. apply dependencies_in_safe. Qed.

End QueryFacts.

(** ** Cycle detection *)

Section AcyclicMore.

Variable Node : Type.
Context {node_ops : PyNode Node}.
Variable Val : Type.

Lemma is_acyclic_indexes (ns : list Node) (vs : list (Vertex Node Val)) :
  (forall v, In v vs -> In (from_node v) ns /\ In (to_node v) ns) ->
  exists c f,
    build_index vs (index_init Val ns) (index_init Val ns) = Ok (c, f)
    /\ forall n, In n ns ->
         index_get n c = Ok (vset_of_list (filter (fun v => node_eqb (to_node v) n) vs))
         /\ index_get n f = Ok (vset_of_list (filter (fun v => node_eqb (from_node v) n) vs)).
Proof.
  intros Hends.
  destruct (@build_index_ok _ _ Val vs (index_init Val ns) (index_init Val ns))
    as (c & f & Hb).
  { intros v Hv. rewrite index_init_keys. destruct (Hends v Hv). auto. }
  exists c, f. split; [exact Hb|]. intros n Hn.
  destruct (@build_index_get _ _ _ _ _ _ _ _ Hb n) as [Hc Hf].
  rewrite index_get_init in Hc, Hf by exact Hn. auto.
Qed.

Lemma vset_of_list_In (l : list (Vertex Node Val)) (e : Vertex Node Val) :
  In e (vset_of_list l) -> In e l.
Proof.
  intros H. destruct (@vset_fold_add _ _ _ l [] eq_refl) as [_ Hin].
  destruct (Hin e H) as [[]|]; auto.
Qed.

Lemma vset_add_length (v : Vertex Node Val) (s : list (Vertex Node Val)) :
  List.length s <= List.length (vset_add v s).
Proof.
  unfold vset_add. destruct (vset_mem v s); [lia|]. rewrite length_app. lia.
Qed.

Lemma vset_fold_length (l acc : list (Vertex Node Val)) :
  List.length acc <= List.length (fold_left (fun s v => vset_add v s) l acc).
Proof.
  revert acc. induction l as [|v l IH]; intros acc; simpl; [lia|].
  specialize (IH (vset_add v acc)). pose proof (vset_add_length v acc). lia.
Qed.

Lemma vset_of_list_nonempty (l : list (Vertex Node Val)) :
  l <> [] -> List.length (vset_of_list l) <> 0.
Proof.
  destruct l as [|v l]; [congruence|]. intros _. unfold vset_of_list. simpl.
  pose proof (vset_fold_length l (vset_add v [])). unfold vset_add in H at 1.
  simpl in H. lia.
Qed.

Lemma delete_connected_stack (c : Index Node Val) (node : Node) (ns : list Node) :
  (exists s, index_get node c = Ok s) ->
  forall connected stack deleted,
    (forall e, In e connected -> In (to_node e) ns) ->
    (forall n, In n stack -> In n ns) ->
    exists stack' deleted',
      delete_connected c node connected stack deleted = Ok (stack', deleted')
      /\ forall n, In n stack' -> In n ns.
Proof.
  intros [s Hs]. induction connected as [|e connected IH]; intros stack deleted Hc Hst.
  - exists stack, deleted. auto.
  - cbn [delete_connected]. rewrite Hs. cbn [bind]. apply IH.
    + intros e' He'. apply Hc. now right.
    + destruct (vset_diff s (vset_add e deleted)); [|exact Hst].
      intros n [<-|Hn]; [apply Hc; now left | auto].
Qed.

Lemma eliminate_keys (ns : list Node) (c f : Index Node Val) :
  (forall n, In n ns -> exists s, index_get n c = Ok s) ->
  (forall n, In n ns ->
     exists s, index_get n f = Ok s /\ forall e, In e s -> In (to_node e) ns) ->
  forall fuel stack deleted,
    (forall n, In n stack -> In n ns) ->
    match eliminate fuel c f stack deleted with
    | Ok _ => True
    | Raise e => e = LoopBound
    end.
Proof.
  intros Hc Hf. induction fuel as [|fuel IH]; intros stack deleted Hst;
    destruct stack as [|node stack]; simpl; auto.
  destruct (Hf node) as (outgoing & Ho & Hto); [apply Hst; now left|].
  rewrite Ho. cbn [bind].
  destruct (@delete_connected_stack c node ns (Hc node (Hst node (or_introl eq_refl)))
              (vset_diff outgoing deleted) stack deleted)
    as (stack' & deleted' & Hd & Hst').
  - intros e He. apply filter_In in He. apply Hto, He.
  - intros n Hn. apply Hst. now right.
  - rewrite Hd. cbn [bind]. now apply IH.
Qed.

Lemma ready_nodes_In (c : Index Node Val) (ns stack stack' : list Node) :
  ready_nodes c ns stack = Ok stack' ->
  forall n, In n stack' -> In n ns \/ In n stack.
Proof.
  revert stack. induction ns as [|node ns IH]; intros stack H n Hn.
  - injection H as <-. auto.
  - cbn [ready_nodes] in H. destruct (index_get node c) as [incoming|e]; [|discriminate].
    cbn [bind] in H. destruct (IH _ H n Hn) as [H1|H1]; [left; now right|].
    destruct (List.length incoming =? 0); [|auto].
    destruct H1 as [<-|H1]; [left; now left | auto].
Qed.

Lemma is_acyclic_returns (ns : list Node) (vs : list (Vertex Node Val)) :
  (forall v, In v vs -> In (from_node v) ns /\ In (to_node v) ns) ->
  exists b, is_acyclic_sets ns vs = Ok b.
Proof.
  intros Hends. destruct (@is_acyclic_terminates _ _ Val ns vs) as [H|H]; [exact H|].
  exfalso. revert H. unfold is_acyclic_sets.
  destruct (is_acyclic_indexes ns vs Hends) as (c & f & Hb & Hget).
  rewrite Hb. cbn [bind].
  destruct (ready_nodes c ns []) as [stack|e] eqn:Hr.
  - cbn [bind].
    pose proof (@eliminate_keys ns c f) as He.
    specialize (He (fun n Hn => ex_intro _ _ (proj1 (Hget n Hn)))).
    match type of He with
    | ?P -> _ => assert P as Hf
    end.
    { intros n Hn. eexists. split; [exact (proj2 (Hget n Hn))|].
      intros e He'. apply vset_of_list_In, filter_In in He'.
      apply Hends, He'. }
    specialize (He Hf (List.length ns + List.length vs) stack []).
    match type of He with
    | ?P -> _ => assert P as Hst
    end.
    { intros n Hn. destruct (ready_nodes_In _ _ _ Hr n Hn) as [|[]]; auto. }
    specialize (He Hst).
    destruct (eliminate _ _ _ _ _) as [deleted|e]; cbn [bind]; [discriminate|].
    subst e. discriminate.
  - exfalso. revert Hr.
    rewrite (@ready_nodes_filter _ _ _ c
               (fun n => vset_of_list (filter (fun v => node_eqb (to_node v) n) vs))).
    + discriminate.
    + intros n Hn. apply Hget, Hn.
Qed.

(** X1: [is_acyclic] always terminates: it returns a verdict exactly when
    every vertex has both its ends in [self.nodes], and raises [KeyError]
    otherwise (the [while] loop ends within [len(nodes) + len(vertices)]
    iterations). *)
Theorem is_acyclic_verdict_or_KeyError (ns : list Node) (vs : list (Vertex Node Val)) :
  ((exists b, is_acyclic_sets ns vs = Ok b)
   <-> (forall v, In v vs -> In (from_node v) ns /\ In (to_node v) ns))
  /\ ((exists b, is_acyclic_sets ns vs = Ok b)
      \/ is_acyclic_sets ns vs = Raise KeyError).
Proof.
  split; [split|].
  - intros [b Hb]. exact (@is_acyclic_sets_endpoints _ _ _ ns vs b Hb).
  - apply is_acyclic_returns.
  - apply is_acyclic_terminates.
Qed.

Lemma eliminate_edgeless (ns : list Node) (c : Index Node Val) :
  forall stack fuel,
    List.length stack <= fuel ->
    (forall n, In n stack -> In n ns) ->
    eliminate fuel c (index_init Val ns) stack [] = Ok [].
Proof.
  induction stack as [|node stack IH]; intros fuel Hfuel Hst.
  - now destruct fuel.
  - destruct fuel as [|fuel]; [simpl in Hfuel; lia|].
    cbn [eliminate]. rewrite index_get_init by (apply Hst; now left).
    cbn [bind vset_diff filter delete_connected]. apply IH.
    + simpl in Hfuel. lia.
    + intros n Hn. apply Hst. now right.
Qed.

Lemma is_acyclic_edgeless (ns : list Node) :
  is_acyclic_sets ns (@nil (Vertex Node Val)) = Ok true.
Proof.
  unfold is_acyclic_sets. cbn [build_index bind].
  rewrite (@ready_nodes_filter _ _ _ _ (fun _ => [])) by (intros n Hn; now apply index_get_init).
  cbn [bind]. rewrite eliminate_edgeless; [reflexivity| |].
  - rewrite app_nil_r, length_rev.
    etransitivity; [apply filter_length_le | lia].
  - intros n Hn. rewrite app_nil_r in Hn. apply in_rev, filter_In in Hn. apply Hn.
Qed.

Lemma generate_loop_no_plugin (depth : nat) (pending ns : list Node) :
  generate_loop (@nil (Plugin Node Val)) (S depth) pending ns = Ok (ns, []).
Proof.
  induction pending as [|n pending IH]; [reflexivity|].
  cbn [generate_loop build_vertices expand_plugins bind]. rewrite IH. reflexivity.
Qed.

(** X5: a graph without edges is accepted, whatever its nodes:
    [is_acyclic] returns [True] on it; constructing a graph with no plugin
    gives the seeds and no edge, and constructing one with no seed gives the
    empty graph, whatever the plugins and the nested calls available. *)
Theorem graph_without_edges :
  (forall ns : list Node, is_acyclic_sets ns (@nil (Vertex Node Val)) = Ok true)
  /\ (forall depth seeds,
         DependencyGraph_init (Val := Val) (S depth) seeds [] =
         Ok (mkGraph (nset_of_list seeds) [] []))
  /\ (forall depth ps,
         DependencyGraph_init (Val := Val) depth (@nil Node) ps = Ok (mkGraph [] ps [])).
Proof.
  split; [exact is_acyclic_edgeless|]. split.
  - intros depth seeds. unfold DependencyGraph_init, generate_vertices.
    rewrite generate_loop_no_plugin. cbn [bind vset_of_list fold_left].
    unfold is_acyclic. cbn [nodes vertices]. rewrite is_acyclic_edgeless. reflexivity.
  - intros depth ps. reflexivity.
Qed.

Lemma filter_none {A : Type} (f : A -> bool) (l : list A) :
  (forall x, In x l -> f x = false) -> filter f l = [].
Proof.
  induction l as [|a l IH]; intros H; [reflexivity|]. simpl.
  rewrite (H a) by now left. apply IH. intros x Hx. apply H. now right.
Qed.

(** X3: when every node has an incoming edge (and there is an edge),
    [is_acyclic] returns [False]: no node is put on the stack, nothing is
    deleted.  This is the case of [test_circular_dependency]. *)
Theorem no_root_rejected (ns : list Node) (vs : list (Vertex Node Val)) :
  vs <> [] ->
  (forall v, In v vs -> In (from_node v) ns /\ In (to_node v) ns) ->
  (forall n, In n ns -> exists v, In v vs /\ to_node v = n) ->
  is_acyclic_sets ns vs = Ok false.
Proof.
  intros Hne Hends Hin. unfold is_acyclic_sets.
  destruct (is_acyclic_indexes ns vs Hends) as (c & f & Hb & Hget).
  rewrite Hb. cbn [bind].
  rewrite (@ready_nodes_filter _ _ _ c
             (fun n => vset_of_list (filter (fun v => node_eqb (to_node v) n) vs)))
    by (intros n Hn; apply Hget, Hn).
  replace (filter _ ns) with (@nil Node).
  - cbn [rev app bind]. replace (eliminate _ c f [] []) with (Ok (@nil (Vertex Node Val)))
      by now destruct (List.length ns + List.length vs).
    cbn [bind]. destruct vs; [congruence | reflexivity].
  - symmetry. apply filter_none. intros n Hn. apply Nat.eqb_neq.
    apply vset_of_list_nonempty. destruct (Hin n Hn) as (v & Hv & Ht).
    intros E. assert (Hv' : In v (filter (fun v => node_eqb (to_node v) n) vs)).
    { apply filter_In. split; [exact Hv|]. now apply node_eqb_spec. }
    rewrite E in Hv'. exact Hv'.
Qed.

End AcyclicMore.

(** ** Discovery *)

Section DiscoveryFacts.

Variable Node : Type.
Context {node_ops : PyNode Node}.
Variable Val : Type.
Variable ps : list (Plugin Node Val).

Lemma In_node_dec (x : Node) (l : list Node) : In x l \/ ~ In x l.
Proof.
  destruct (nset_mem x l) eqn:E.
  - left. exact (proj1 (@nset_mem_In Node node_ops x l) E).
  - right. intros H. apply (@nset_mem_In Node node_ops) in H. congruence.
Qed.

Lemma path_incl (o o' : list (Vertex Node Val)) (a b : Node) :
  incl o o' -> path o a b -> path o' a b.
Proof.
  intros Hi H. induction H as [v Hv|v m Hv Hp IH].
  - apply path_edge. now apply Hi.
  - apply path_step; [now apply Hi | exact IH].
Qed.

Lemma added_split (a b c : list Node) (x : Node) :
  incl a b -> added a c x -> added a b x \/ added b c x.
Proof.
  intros Hab [Hc Ha]. destruct (In_node_dec x b); [left|right]; now split.
Qed.

Lemma added_l (a b c : list Node) (x : Node) :
  incl b c -> added a b x -> added a c x.
Proof. intros Hbc [Hb Ha]. split; auto. Qed.

Lemma added_r (a b c : list Node) (x : Node) :
  incl a b -> added b c x -> added a c x.
Proof. intros Hab [Hc Hb]. split; auto. Qed.

Lemma nset_add_In (n x : Node) (s : list Node) :
  In x (nset_add n s) <-> In x s \/ x = n.
Proof.
  unfold nset_add. destruct (nset_mem n s) eqn:E.
  - apply (@nset_mem_In Node node_ops) in E. split; [auto|]. intros [H| ->]; auto.
  - rewrite in_app_iff. simpl. intuition.
Qed.

Lemma nset_add_NoDup (n : Node) (s : list Node) : NoDup s -> NoDup (nset_add n s).
Proof.
  intros H. unfold nset_add. destruct (nset_mem n s) eqn:E; [exact H|].
  apply (Permutation_NoDup (Permutation_cons_append s n)). constructor; [|exact H].
  intros Hin. apply (@nset_mem_In Node node_ops) in Hin. congruence.
Qed.

Lemma nset_fold_In (l acc : list Node) (x : Node) :
  In x (fold_left (fun s n => nset_add n s) l acc) <-> In x acc \/ In x l.
Proof.
  revert acc. induction l as [|n l IH]; intros acc; simpl; [intuition|].
  rewrite IH, nset_add_In. intuition.
Qed.

Lemma nset_fold_NoDup (l acc : list Node) :
  NoDup acc -> NoDup (fold_left (fun s n => nset_add n s) l acc).
Proof.
  revert acc. induction l as [|n l IH]; intros acc H; simpl; [exact H|].
  now apply IH, nset_add_NoDup.
Qed.

Lemma expands_nil (nodes : list Node) :
  expands ps (fun _ => False) nodes nodes [].
Proof.
  unfold expands. repeat apply conj.
  - apply incl_refl.
  - auto.
  - intros v [].
  - intros x [? ?]; contradiction.
  - intros v [].
  - intros v [].
  - intros m v [? ?]; contradiction.
  - intros _ x [? ?]; contradiction.
Qed.

Lemma expands_own (own own' : Vertex Node Val -> Prop) (nodes nodes' : list Node)
  (out : list (Vertex Node Val)) :
  (forall v, own v <-> own' v) ->
  expands ps own nodes nodes' out -> expands ps own' nodes nodes' out.
Proof.
  intros Ho (H1 & H2 & H3 & H4 & H5 & H6 & H7 & H8).
  unfold expands. repeat apply conj; auto.
  - intros v Hv. destruct (H5 v Hv) as [H|H]; [left; now apply Ho | now right].
  - intros v Hv. apply H6. now apply Ho.
  - intros Hc x Hx. destruct (H8 Hc x Hx) as (v & Hv & H). exists v. split; [now apply Ho|exact H].
Qed.

Lemma expands_seq (own1 own2 : Vertex Node Val -> Prop) (a b c : list Node)
  (o1 o2 out : list (Vertex Node Val)) :
  expands ps own1 a b o1 -> expands ps own2 b c o2 ->
  (forall v, In v out <-> In v o1 \/ In v o2) ->
  expands ps (fun v => own1 v \/ own2 v) a c out.
Proof.
  intros (A1 & A2 & A3 & A4 & A5 & A6 & A7 & A8)
         (B1 & B2 & B3 & B4 & B5 & B6 & B7 & B8) Hout.
  assert (Hi1 : incl o1 out) by (intros v Hv; apply Hout; now left).
  assert (Hi2 : incl o2 out) by (intros v Hv; apply Hout; now right).
  unfold expands. repeat apply conj.
  - intros x Hx. auto.
  - auto.
  - intros v Hv. apply Hout in Hv. destruct Hv as [Hv|Hv]; auto.
  - intros x Hx. destruct (added_split A1 Hx) as [H|H].
    + destruct (A4 x H) as (v & Hv & Ht). exists v. auto.
    + destruct (B4 x H) as (v & Hv & Ht). exists v. auto.
  - intros v Hv. apply Hout in Hv. destruct Hv as [Hv|Hv].
    + destruct (A5 v Hv) as [H|(m & Hm & Hy)]; [auto|].
      right. exists m. split; [|exact Hy]. now apply added_l with (b := b).
    + destruct (B5 v Hv) as [H|(m & Hm & Hy)]; [auto|].
      right. exists m. split; [|exact Hy]. now apply added_r with (b := b).
  - intros v [Hv|Hv]; auto.
  - intros m v Hm Hy. destruct (added_split A1 Hm) as [H|H]; eauto.
  - intros Hc x Hx. destruct (added_split A1 Hx) as [H|H].
    + destruct (A8 Hc x H) as (v & Hv & Hp). exists v. split; [auto|].
      destruct Hp as [Hp|Hp]; [auto|]. right. now apply path_incl with (o := o1).
    + destruct (B8 Hc x H) as (v & Hv & Hp). exists v. split; [auto|].
      destruct Hp as [Hp|Hp]; [auto|]. right. now apply path_incl with (o := o2).
Qed.

Lemma expands_vertex_known (vertex : Vertex Node Val) (nodes : list Node) :
  In (to_node vertex) nodes ->
  expands ps (eq vertex) nodes nodes [vertex].
Proof.
  intros Hin. unfold expands. repeat apply conj.
  - apply incl_refl.
  - auto.
  - intros v [<-|[]]. exact Hin.
  - intros x [? ?]; contradiction.
  - intros v [<-|[]]. now left.
  - intros v <-. now left.
  - intros m v [? ?]; contradiction.
  - intros _ x [? ?]; contradiction.
Qed.

Lemma expands_vertex_new (vertex : Vertex Node Val) (nodes nodes1 : list Node)
  (out1 : list (Vertex Node Val)) :
  ~ In (to_node vertex) nodes ->
  expands ps (yielded_by ps (to_node vertex))
          (nset_add (to_node vertex) nodes) nodes1 out1 ->
  expands ps (eq vertex) nodes nodes1 (out1 ++ [vertex]).
Proof.
  intros Hnew (B1 & B2 & B3 & B4 & B5 & B6 & B7 & B8).
  set (t := to_node vertex) in *.
  assert (Hi : incl nodes (nset_add t nodes))
    by (intros x Hx; apply nset_add_In; now left).
  assert (Ht : In t nodes1) by (apply B1, nset_add_In; now right).
  assert (Hsplit : forall x, added nodes nodes1 x ->
                             x = t \/ added (nset_add t nodes) nodes1 x).
  { intros x Hx. destruct (added_split Hi Hx) as [[H1 H2]|H]; [left|now right].
    apply nset_add_In in H1. destruct H1; [contradiction | assumption]. }
  assert (Hadd : added nodes nodes1 t) by now split.
  unfold expands. repeat apply conj.
  - intros x Hx. auto.
  - intros Hnd. now apply B2, nset_add_NoDup.
  - intros v Hv. apply in_app_iff in Hv. destruct Hv as [Hv|[<-|[]]]; auto.
  - intros x Hx. destruct (Hsplit x Hx) as [->|H].
    + exists vertex. split; [apply in_app_iff; right; now left | reflexivity].
    + destruct (B4 x H) as (v & Hv & Hx'). exists v. split; [|exact Hx'].
      apply in_app_iff. now left.
  - intros v Hv. apply in_app_iff in Hv. destruct Hv as [Hv|[<-|[]]]; [|now left].
    right. destruct (B5 v Hv) as [H|(m & Hm & Hy)].
    + exists t. auto.
    + exists m. split; [|exact Hy]. now apply added_r with (b := nset_add t nodes).
  - intros v <-. apply in_app_iff. right. now left.
  - intros m v Hm Hy. apply in_app_iff. left.
    destruct (Hsplit m Hm) as [->|H]; eauto.
  - intros Hc x Hx. exists vertex. split; [reflexivity|].
    destruct (Hsplit x Hx) as [->|H]; [now left|]. right.
    destruct (B8 Hc x H) as (w & Hw & Hp).
    assert (Hf : from_node w = t).
    { destruct Hw as (plugin & vs & Hpl & _ & Hvs & Hin). exact (Hc _ _ _ _ Hpl Hvs Hin). }
    apply path_incl with (o := out1); [intros v Hv; apply in_app_iff; now left|].
    fold t. rewrite <- Hf. destruct Hp as [<-|Hp].
    + apply path_edge. now apply B6.
    + apply path_step; [now apply B6 | exact Hp].
Qed.

Lemma expand_vertices_expands (recur : Node -> list Node -> Result (Yield Node Val)) :
  (forall n ns ns' o, recur n ns = Ok (ns', o) -> expands ps (yielded_by ps n) ns ns' o) ->
  forall vs nodes nodes' out,
    expand_vertices recur vs nodes = Ok (nodes', out) ->
    expands ps (fun v => In v vs) nodes nodes' out.
Proof.
  intros Hrec. induction vs as [|vertex vs IH]; intros nodes nodes' out H.
  - injection H as <- <-. apply expands_nil.
  - cbn [expand_vertices] in H.
    assert (Hstep : exists nodes1 out1 out2,
               expands ps (eq vertex) nodes nodes1 out1
               /\ expand_vertices recur vs nodes1 = Ok (nodes', out2)
               /\ forall v, In v out <-> In v out1 \/ In v out2).
    { destruct (nset_mem (to_node vertex) nodes) eqn:Em.
      - cbn [bind] in H.
        destruct (expand_vertices recur vs nodes) as [[nodes2 out2]|e] eqn:E2;
          [|discriminate].
        cbn [bind] in H. injection H as <- <-.
        exists nodes, [vertex], out2. split.
        + apply expands_vertex_known. exact (proj1 (@nset_mem_In Node node_ops _ _) Em).
        + split; [assumption|]. intros v. simpl. intuition.
      - destruct (recur (to_node vertex) (nset_add (to_node vertex) nodes))
          as [[nodes1 out1]|e] eqn:E1; [|discriminate].
        cbn [bind] in H.
        destruct (expand_vertices recur vs nodes1) as [[nodes2 out2]|e] eqn:E2;
          [|discriminate].
        cbn [bind] in H. injection H as <- <-.
        exists nodes1, (out1 ++ [vertex]), out2. split.
        + apply expands_vertex_new; [|now apply Hrec].
          intros Hin. apply (@nset_mem_In Node node_ops) in Hin. congruence.
        + split; [assumption|]. intros v. rewrite !in_app_iff. simpl. intuition. }
    destruct Hstep as (nodes1 & out1 & out2 & H1 & H2 & Hout).
    apply IH in H2.
    apply expands_own with (own := fun v => vertex = v \/ In v vs); [reflexivity|].
    exact (@expands_seq _ _ _ _ _ _ _ _ H1 H2 Hout).
Qed.

Lemma yielded_by_cons (plugin : Plugin Node Val) (ps' : list (Plugin Node Val))
  (node : Node) (v : Vertex Node Val) :
  yielded_by (plugin :: ps') node v
  <-> yielded_by [plugin] node v \/ yielded_by ps' node v.
Proof.
  unfold yielded_by. split.
  - intros (p & vs & [<-|Hp] & H).
    + left. exists plugin, vs. split; [now left | exact H].
    + right. exists p, vs. auto.
  - intros [(p & vs & [<-|[]] & H)|(p & vs & Hp & H)].
    + exists plugin, vs. split; [now left | exact H].
    + exists p, vs. split; [now right | exact H].
Qed.

Lemma yielded_by_incl (ps1 ps2 : list (Plugin Node Val)) (node : Node)
  (v : Vertex Node Val) :
  incl ps1 ps2 -> yielded_by ps1 node v -> yielded_by ps2 node v.
Proof. intros Hi (p & vs & Hp & H). exists p, vs. auto. Qed.

Lemma expand_plugins_expands (recur : Node -> list Node -> Result (Yield Node Val))
  (node : Node) :
  (forall n ns ns' o, recur n ns = Ok (ns', o) -> expands ps (yielded_by ps n) ns ns' o) ->
  forall ps' nodes nodes' out,
    expand_plugins recur node ps' nodes = Ok (nodes', out) ->
    expands ps (yielded_by ps' node) nodes nodes' out.
Proof.
  intros Hrec. induction ps' as [|plugin ps' IH]; intros nodes nodes' out H.
  - injection H as <- <-. apply expands_own with (own := fun _ => False).
    + intros v. split; [intros [] | intros (p & vs & [] & _)].
    + apply expands_nil.
  - cbn [expand_plugins] in H.
    destruct (can_create_vertex plugin node) as [applies|e] eqn:Ec; [|discriminate].
    cbn [bind] in H.
    assert (Hstep : exists nodes1 out1 out2,
               expands ps (yielded_by [plugin] node) nodes nodes1 out1
               /\ expand_plugins recur node ps' nodes1 = Ok (nodes', out2)
               /\ out = out1 ++ out2).
    { destruct applies.
      - destruct (Plugin_vertices plugin node) as [vs|e] eqn:Ev; [|discriminate].
        cbn [bind] in H.
        destruct (expand_vertices recur vs nodes) as [[nodes1 out1]|e] eqn:E1;
          [|discriminate].
        cbn [bind] in H.
        destruct (expand_plugins recur node ps' nodes1) as [[nodes2 out2]|e] eqn:E2;
          [|discriminate].
        cbn [bind] in H. injection H as <- <-.
        exists nodes1, out1, out2. split; [|auto].
        apply expands_own with (own := fun v => In v vs).
        + intros v. split.
          * intros Hv. exists plugin, vs. split; [now left | auto].
          * intros (p & vs' & [<-|[]] & _ & Hvs & Hv). congruence.
        + now apply expand_vertices_expands with (recur := recur).
      - cbn [bind] in H.
        destruct (expand_plugins recur node ps' nodes) as [[nodes2 out2]|e] eqn:E2;
          [|discriminate].
        cbn [bind] in H. injection H as <- <-.
        exists nodes, [], out2. split; [|auto].
        apply expands_own with (own := fun _ => False); [|apply expands_nil].
        intros v. split; [intros []|].
        intros (p & vs' & [<-|[]] & Hp & _). congruence. }
    destruct Hstep as (nodes1 & out1 & out2 & H1 & H2 & ->).
    apply IH in H2.
    apply expands_own
      with (own := fun v => yielded_by [plugin] node v \/ yielded_by ps' node v).
    + intros v. symmetry. apply yielded_by_cons.
    + apply (@expands_seq _ _ _ _ _ _ _ _ H1 H2). intros v. apply in_app_iff.
Qed.

Lemma build_vertices_expands (depth : nat) :
  forall node nodes nodes' out,
    build_vertices ps depth node nodes = Ok (nodes', out) ->
    expands ps (yielded_by ps node) nodes nodes' out.
Proof.
  induction depth as [|d IH]; intros node nodes nodes' out H; [discriminate|].
  cbn [build_vertices] in H.
  exact (@expand_plugins_expands (build_vertices ps d) node IH ps nodes nodes' out H).
Qed.

Lemma generate_loop_expands (depth : nat) :
  forall pending nodes nodes' out,
    generate_loop ps depth pending nodes = Ok (nodes', out) ->
    expands ps (fun v => exists s, In s pending /\ yielded_by ps s v) nodes nodes' out.
Proof.
  induction pending as [|node pending IH]; intros nodes nodes' out H.
  - injection H as <- <-. apply expands_own with (own := fun _ => False).
    + intros v. split; [intros [] | intros (s & [] & _)].
    + apply expands_nil.
  - cbn [generate_loop] in H.
    destruct (build_vertices ps depth node nodes) as [[nodes1 out1]|e] eqn:E1;
      [|discriminate].
    cbn [bind] in H.
    destruct (generate_loop ps depth pending nodes1) as [[nodes2 out2]|e] eqn:E2;
      [|discriminate].
    cbn [bind] in H. injection H as <- <-.
    apply build_vertices_expands in E1. apply IH in E2.
    apply expands_own
      with (own := fun v => yielded_by ps node v
                            \/ exists s, In s pending /\ yielded_by ps s v).
    + intros v. split.
      * intros [H|(s & Hs & H)]; [exists node | exists s]; split; auto;
          [now left | now right].
      * intros (s & [<-|Hs] & H); [now left | right; eauto].
    + apply (@expands_seq _ _ _ _ _ _ _ _ E1 E2). intros v. apply in_app_iff.
Qed.

Lemma DependencyGraph_init_discovered (depth : nat) (seeds : list Node)
  (g : DependencyGraph Node Val) :
  DependencyGraph_init depth seeds ps = Ok g ->
  exists generated,
    generate_vertices ps depth (nset_of_list seeds) = Ok (nodes g, generated)
    /\ vertices g = vset_of_list generated.
Proof.
  unfold DependencyGraph_init. intros H.
  destruct (generate_vertices ps depth (nset_of_list seeds)) as [[ns generated]|e];
    [|discriminate].
  cbn [bind] in H. destruct (is_acyclic _) as [[|]|e]; try discriminate.
  cbn [bind] in H. injection H as <-. exists generated. auto.
Qed.

Lemma vset_fold_mem (l acc : list (Vertex Node Val)) (v : Vertex Node Val) :
  vset_mem v (fold_left (fun s v => vset_add v s) l acc)
  = vset_mem v acc || existsb (Vertex_eq v) l.
Proof.
  revert acc. induction l as [|w l IH]; intros acc; simpl.
  - now rewrite orb_false_r.
  - rewrite IH, (@vset_mem_add Node node_ops Val). now rewrite orb_assoc.
Qed.

Lemma vset_of_list_mem (l : list (Vertex Node Val)) (v : Vertex Node Val) :
  vset_mem v (vset_of_list l) = vset_mem v l.
Proof. unfold vset_of_list. rewrite vset_fold_mem. reflexivity. Qed.

Lemma Vertex_eq_ends (v w : Vertex Node Val) :
  Vertex_eq v w = true -> from_node v = from_node w /\ to_node v = to_node w.
Proof.
  intros H. apply (@Vertex_eq_key Node node_ops Val) in H. unfold Vertex_key in H.
  injection H as _ Hf Ht. auto.
Qed.

Lemma vset_of_list_kept (l : list (Vertex Node Val)) (v : Vertex Node Val) :
  In v l ->
  exists w, In w (vset_of_list l) /\ Vertex_eq v w = true.
Proof.
  intros Hv. apply (@vset_mem_exists Node node_ops Val). rewrite vset_of_list_mem.
  apply (@vset_mem_exists Node node_ops Val). exists v.
  split; [exact Hv | apply (@Vertex_eq_refl Node node_ops Val)].
Qed.

Lemma path_vset_of_list (l : list (Vertex Node Val)) (a b : Node) :
  path l a b <-> path (vset_of_list l) a b.
Proof.
  split.
  - intros H. induction H as [v Hv|v m Hv Hp IH].
    + destruct (vset_of_list_kept _ _ Hv) as (w & Hw & He).
      apply Vertex_eq_ends in He. destruct He as [-> ->]. now apply path_edge.
    + destruct (vset_of_list_kept _ _ Hv) as (w & Hw & He).
      apply Vertex_eq_ends in He. destruct He as [Hf Ht]. rewrite Hf.
      apply path_step; [exact Hw|]. now rewrite <- Ht.
  - apply path_incl. intros v. apply (@vset_of_list_In Node node_ops Val).
Qed.

Lemma discovered_expands (depth : nat) (seeds ns : list Node)
  (vs : list (Vertex Node Val)) :
  discovers depth seeds ps ns vs ->
  exists generated,
    vs = vset_of_list generated
    /\ NoDup (nset_of_list seeds)
    /\ (forall s, In s (nset_of_list seeds) <-> In s seeds)
    /\ expands ps (fun v => exists s, In s seeds /\ yielded_by ps s v)
               (nset_of_list seeds) ns generated.
Proof.
  intros (pending & generated & Hp & Hg & Hv). exists generated.
  assert (Hs : forall s, In s (nset_of_list seeds) <-> In s seeds).
  { intros s. unfold nset_of_list. rewrite nset_fold_In. simpl. intuition. }
  split; [exact Hv|]. split; [apply nset_fold_NoDup; constructor|]. split; [exact Hs|].
  apply generate_loop_expands in Hg.
  revert Hg. apply expands_own. intros v.
  split; intros (s & Hin & Hy); exists s; split; auto.
  - apply Hs. exact (Permutation_in _ (Permutation_sym Hp) Hin).
  - apply (Permutation_in _ Hp). now apply Hs.
Qed.

(** X6: the nodes at the end of discovery, in whatever order the seeds are
    popped and whatever [is_acyclic] answers then: every seed is a node, no
    node is listed twice, and a node that is not a seed is the [to_node] of
    an edge. *)
Theorem discovered_nodes (depth : nat) (seeds ns : list Node)
  (vs : list (Vertex Node Val)) :
  discovers depth seeds ps ns vs ->
  (forall s, In s seeds -> In s ns)
  /\ NoDup ns
  /\ forall n, In n ns ->
       In n seeds \/ exists v, In v vs /\ to_node v = n.
Proof.
  intros H.
  destruct (@discovered_expands depth seeds ns vs H) as (generated & Hv & Hnd & Hs & He).
  destruct He as (E1 & E2 & E3 & E4 & _).
  split; [intros s Hin; now apply E1, Hs|]. split; [auto|].
  intros n Hn. destruct (In_node_dec n (nset_of_list seeds)) as [Hin|Hout].
  - left. now apply Hs.
  - right. destruct (E4 n (conj Hn Hout)) as (v & Hin & Ht).
    destruct (vset_of_list_kept _ _ Hin) as (w & Hw & Heq).
    exists w. rewrite Hv. split; [exact Hw|].
    apply Vertex_eq_ends in Heq. destruct Heq as [_ <-]. exact Ht.
Qed.

(** X7: the edges at the end of discovery, in whatever order the seeds are
    popped and whatever [is_acyclic] answers then, are, up to
    [Vertex.__eq__], the vertices that the applicable plugins yield for the
    nodes discovered: all of them, nothing else, each triple once.  Every
    node was expanded. *)
Theorem discovered_edges (depth : nat) (seeds ns : list Node)
  (vs : list (Vertex Node Val)) :
  discovers depth seeds ps ns vs ->
  vset_distinct vs = true
  /\ forall v,
       vset_mem v vs = true
       <-> exists n w, In n ns /\ yielded_by ps n w /\ Vertex_eq v w = true.
Proof.
  intros H.
  destruct (@discovered_expands depth seeds ns vs H) as (generated & Hv & Hnd & Hs & He).
  destruct He as (E1 & _ & _ & _ & E5 & E6 & E7 & _).
  split.
  - rewrite Hv. exact (proj1 (@vset_fold_add Node node_ops Val generated [] eq_refl)).
  - intros v. rewrite Hv, vset_of_list_mem. split.
    + intros Hm. apply (@vset_mem_exists Node node_ops Val) in Hm.
      destruct Hm as (w & Hw & Heq).
      destruct (E5 w Hw) as [(s & Hin & Hy)|(m & [Hm _] & Hy)].
      * exists s, w. split; [now apply E1, Hs | auto].
      * exists m, w. auto.
    + intros (n & w & Hn & Hy & Heq). apply (@vset_mem_exists Node node_ops Val). exists w.
      split; [|exact Heq].
      destruct (In_node_dec n (nset_of_list seeds)) as [Hin|Hout].
      * apply E6. exists n. split; [now apply Hs | exact Hy].
      * apply (E7 n). -- now split. -- exact Hy.
Qed.

(** X8: when every plugin yields, for a node, vertices that start at that
    node, every node at the end of discovery (in whatever order the seeds
    are popped, whatever [is_acyclic] answers then) is a seed or can be
    reached from a seed along the edges discovered. *)
Theorem discovered_reachable (depth : nat) (seeds ns : list Node)
  (vs : list (Vertex Node Val)) :
  starts_at_node ps ->
  discovers depth seeds ps ns vs ->
  forall n, In n ns ->
    In n seeds \/ exists s, In s seeds /\ path vs s n.
Proof.
  intros Hc H n Hn.
  destruct (@discovered_expands depth seeds ns vs H) as (generated & Hv & Hnd & Hs & He).
  destruct He as (_ & _ & _ & _ & _ & E6 & _ & E8).
  destruct (In_node_dec n (nset_of_list seeds)) as [Hin|Hout].
  - left. now apply Hs.
  - right. destruct (E8 Hc n (conj Hn Hout)) as (v & (s & Hin & Hy) & Hp).
    exists s. split; [exact Hin|]. rewrite Hv.
    apply (proj1 (path_vset_of_list generated s n)).
    assert (Hf : from_node v = s).
    { destruct Hy as (plugin & l & Hpl & _ & Hvs & Hvin). exact (Hc _ _ _ _ Hpl Hvs Hvin). }
    assert (Hg : In v generated) by (apply E6; eauto).
    rewrite <- Hf. destruct Hp as [<-|Hp].
    + now apply path_edge.
    + now apply path_step.
Qed.

End DiscoveryFacts.

(** ** More on cycle detection and on construction *)

Section ConstructionFacts.

Variable Node : Type.
Context {node_ops : PyNode Node}.
Variable Val : Type.

(** X10: [Plugin.vertices] of the base class raises
    [NotImplementedError], and the base plugin applies to every node: a
    graph whose first plugin is a bare [Plugin] cannot be constructed from
    any seed. *)
Theorem base_plugin_not_implemented (depth : nat) (seed : Node) (seeds : list Node)
  (ps : list (Plugin Node Val)) :
  DependencyGraph_init (S depth) (seed :: seeds) (Plugin_base Node Val :: ps)
  = Raise NotImplementedError.
Proof.
  unfold DependencyGraph_init, generate_vertices.
  destruct (rev (nset_of_list (seed :: seeds))) as [|node pending] eqn:E.
  - exfalso. apply (f_equal (@rev Node)) in E. rewrite rev_involutive in E. simpl in E.
    assert (H : In seed (nset_of_list (seed :: seeds))).
    { unfold nset_of_list. apply (@nset_fold_In Node node_ops). right. now left. }
    rewrite E in H. exact H.
  - reflexivity.
Qed.

(** *** Call depth *)

Lemma expand_vertices_stable (recur recur' : Node -> list Node -> Result (Yield Node Val)) :
  (forall n ns, recur n ns <> Raise RecursionError -> recur' n ns = recur n ns) ->
  forall vs nodes,
    expand_vertices recur vs nodes <> Raise RecursionError ->
    expand_vertices recur' vs nodes = expand_vertices recur vs nodes.
Proof.
  intros Hrec. induction vs as [|vertex vs IH]; intros nodes H; [reflexivity|].
  cbn [expand_vertices] in *.
  destruct (nset_mem (to_node vertex) nodes).
  - cbn [bind] in *. rewrite IH; [reflexivity|].
    intros E. rewrite E in H. now apply H.
  - assert (Hr : recur (to_node vertex) (nset_add (to_node vertex) nodes)
                 <> Raise RecursionError).
    { intros E. rewrite E in H. now apply H. }
    rewrite (Hrec _ _ Hr).
    destruct (recur (to_node vertex) (nset_add (to_node vertex) nodes))
      as [[nodes1 out1]|e]; [|reflexivity].
    cbn [bind] in *. rewrite IH; [reflexivity|].
    intros E. rewrite E in H. now apply H.
Qed.

Lemma expand_plugins_stable (recur recur' : Node -> list Node -> Result (Yield Node Val))
  (node : Node) :
  (forall n ns, recur n ns <> Raise RecursionError -> recur' n ns = recur n ns) ->
  forall ps nodes,
    expand_plugins recur node ps nodes <> Raise RecursionError ->
    expand_plugins recur' node ps nodes = expand_plugins recur node ps nodes.
Proof.
  intros Hrec. induction ps as [|plugin ps IH]; intros nodes H; [reflexivity|].
  cbn [expand_plugins] in *.
  destruct (can_create_vertex plugin node) as [[|]|e]; [| |reflexivity].
  - cbn [bind] in *.
    destruct (Plugin_vertices plugin node) as [vs|e]; [|reflexivity].
    cbn [bind] in *.
    assert (Hv : expand_vertices recur vs nodes <> Raise RecursionError).
    { intros E. rewrite E in H. now apply H. }
    rewrite (@expand_vertices_stable recur recur' Hrec vs nodes Hv).
    destruct (expand_vertices recur vs nodes) as [[nodes1 out1]|e]; [|reflexivity].
    cbn [bind] in *. rewrite IH; [reflexivity|].
    intros E. rewrite E in H. now apply H.
  - cbn [bind] in *. rewrite IH; [reflexivity|].
    intros E. rewrite E in H. now apply H.
Qed.

Lemma build_vertices_stable (ps : list (Plugin Node Val)) (depth : nat) :
  forall node nodes,
    build_vertices ps depth node nodes <> Raise RecursionError ->
    build_vertices ps (S depth) node nodes = build_vertices ps depth node nodes.
Proof.
  induction depth as [|d IH]; intros node nodes H; [now contradiction H|].
  change (expand_plugins (build_vertices ps (S d)) node ps nodes
          = expand_plugins (build_vertices ps d) node ps nodes).
  apply expand_plugins_stable; [exact IH | exact H].
Qed.

Lemma generate_loop_stable (ps : list (Plugin Node Val)) (depth : nat) :
  forall pending nodes,
    generate_loop ps depth pending nodes <> Raise RecursionError ->
    generate_loop ps (S depth) pending nodes = generate_loop ps depth pending nodes.
Proof.
  induction pending as [|node pending IH]; intros nodes H; [reflexivity|].
  cbn [generate_loop] in *.
  assert (Hb : build_vertices ps depth node nodes <> Raise RecursionError).
  { intros E. rewrite E in H. now apply H. }
  rewrite (@build_vertices_stable ps depth node nodes Hb).
  destruct (build_vertices ps depth node nodes) as [[nodes1 out1]|e]; [|reflexivity].
  cbn [bind] in *. rewrite IH; [reflexivity|].
  intros E. rewrite E in H. now apply H.
Qed.

Lemma is_acyclic_no_RecursionError (ns : list Node) (vs : list (Vertex Node Val)) :
  is_acyclic_sets ns vs <> Raise RecursionError.
Proof.
  destruct (@is_acyclic_terminates Node node_ops Val ns vs) as [[b ->]| ->]; discriminate.
Qed.

Lemma DependencyGraph_init_stable (ps : list (Plugin Node Val)) (seeds : list Node)
  (depth : nat) :
  DependencyGraph_init depth seeds ps <> Raise RecursionError ->
  DependencyGraph_init (S depth) seeds ps = DependencyGraph_init depth seeds ps.
Proof.
  unfold DependencyGraph_init, generate_vertices. intros H.
  assert (Hg : generate_loop ps depth (rev (nset_of_list seeds)) (nset_of_list seeds)
               <> Raise RecursionError).
  { intros E. rewrite E in H. now apply H. }
  now rewrite (@generate_loop_stable ps depth _ _ Hg).
Qed.

Lemma dependencies_loop_stable (recur recur' : Node -> Result (list Node))
  (follow : bool) (l : list (Vertex Node Val)) (out : list Node) :
  (forall n sub, recur n = Ok sub -> recur' n = Ok sub) ->
  dependencies_loop recur follow l = Ok out ->
  dependencies_loop recur' follow l = Ok out.
Proof.
  intros Hrec. revert out. induction l as [|v l IH]; intros out H; [exact H|].
  cbn [dependencies_loop] in *. destruct follow.
  - destruct (recur (to_node v)) as [sub|e] eqn:Er; [|discriminate].
    rewrite (Hrec _ _ Er). cbn [bind] in *.
    destruct (dependencies_loop recur true l) as [rest|e]; [|discriminate].
    now rewrite (IH rest eq_refl).
  - cbn [bind] in *.
    destruct (dependencies_loop recur false l) as [rest|e]; [|discriminate].
    now rewrite (IH rest eq_refl).
Qed.

Lemma dependencies_in_stable (vs : list (Vertex Node Val)) (follow : bool) (depth : nat) :
  forall node out,
    dependencies_in vs depth node follow = Ok out ->
    dependencies_in vs (S depth) node follow = Ok out.
Proof.
  induction depth as [|d IH]; intros node out H; [discriminate|].
  change (dependencies_loop (fun n => dependencies_in vs (S d) n follow) follow
            (filter (fun v => node_eqb (from_node v) node) vs) = Ok out).
  apply dependencies_loop_stable with (recur := fun n => dependencies_in vs d n follow).
  - intros n sub. apply IH.
  - exact H.
Qed.

(** X9: the number of nested calls available matters only through
    [RecursionError]: a construction that ends otherwise (with a graph or
    with another exception) ends the same way with any larger number, and a
    query that returns returns the same list. *)
Theorem deeper_calls_same_answer (depth more : nat) :
  (forall ps seeds,
      DependencyGraph_init depth seeds ps <> Raise RecursionError ->
      DependencyGraph_init (Val := Val) (depth + more) seeds ps
      = DependencyGraph_init depth seeds ps)
  /\ (forall (vs : list (Vertex Node Val)) node follow out,
        dependencies_in vs depth node follow = Ok out ->
        dependencies_in vs (depth + more) node follow = Ok out).
Proof.
  split.
  - intros ps seeds H. induction more as [|k IH]; [now rewrite Nat.add_0_r|].
    rewrite Nat.add_succ_r, DependencyGraph_init_stable; [exact IH|].
    now rewrite IH.
  - intros vs node follow out H. induction more as [|k IH]; [now rewrite Nat.add_0_r|].
    rewrite Nat.add_succ_r. now apply dependencies_in_stable.
Qed.

(** *** What an accepted graph looks like *)

Lemma vset_distinct_NoDup (s : list (Vertex Node Val)) :
  vset_distinct s = true -> NoDup s.
Proof.
  induction s as [|v s IH]; intros H; [constructor|].
  cbn [vset_distinct] in H. apply andb_true_iff in H. destruct H as [Hv Hs].
  constructor; [|now apply IH]. intros Hin. apply negb_true_iff in Hv.
  assert (vset_mem v s = true); [|congruence].
  apply (@vset_mem_exists Node node_ops Val). exists v.
  split; [exact Hin | apply (@Vertex_eq_refl Node node_ops Val)].
Qed.

Lemma eliminate_invariant (Inv : list Node -> list (Vertex Node Val) -> Prop)
  (c f : Index Node Val) :
  (forall node stack deleted outgoing stack' deleted',
      Inv (node :: stack) deleted ->
      index_get node f = Ok outgoing ->
      delete_connected c node (vset_diff outgoing deleted) stack deleted
      = Ok (stack', deleted') ->
      Inv stack' deleted') ->
  forall fuel stack deleted final,
    eliminate fuel c f stack deleted = Ok final ->
    Inv stack deleted -> Inv [] final.
Proof.
  intros Hstep. induction fuel as [|fuel IH]; intros stack deleted final H Hinv;
    destruct stack as [|node stack]; cbn [eliminate] in H;
    try (injection H as <-; exact Hinv); try discriminate.
  destruct (index_get node f) as [outgoing|e] eqn:Ho; [|discriminate].
  cbn [bind] in H.
  destruct (delete_connected c node (vset_diff outgoing deleted) stack deleted)
    as [[stack' deleted']|e] eqn:Hd; [|discriminate].
  cbn [bind] in H. apply (IH _ _ _ H). exact (Hstep _ _ _ _ _ _ Hinv Ho Hd).
Qed.

Lemma path_end_In (ns : list Node) (vs : list (Vertex Node Val)) (a b : Node) :
  (forall v, In v vs -> In (from_node v) ns /\ In (to_node v) ns) ->
  path vs a b -> In b ns.
Proof.
  intros Hends H. induction H as [v Hv|v m Hv Hp IH]; [apply Hends, Hv | exact IH].
Qed.

Lemma below_root_step (ns : list Node) (vs : list (Vertex Node Val))
  (e : Vertex Node Val) :
  In e vs -> below_root ns vs (from_node e) -> below_root ns vs (to_node e).
Proof.
  intros He (r & Hr & Hroot & Hp). exists r. split; [exact Hr|]. split; [exact Hroot|].
  right. destruct Hp as [->|Hp].
  - now apply path_edge.
  - now apply (@path_snoc Node Val).
Qed.

Lemma delete_connected_below (ns : list Node) (vs : list (Vertex Node Val))
  (c : Index Node Val) (node : Node) :
  forall connected stack deleted stack' deleted',
    (forall e, In e connected -> In e vs /\ below_root ns vs (from_node e)) ->
    (forall n, In n stack -> below_root ns vs n) ->
    (forall e, In e deleted -> In e vs /\ below_root ns vs (from_node e)) ->
    vset_distinct deleted = true ->
    delete_connected c node connected stack deleted = Ok (stack', deleted') ->
    (forall n, In n stack' -> below_root ns vs n)
    /\ (forall e, In e deleted' -> In e vs /\ below_root ns vs (from_node e))
    /\ vset_distinct deleted' = true.
Proof.
  induction connected as [|e connected IH];
    intros stack deleted stack' deleted' Hc Hst Hdel Hd H.
  - injection H as <- <-. auto.
  - cbn [delete_connected] in H.
    destruct (index_get node c) as [incoming|err]; [|discriminate].
    cbn [bind] in H. apply IH in H; auto.
    + intros e' He'. apply Hc. now right.
    + destruct (Hc e (or_introl eq_refl)) as [He Hb].
      destruct (vset_diff incoming (vset_add e deleted)); [|exact Hst].
      intros n [<-|Hn]; [now apply below_root_step | auto].
    + intros e' He'. unfold vset_add in He'.
      destruct (vset_mem e deleted); [auto|].
      apply in_app_iff in He'. destruct He' as [He'|[<-|[]]]; [auto|].
      apply Hc. now left.
    + now apply (@vset_distinct_add Node node_ops Val).
Qed.

Lemma accepted_below_roots (ns : list Node) (vs : list (Vertex Node Val)) :
  NoDup vs ->
  is_acyclic_sets ns vs = Ok true ->
  forall v, In v vs -> below_root ns vs (from_node v).
Proof.
  intros Hnd Hok.
  pose proof (@is_acyclic_sets_endpoints Node node_ops Val ns vs true Hok) as Hends.
  revert Hok. unfold is_acyclic_sets.
  destruct (@is_acyclic_indexes Node node_ops Val ns vs Hends) as (c & f & Hb & Hget).
  rewrite Hb. cbn [bind].
  rewrite (@ready_nodes_filter _ _ _ c
             (fun n => vset_of_list (filter (fun v => node_eqb (to_node v) n) vs)))
    by (intros n Hn; apply Hget, Hn).
  cbn [bind]. rewrite app_nil_r.
  set (stack := rev (filter _ ns)).
  destruct (eliminate (List.length ns + List.length vs) c f stack [])
    as [final|e] eqn:He; [|discriminate].
  cbn [bind]. intros Hlen. injection Hlen as Hlen. apply Nat.eqb_eq in Hlen.
  pose (Inv := fun (stack : list Node) (deleted : list (Vertex Node Val)) =>
                 (forall n, In n stack -> below_root ns vs n)
                 /\ (forall e, In e deleted -> In e vs /\ below_root ns vs (from_node e))
                 /\ vset_distinct deleted = true).
  assert (Hfinal : Inv [] final).
  { refine (@eliminate_invariant Inv c f _ _ _ _ _ He _).
    - intros node st deleted outgoing st' deleted' (I1 & I2 & I3) Ho Hd.
      assert (Hnode : below_root ns vs node) by (apply I1; now left).
      assert (Hin : In node ns).
      { destruct Hnode as (r & Hr & _ & [<-|Hp]); [exact Hr|].
        exact (path_end_In ns Hends Hp). }
      rewrite (proj2 (Hget node Hin)) in Ho. injection Ho as <-.
      apply (fun Hc Hst => @delete_connected_below ns vs c node _ st deleted st' deleted'
                               Hc Hst I2 I3 Hd).
      + intros e He'. apply filter_In in He'. destruct He' as [He' _].
        apply (@vset_of_list_In Node node_ops Val), filter_In in He'.
        destruct He' as [He' Hf]. apply node_eqb_spec in Hf.
        split; [exact He'|]. now rewrite Hf.
      + intros n Hn. apply I1. now right.
    - split; [|split; [intros e []|reflexivity]].
      intros n Hn. apply in_rev, filter_In in Hn. destruct Hn as [Hn Hz].
      exists n. split; [exact Hn|]. split; [|now left].
      intros w Hw Ht. apply Nat.eqb_eq in Hz.
      apply (@vset_of_list_nonempty Node node_ops Val) in Hz; [exact Hz|].
      intros E.
      assert (Hw' : In w (filter (fun v => node_eqb (to_node v) n) vs)).
      { apply filter_In. split; [exact Hw|]. now apply node_eqb_spec. }
      rewrite E in Hw'. exact Hw'. }
  destruct Hfinal as (_ & F2 & F3).
  assert (Hincl : incl vs final).
  { apply NoDup_length_incl.
    - now apply vset_distinct_NoDup.
    - lia.
    - intros e He'. now apply F2. }
  intros v Hv. now apply F2, Hincl.
Qed.

(** X2: when [is_acyclic] returns [True], every edge starts at a node
    without incoming edge or at a node that can be reached from one: a cycle
    that no such node leads to is always detected. *)
Theorem accepted_edges_below_roots (ns : list Node) (vs : list (Vertex Node Val)) :
  NoDup vs ->
  is_acyclic_sets ns vs = Ok true ->
  forall v, In v vs -> below_root ns vs (from_node v).
Proof. apply accepted_below_roots. Qed.

End ConstructionFacts.

(** ** Examples *)

(** [StaticDependencies] yields vertices that start at the node it is asked
    about. *)
Lemma static_starts_at_node {Node : Type} {node_ops : PyNode Node}
  (deps : list (Node * list Node)) :
  starts_at_node (static_plugins deps).
Proof.
  intros plugin node vs v [<-|[]] Hvs Hv. cbn [StaticDependencies Plugin_vertices] in Hvs.
  rewrite (@StaticDependencies_vertices_map Node node_ops unit) in Hvs. injection Hvs as <-.
  apply in_map_iff in Hv. destruct Hv as (sub & <- & _). reflexivity.
Qed.

(** X4: the verdict of [is_acyclic] is not determined by the graph: on the
    acyclic graph [A -> B], [A -> Y], [Y -> B], [B -> D], [D -> E] it is
    [True] for one iteration order of the set of edges and [False] for
    another (when [B] is popped before [Y], the edge [Y -> B] is still there
    and [D] is never pushed). *)
Theorem is_acyclic_depends_on_order :
  exists ns vs vs',
    discovered recursion_limit ["A"] (static_plugins diamond_deps) = Ok (ns, vs)
    /\ acyclic vs
    /\ Permutation vs vs'
    /\ is_acyclic_sets ns vs = Ok true
    /\ is_acyclic_sets ns vs' = Ok false.
Proof.
  pose (rank := fun n : string =>
          if String.eqb n "Y" then 1
          else if String.eqb n "B" then 2
          else if String.eqb n "D" then 3
          else if String.eqb n "E" then 4 else 0).
  eexists. eexists.
  exists [static_edge "D" "E"; static_edge "B" "D"; static_edge "Y" "B";
          static_edge "A" "Y"; static_edge "A" "B"].
  split; [vm_compute; reflexivity|].
  split; [apply (@ranked_acyclic _ _ rank); intros v Hv; simpl in Hv;
          intuition (subst; vm_compute; lia)|].
  split; [unfold static_edge; perm_solve|].
  split; vm_compute; reflexivity.
Qed.

(** Witness for X19: the field [real] of the numbers 5, against 3. *)
Lemma BaseFilter_match_operators_witness :
  let run := BaseFilter_match num_getattr num_is_none
               (num_compare (fun x y => y <? x)) (num_compare (fun x y => y <=? x))
               (num_compare Nat.ltb) (num_compare Nat.leb)
               (num_compare (fun x y => negb (x =? y))) (num_compare Nat.eqb) in
  occurs "__" "real" = false /\ endswith "real" "_" = false
  /\ run "real__gt" (Some 3) (Some 5) = Ok true
  /\ run "real__gte" (Some 3) (Some 5) = Ok true
  /\ run "real__lt" (Some 3) (Some 5) = Ok false
  /\ run "real__lte" (Some 3) (Some 5) = Ok false
  /\ run "real__ne" (Some 3) (Some 5) = Ok true
  /\ run "real" (Some 3) (Some 5) = Ok false.
Proof.
  split; [reflexivity|]. split; [reflexivity|].
  exact (@BaseFilter_match_operators (option nat) num_getattr num_is_none
           (num_compare (fun x y => y <? x)) (num_compare (fun x y => y <=? x))
           (num_compare Nat.ltb) (num_compare Nat.leb)
           (num_compare (fun x y => negb (x =? y))) (num_compare Nat.eqb)
           "real" (Some 3) (Some 5) eq_refl eq_refl).
Defined.

(** Witness for X15: a plugin for [.c] and [.py] files, on a file. *)
Lemma can_create_vertex_suffixes_witness :
  node_name (mkFile "main.py") = Some "main.py"
  /\ exists applies,
       can_create_vertex (mkPlugin (Val := unit) (ExtSeq [".c"; ".py"]) (fun _ => Ok []))
                         (mkFile "main.py") = Ok applies
       /\ (applies = true <->
           exists file_ext p,
             In file_ext [".c"; ".py"] /\ "main.py" = (p ++ file_ext)%string).
Proof.
  split; [reflexivity|].
  exact (@can_create_vertex_suffixes File file_node unit
           (mkPlugin (ExtSeq [".c"; ".py"]) (fun _ => Ok [])) (mkFile "main.py") "main.py"
           eq_refl).
Defined.

(** Witness for X16: a plugin for [.py] files, on the string ["main.py"]. *)
Lemma can_create_vertex_needs_name_witness :
  node_name "main.py" = None
  /\ can_create_vertex (mkPlugin (Val := unit) (ExtStr ".py") (fun _ => Ok [])) "main.py"
     = Raise AttributeError
  /\ forall nodes,
       build_vertices [mkPlugin (Val := unit) (ExtStr ".py") (fun _ => Ok [])] 1
                      "main.py" nodes
       = Raise AttributeError.
Proof.
  split; [reflexivity|].
  destruct (@can_create_vertex_needs_name string str_node unit
              (mkPlugin (ExtStr ".py") (fun _ => Ok [])) "main.py" 0 [] eq_refl)
    as [H1 H2].
  split; [exact H1|]. exact (H2 H1).
Defined.

(** Witness for X12: the chain [A -> B -> C]. *)
Lemma dependencies_reachable_witness :
  dependencies_in [static_edge "A" "B"; static_edge "B" "C"] 3 "A" true = Ok ["B"; "C"]
  /\ forall x, In x ["B"; "C"]
               <-> path [static_edge "A" "B"; static_edge "B" "C"] "A" x.
Proof.
  split; [reflexivity|].
  exact (@dependencies_reachable string str_node unit
           [static_edge "A" "B"; static_edge "B" "C"] 3 "A" ["B"; "C"] eq_refl).
Defined.

(** Witness for X13: [A -> B], and the cycle [B -> C -> B]. *)
Lemma dependencies_cycle_raises_witness :
  path [static_edge "A" "B"; static_edge "B" "C"; static_edge "C" "B"] "A" "B"
  /\ path [static_edge "A" "B"; static_edge "B" "C"; static_edge "C" "B"] "B" "B"
  /\ forall depth,
       dependencies_in [static_edge "A" "B"; static_edge "B" "C"; static_edge "C" "B"]
                       depth "A" true = Raise RecursionError.
Proof.
  assert (H1 : path [static_edge "A" "B"; static_edge "B" "C"; static_edge "C" "B"]
                    "A" "B").
  { apply (@path_edge string unit _ (static_edge "A" "B")). simpl. auto. }
  assert (H2 : path [static_edge "A" "B"; static_edge "B" "C"; static_edge "C" "B"]
                    "B" "B").
  { apply (@path_step string unit _ (static_edge "B" "C")); [simpl; auto|].
    apply (@path_edge string unit _ (static_edge "C" "B")). simpl. auto. }
  split; [exact H1|]. split; [exact H2|].
  exact (@dependencies_cycle_raises string str_node unit _ "A" "B" (or_intror H1) H2).
Defined.

(** Witness for X14: the chain [0 -> 1 -> 2], with three nested calls. *)
Lemma dependencies_acyclic_returns_witness :
  (forall x, (x = 0 \/ path (chain_edges 2) 0 x) -> ~ path (chain_edges 2) x x)
  /\ List.length (chain_edges 2) < 3
  /\ exists out,
       dependencies_in (chain_edges 2) 3 0 true = Ok out
       /\ forall x, In x out <-> path (chain_edges 2) 0 x.
Proof.
  assert (H : forall x, (x = 0 \/ path (chain_edges 2) 0 x) -> ~ path (chain_edges 2) x x).
  { intros x _. apply (@ranked_acyclic nat unit (fun n => n)).
    intros v Hv. simpl in Hv. intuition (subst; simpl; lia). }
  split; [exact H|]. split; [simpl; lia|].
  apply (@dependencies_acyclic_returns nat int_node unit (chain_edges 2) 0 3 H).
  simpl. lia.
Defined.

(** Witness for X3: the graph of [test_circular_dependency], [A -> C],
    [A -> D], [D -> A]. *)
Lemma no_root_rejected_witness :
  let ns := ["A"; "C"; "D"] in
  let vs := [static_edge "A" "C"; static_edge "A" "D"; static_edge "D" "A"] in
  path vs "A" "A" /\ is_acyclic_sets ns vs = Ok false.
Proof.
  split.
  - apply (@path_step string unit _ (static_edge "A" "D")); [simpl; auto|].
    apply (@path_edge string unit _ (static_edge "D" "A")). simpl. auto.
  - apply (@no_root_rejected string str_node unit).
    + discriminate.
    + intros v Hv. simpl in Hv. simpl. intuition (subst; simpl; auto).
    + intros n Hn. simpl in Hn.
      destruct Hn as [<-|[<-|[<-|[]]]];
        [exists (static_edge "D" "A") | exists (static_edge "A" "C")
         | exists (static_edge "A" "D")]; simpl; auto.
Defined.

(** Witness for X2: the chain [0 -> 1 -> 2], whose root is [0]. *)
Lemma accepted_edges_below_roots_witness :
  NoDup (chain_edges 2)
  /\ is_acyclic_sets [0; 1; 2] (chain_edges 2) = Ok true
  /\ forall v, In v (chain_edges 2) -> below_root [0; 1; 2] (chain_edges 2) (from_node v).
Proof.
  assert (H : NoDup (chain_edges 2)).
  { repeat constructor; simpl; intuition discriminate. }
  split; [exact H|]. split; [reflexivity|].
  exact (@accepted_edges_below_roots nat int_node unit [0; 1; 2] (chain_edges 2) H eq_refl).
Defined.

(** Witness for X6, on the table of [test_single_node]. *)
Lemma discovered_nodes_witness :
  exists ns vs,
    discovered 4 ["A"] (static_plugins single_node_deps) = Ok (ns, vs)
    /\ (forall s, In s ["A"] -> In s ns)
    /\ NoDup ns
    /\ forall n, In n ns ->
         In n ["A"] \/ exists v, In v vs /\ to_node v = n.
Proof.
  eexists. eexists. split; [vm_compute; reflexivity|].
  apply (@discovered_nodes string str_node unit (static_plugins single_node_deps) 4 ["A"]).
  apply discovered_discovers. vm_compute. reflexivity.
Defined.

(** Witness for X7, on the table of [test_single_node]. *)
Lemma discovered_edges_witness :
  exists ns vs,
    discovered 4 ["A"] (static_plugins single_node_deps) = Ok (ns, vs)
    /\ vset_distinct vs = true
    /\ forall v,
         vset_mem v vs = true
         <-> exists n w, In n ns
                         /\ yielded_by (static_plugins single_node_deps) n w
                         /\ Vertex_eq v w = true.
Proof.
  eexists. eexists. split; [vm_compute; reflexivity|].
  apply (@discovered_edges string str_node unit (static_plugins single_node_deps) 4 ["A"]).
  apply discovered_discovers. vm_compute. reflexivity.
Defined.

(** Witness for X8, on the table of [test_single_node]. *)
Lemma discovered_reachable_witness :
  exists ns vs,
    discovered 4 ["A"] (static_plugins single_node_deps) = Ok (ns, vs)
    /\ forall n, In n ns ->
         In n ["A"] \/ exists s, In s ["A"] /\ path vs s n.
Proof.
  eexists. eexists. split; [vm_compute; reflexivity|].
  apply (@discovered_reachable string str_node unit (static_plugins single_node_deps) 4 ["A"]).
  - apply static_starts_at_node.
  - apply discovered_discovers. vm_compute. reflexivity.
Defined.

(** ** Graphs in which no node has two incoming edges *)

Section ForestFacts.

Variable Node : Type.
Context {node_ops : PyNode Node}.
Variable Val : Type.

Lemma path_trans (vs : list (Vertex Node Val)) (a b c : Node) :
  path vs a b -> path vs b c -> path vs a c.
Proof.
  intros H1 H2. induction H1 as [v Hv|v m Hv Hp IH].
  - now apply path_step.
  - apply path_step; [exact Hv | now apply IH].
Qed.

Lemma path_last (vs : list (Vertex Node Val)) (a b : Node) :
  path vs a b ->
  exists w, In w vs /\ to_node w = b /\ (from_node w = a \/ path vs a (from_node w)).
Proof.
  intros H. induction H as [v Hv|v m Hv Hp (w & Hw & Ht & Hf)].
  - exists v. auto.
  - exists w. split; [exact Hw|]. split; [exact Ht|]. right.
    destruct Hf as [Hf|Hf].
    + rewrite Hf. now apply path_edge.
    + now apply path_step.
Qed.

Lemma is_acyclic_sets_run (ns : list Node) (vs : list (Vertex Node Val)) :
  (forall v, In v vs -> In (from_node v) ns /\ In (to_node v) ns) ->
  exists c f,
    (forall n, In n ns ->
       index_get n c = Ok (vset_of_list (filter (fun v => node_eqb (to_node v) n) vs))
       /\ index_get n f = Ok (vset_of_list (filter (fun v => node_eqb (from_node v) n) vs)))
    /\ is_acyclic_sets ns vs =
       (deleted <- eliminate (List.length ns + List.length vs) c f
                     (rev (filter
                             (fun n => List.length
                                         (vset_of_list
                                            (filter (fun v => node_eqb (to_node v) n) vs))
                                       =? 0) ns)) [] ;;
        Ok (List.length vs =? List.length deleted)).
Proof.
  intros Hends.
  destruct (@is_acyclic_indexes Node node_ops Val ns vs Hends) as (c & f & Hb & Hget).
  exists c, f. split; [exact Hget|]. unfold is_acyclic_sets. rewrite Hb. cbn [bind].
  rewrite (@ready_nodes_filter _ _ _ c
             (fun n => vset_of_list (filter (fun v => node_eqb (to_node v) n) vs)))
    by (intros n Hn; apply Hget, Hn).
  cbn [bind]. now rewrite app_nil_r.
Qed.

Lemma delete_connected_all (c : Index Node Val) (node : Node)
  (incoming : list (Vertex Node Val)) :
  index_get node c = Ok incoming ->
  forall connected stack deleted,
    (forall w, In w incoming -> vset_mem w deleted = true) ->
    delete_connected c node connected stack deleted
    = Ok (rev (map (@to_node _ _) connected) ++ stack,
          fold_left (fun s v => vset_add v s) connected deleted).
Proof.
  intros Hc. induction connected as [|e connected IH]; intros stack deleted Hdel;
    [reflexivity|].
  cbn [delete_connected]. rewrite Hc. cbn [bind].
  assert (Hdel' : forall w, In w incoming -> vset_mem w (vset_add e deleted) = true).
  { intros w Hw. rewrite (@vset_mem_add Node node_ops Val), (Hdel w Hw). reflexivity. }
  replace (vset_diff incoming (vset_add e deleted)) with (@nil (Vertex Node Val)).
  - rewrite IH by exact Hdel'. cbn [map rev fold_left]. now rewrite <- app_assoc.
  - symmetry. apply filter_none. intros w Hw. now rewrite (Hdel' w Hw).
Qed.

Lemma no_source_free_set (vs : list (Vertex Node Val)) (P : Vertex Node Val -> Prop) :
  acyclic vs ->
  (forall e, P e -> In e vs /\ exists e', P e' /\ to_node e' = from_node e) ->
  forall e, ~ P e.
Proof.
  intros Hac Hback.
  assert (Haux : forall k chain h,
             NoDup (h :: chain) -> incl (h :: chain) vs -> P h ->
             (forall e, In e chain ->
                to_node h = from_node e \/ path vs (to_node h) (from_node e)) ->
             List.length vs < k + List.length (h :: chain) -> False).
  { induction k as [|k IH]; intros chain h Hnd Hincl Hh Hq Hlen.
    - pose proof (NoDup_incl_length Hnd Hincl). simpl in *. lia.
    - destruct (Hback h Hh) as (Hhv & e' & He' & Ht).
      apply (IH (h :: chain) e').
      + constructor; [|exact Hnd]. intros [<-|Hin].
        * apply (Hac (from_node h)). rewrite <- Ht at 2. now apply path_edge.
        * apply (Hac (from_node h)). apply path_step; [exact Hhv|].
          rewrite <- Ht. destruct (Hq e' Hin) as [->|Hp].
          -- apply path_edge. apply Hincl. now right.
          -- apply (@path_snoc Node Val); [apply Hincl; now right | exact Hp].
      + intros x [<-|Hx]; [apply (Hback _ He') | now apply Hincl].
      + exact He'.
      + intros e [<-|He].
        * now left.
        * right. rewrite Ht. destruct (Hq e He) as [<-|Hp].
          -- now apply path_edge.
          -- now apply path_step.
      + simpl in *. lia. }
  intros e He. apply (Haux (S (List.length vs)) [] e).
  - repeat constructor. intros [].
  - intros x [<-|[]]. apply (Hback _ He).
  - exact He.
  - intros x [].
  - simpl. lia.
Qed.

Variable ns : list Node.
Variable vs : list (Vertex Node Val).
Hypothesis Hnd : NoDup vs.
Hypothesis Hends : forall v, In v vs -> In (from_node v) ns /\ In (to_node v) ns.
Hypothesis Hone : forall v w, In v vs -> In w vs -> to_node v = to_node w -> v = w.

Lemma forest_mem (e : Vertex Node Val) (s : list (Vertex Node Val)) :
  In e vs -> incl s vs -> (vset_mem e s = true <-> In e s).
Proof.
  intros He Hs. rewrite (@vset_mem_exists Node node_ops Val). split.
  - intros (w & Hw & Heq). apply (@Vertex_eq_ends Node node_ops Val) in Heq.
    now rewrite (Hone _ _ He (Hs w Hw) (proj2 Heq)).
  - intros Hin. exists e. split; [exact Hin | apply (@Vertex_eq_refl Node node_ops Val)].
Qed.

Lemma forest_vset_of_list (l : list (Vertex Node Val)) (e : Vertex Node Val) :
  incl l vs -> (In e (vset_of_list l) <-> In e l).
Proof.
  intros Hl. split; [apply (@vset_of_list_In Node node_ops Val)|].
  intros He. destruct (@vset_of_list_kept Node node_ops Val l e He) as (w & Hw & Heq).
  apply (@Vertex_eq_ends Node node_ops Val) in Heq.
  assert (Hwl : In w l) by now apply (@vset_of_list_In Node node_ops Val).
  now rewrite (Hone _ _ (Hl e He) (Hl w Hwl) (proj2 Heq)).
Qed.

Lemma forest_fold_add (connected deleted : list (Vertex Node Val)) (x : Vertex Node Val) :
  incl connected vs -> incl deleted vs ->
  (In x (fold_left (fun s v => vset_add v s) connected deleted)
   <-> In x deleted \/ In x connected)
  /\ incl (fold_left (fun s v => vset_add v s) connected deleted) vs.
Proof.
  revert deleted. induction connected as [|e connected IH]; intros deleted Hc Hd.
  - simpl. split; [intuition | exact Hd].
  - cbn [fold_left].
    assert (He : In e vs) by (apply Hc; now left).
    assert (Hadd : forall y, In y (vset_add e deleted) <-> In y deleted \/ y = e).
    { intros y. unfold vset_add. destruct (vset_mem e deleted) eqn:E.
      - apply (@forest_mem e deleted He Hd) in E. split; [auto|]. intros [H| ->]; auto.
      - rewrite in_app_iff. simpl. intuition. }
    assert (Hd' : incl (vset_add e deleted) vs).
    { intros y Hy. apply Hadd in Hy. destruct Hy as [Hy| ->]; auto. }
    destruct (IH (vset_add e deleted)) as [IH1 IH2];
      [intros y Hy; apply Hc; now right | exact Hd' |].
    split; [|exact IH2]. rewrite IH1, Hadd. simpl. intuition.
Qed.

(** What holds of the stack and of the deleted vertices all along the loop. *)
Let forest_inv (stack : list Node) (deleted : list (Vertex Node Val)) : Prop :=
  (forall n, In n stack -> In n ns /\ forall e, In e vs -> to_node e = n -> In e deleted)
  /\ (forall e, In e vs ->
        In e deleted \/ In (from_node e) stack
        \/ exists e', In e' vs /\ to_node e' = from_node e /\ ~ In e' deleted)
  /\ incl deleted vs
  /\ vset_distinct deleted = true.

Lemma forest_step (c f : Index Node Val) :
  (forall n, In n ns ->
     index_get n c = Ok (vset_of_list (filter (fun v => node_eqb (to_node v) n) vs))
     /\ index_get n f = Ok (vset_of_list (filter (fun v => node_eqb (from_node v) n) vs))) ->
  forall node stack deleted outgoing stack' deleted',
    forest_inv (node :: stack) deleted ->
    index_get node f = Ok outgoing ->
    delete_connected c node (vset_diff outgoing deleted) stack deleted
    = Ok (stack', deleted') ->
    forest_inv stack' deleted'.
Proof.
  intros Hget node stack deleted outgoing stack' deleted' (I1 & I2 & I3 & I4) Ho Hd.
  destruct (I1 node (or_introl eq_refl)) as [Hn Hinc].
  destruct (Hget node Hn) as [Hc Hf]. rewrite Hf in Ho. injection Ho as <-.
  set (connected := vset_diff _ deleted) in Hd.
  assert (Hout : forall e, In e connected
                           <-> In e vs /\ from_node e = node /\ ~ In e deleted).
  { intros e. unfold connected, vset_diff. rewrite filter_In, negb_true_iff.
    rewrite forest_vset_of_list by (intros y Hy; now apply filter_In in Hy).
    rewrite filter_In, node_eqb_spec. split.
    - intros [[He Hfe] Hm]. repeat split; auto. intros Hin.
      apply (@forest_mem e deleted He I3) in Hin. congruence.
    - intros (He & Hfe & Hm). repeat split; auto.
      destruct (vset_mem e deleted) eqn:E; [|reflexivity].
      apply (@forest_mem e deleted He I3) in E. contradiction. }
  assert (Hcv : incl connected vs) by (intros e He; now apply Hout in He).
  rewrite (@delete_connected_all c node _ Hc) in Hd.
  2:{ intros w Hw. apply (@vset_of_list_In Node node_ops Val), filter_In in Hw.
      destruct Hw as [Hw Ht]. apply node_eqb_spec in Ht.
      apply (@forest_mem w deleted Hw I3). now apply Hinc. }
  injection Hd as <- <-.
  assert (Hdel : forall x, In x (fold_left (fun s v => vset_add v s) connected deleted)
                           <-> In x deleted \/ In x connected)
    by (intros x; now apply (@forest_fold_add connected deleted x)).
  unfold forest_inv. repeat apply conj.
  - intros n Hin. apply in_app_iff in Hin. destruct Hin as [Hin|Hin].
    + apply in_rev, in_map_iff in Hin. destruct Hin as (e & <- & He).
      split; [apply Hends, Hcv, He|]. intros e2 He2 Ht. apply Hdel. right.
      now rewrite (Hone _ _ He2 (Hcv e He) Ht).
    + destruct (I1 n (or_intror Hin)) as [Hn' Hinc']. split; [exact Hn'|].
      intros e He Ht. apply Hdel. left. now apply Hinc'.
  - intros e He. destruct (I2 e He) as [H|[[H|H]|(e' & He' & Ht & H)]].
    + left. apply Hdel. now left.
    + left. apply Hdel.
      destruct (vset_mem e deleted) eqn:E.
      * left. now apply (@forest_mem e deleted He I3).
      * right. apply Hout. repeat split; auto. intros Hin.
        apply (@forest_mem e deleted He I3) in Hin. congruence.
    + right. left. apply in_app_iff. now right.
    + destruct (vset_mem e' (fold_left (fun s v => vset_add v s) connected deleted))
        eqn:E.
      * right. left. apply in_app_iff. left. apply -> in_rev.
        apply (@forest_mem e' _ He' (proj2 (@forest_fold_add connected deleted e' Hcv I3))) in E.
        apply Hdel in E. destruct E as [E|E]; [contradiction|].
        rewrite <- Ht. now apply in_map.
      * right. right. exists e'. split; [exact He'|]. split; [exact Ht|].
        intros Hin.
        apply (@forest_mem e' _ He' (proj2 (@forest_fold_add connected deleted e' Hcv I3))) in Hin.
        congruence.
  - intros y Hy. apply Hdel in Hy. destruct Hy; auto.
  - exact (proj1 (@vset_fold_add Node node_ops Val connected deleted I4)).
Qed.

Lemma forest_start :
  forest_inv
    (rev (filter (fun n => List.length
                             (vset_of_list (filter (fun v => node_eqb (to_node v) n) vs))
                           =? 0) ns)) [].
Proof.
  assert (Hroot : forall n e,
             List.length (vset_of_list (filter (fun v => node_eqb (to_node v) n) vs)) = 0 ->
             In e vs -> to_node e <> n).
  { intros n e Hz He Ht.
    apply (@vset_of_list_nonempty Node node_ops Val) in Hz; [exact Hz|]. intros E.
    assert (He' : In e (filter (fun v => node_eqb (to_node v) n) vs)).
    { apply filter_In. split; [exact He|]. now apply node_eqb_spec. }
    rewrite E in He'. exact He'. }
  unfold forest_inv. repeat apply conj.
  - intros n Hn. apply in_rev, filter_In in Hn. destruct Hn as [Hn Hz].
    apply Nat.eqb_eq in Hz. split; [exact Hn|].
    intros e He Ht. exfalso. exact (Hroot n e Hz He Ht).
  - intros e He. right.
    destruct (List.length
                (vset_of_list (filter (fun v => node_eqb (to_node v) (from_node e)) vs))
              =? 0) eqn:Ez.
    + left. apply -> in_rev. apply filter_In. split; [apply Hends, He | exact Ez].
    + right. apply Nat.eqb_neq in Ez.
      destruct (vset_of_list (filter (fun v => node_eqb (to_node v) (from_node e)) vs))
        as [|e' l] eqn:El; [now contradiction Ez|].
      assert (He' : In e' (vset_of_list
                             (filter (fun v => node_eqb (to_node v) (from_node e)) vs)))
        by (rewrite El; now left).
      apply (@vset_of_list_In Node node_ops Val), filter_In in He'.
      destruct He' as [He' Ht]. apply node_eqb_spec in Ht.
      exists e'. repeat split; auto.
  - intros x [].
  - reflexivity.
Qed.

Lemma forest_accepts : acyclic vs -> is_acyclic_sets ns vs = Ok true.
Proof.
  intros Hac.
  destruct (@is_acyclic_returns Node node_ops Val ns vs Hends) as [b Hb].
  destruct (@is_acyclic_sets_run ns vs Hends) as (c & f & Hget & Hrun).
  rewrite Hrun in *.
  destruct (eliminate _ c f _ []) as [final|e] eqn:He; [|discriminate].
  cbn [bind]. f_equal. apply Nat.eqb_eq.
  destruct (@eliminate_invariant Node node_ops Val forest_inv c f
              (@forest_step c f Hget) _ _ _ _ He forest_start) as (_ & F2 & F3 & F4).
  assert (Hall : incl vs final).
  { intros e He'.
    destruct (vset_mem e final) eqn:E; [now apply (@forest_mem e final He' F3)|].
    exfalso.
    apply (@no_source_free_set vs (fun e => In e vs /\ ~ In e final) Hac) with (e := e).
    - intros x [Hx Hnx]. split; [exact Hx|].
      destruct (F2 x Hx) as [H|[[]|(e' & He1 & Ht & Hn)]]; [contradiction|].
      exists e'. auto.
    - split; [exact He'|]. intros Hin. apply (@forest_mem e final He' F3) in Hin.
      congruence. }
  apply Nat.le_antisymm.
  - now apply NoDup_incl_length.
  - apply NoDup_incl_length; [|exact F3].
    now apply (@vset_distinct_NoDup Node node_ops Val).
Qed.

Lemma upstream_on_cycle (a x : Node) :
  path vs a x -> path vs x x -> a = x \/ path vs x a.
Proof.
  assert (Hedge : forall v, In v vs -> path vs (to_node v) (to_node v) ->
                            from_node v = to_node v \/ path vs (to_node v) (from_node v)).
  { intros v Hv Hc. apply path_last in Hc. destruct Hc as (w & Hw & Ht & Hf).
    rewrite (Hone _ _ Hv Hw (eq_sym Ht)). rewrite Ht. exact Hf. }
  intros H. induction H as [v Hv|v m Hv Hp IH]; intros Hc.
  - now apply Hedge.
  - destruct (IH Hc) as [Hm|Hm].
    + rewrite <- Hm in *. now apply Hedge.
    + right. destruct (Hedge v Hv (path_trans Hp Hm)) as [->|Hf]; [exact Hm|].
      exact (path_trans Hm Hf).
Qed.

Lemma forest_rejects : is_acyclic_sets ns vs = Ok true -> acyclic vs.
Proof.
  intros Hok x Hc.
  destruct (proj1 (@path_inv Node Val vs x x) Hc) as (v & Hv & Hf & _).
  destruct (@accepted_below_roots Node node_ops Val ns vs Hnd Hok v Hv)
    as (r & Hr & Hroot & Hp).
  rewrite Hf in Hp.
  assert (Hon : r = x \/ path vs x r).
  { destruct Hp as [->|Hp]; [now left | now apply upstream_on_cycle]. }
  assert (Hin : path vs x r) by (destruct Hon as [->|H]; assumption).
  apply path_last in Hin. destruct Hin as (w & Hw & Ht & _).
  exact (Hroot w Hw Ht).
Qed.

End ForestFacts.

(** X21: on a graph in which no node has two incoming edges (a forest of
    trees, possibly with cycles apart), [is_acyclic] is right: it returns,
    and it returns [True] exactly when the graph has no cycle. *)
Theorem is_acyclic_correct_on_forests {Node : Type} {node_ops : PyNode Node} (Val : Type)
  (ns : list Node) (vs : list (Vertex Node Val)) :
  NoDup vs ->
  (forall v, In v vs -> In (from_node v) ns /\ In (to_node v) ns) ->
  (forall v w, In v vs -> In w vs -> to_node v = to_node w -> v = w) ->
  exists b, is_acyclic_sets ns vs = Ok b /\ (b = true <-> acyclic vs).
Proof.
  intros Hnd Hends Hone.
  destruct (@is_acyclic_returns Node node_ops Val ns vs Hends) as [b Hb].
  exists b. split; [exact Hb|]. split.
  - intros ->. exact (@forest_rejects Node node_ops Val ns vs Hnd Hone Hb).
  - intros Hac. rewrite (@forest_accepts Node node_ops Val ns vs Hnd Hends Hone Hac) in Hb.
    now injection Hb.
Qed.

(** Witness for X21: the tree [0 -> 1], [0 -> 2] beside the cycle
    [3 -> 4 -> 3]. *)
Lemma is_acyclic_correct_on_forests_witness :
  let vs := [static_edge 0 1; static_edge 0 2; static_edge 3 4; static_edge 4 3] in
  exists b,
    is_acyclic_sets [0; 1; 2; 3; 4] vs = Ok b /\ (b = true <-> acyclic vs).
Proof.
  apply (@is_acyclic_correct_on_forests nat int_node unit).
  - repeat constructor; simpl; intuition discriminate.
  - intros v Hv. simpl in Hv. intuition (subst; simpl; auto 10).
  - intros v w Hv Hw Ht. simpl in Hv, Hw.
    intuition (subst; try reflexivity; discriminate Ht).
Defined.

(** ** Discovery terminates *)

Section DiscoveryTerminates.

Variable Node : Type.
Context {node_ops : PyNode Node}.
Variable Val : Type.
Variable ps : list (Plugin Node Val).
Variable universe : list Node.
Hypothesis Htotal : total_plugins ps.
Hypothesis Htargets : targets_in ps universe.

Lemma filter_length_mono {A : Type} (f g : A -> bool) (l : list A) :
  (forall x, g x = true -> f x = true) ->
  List.length (filter g l) <= List.length (filter f l).
Proof.
  intros H. induction l as [|a l IH]; simpl; [lia|].
  destruct (g a) eqn:Eg.
  - rewrite (H a Eg). simpl. lia.
  - destruct (f a); simpl; lia.
Qed.

Lemma unseen_mono (nodes nodes' : list Node) :
  incl nodes nodes' -> unseen universe nodes' <= unseen universe nodes.
Proof.
  intros Hi. apply filter_length_mono. intros u Hu.
  apply negb_true_iff in Hu. apply negb_true_iff.
  destruct (nset_mem u nodes) eqn:E; [|reflexivity].
  apply (@nset_mem_In Node node_ops) in E. apply Hi in E.
  apply (@nset_mem_In Node node_ops) in E. congruence.
Qed.

Lemma unseen_add (t : Node) (nodes : list Node) :
  In t universe -> nset_mem t nodes = false ->
  unseen universe (nset_add t nodes) < unseen universe nodes.
Proof.
  intros Ht Hm. apply filter_length_lt with (w := t).
  - intros u Hu. apply negb_true_iff in Hu. apply negb_true_iff.
    destruct (nset_mem u nodes) eqn:E; [|reflexivity].
    apply (@nset_mem_In Node node_ops) in E.
    assert (H : nset_mem u (nset_add t nodes) = true); [|congruence].
    apply (@nset_mem_In Node node_ops), (@nset_add_In Node node_ops). now left.
  - exact Ht.
  - now rewrite Hm.
  - apply negb_false_iff. apply (@nset_mem_In Node node_ops), (@nset_add_In Node node_ops).
    now right.
Qed.

Lemma expand_vertices_returns (depth : nat) :
  (forall node nodes,
      unseen universe nodes < depth -> exists r, build_vertices ps depth node nodes = Ok r) ->
  forall vs nodes,
    (forall v, In v vs -> In (to_node v) universe) ->
    unseen universe nodes <= depth ->
    exists r, expand_vertices (build_vertices ps depth) vs nodes = Ok r.
Proof.
  intros Hrec. induction vs as [|vertex vs IH]; intros nodes Hin Hm; [now eexists|].
  cbn [expand_vertices].
  assert (Hin' : forall v, In v vs -> In (to_node v) universe)
    by (intros v Hv; apply Hin; now right).
  destruct (nset_mem (to_node vertex) nodes) eqn:Em.
  - cbn [bind]. destruct (IH nodes Hin' Hm) as [[nodes2 out2] ->]. cbn [bind]. now eexists.
  - pose proof (@unseen_add (to_node vertex) nodes (Hin _ (or_introl eq_refl)) Em) as Hlt.
    destruct (Hrec (to_node vertex) (nset_add (to_node vertex) nodes)) as [[nodes1 out1] E1];
      [lia|].
    rewrite E1. cbn [bind].
    pose proof (@build_vertices_expands Node node_ops Val ps depth _ _ _ _ E1) as (Hi & _).
    destruct (IH nodes1 Hin') as [[nodes2 out2] ->].
    + pose proof (@unseen_mono (nset_add (to_node vertex) nodes) nodes1 Hi). lia.
    + cbn [bind]. now eexists.
Qed.

Lemma expand_plugins_returns (depth : nat) (node : Node) :
  (forall node nodes,
      unseen universe nodes < depth -> exists r, build_vertices ps depth node nodes = Ok r) ->
  forall ps' nodes,
    incl ps' ps ->
    unseen universe nodes <= depth ->
    exists r, expand_plugins (build_vertices ps depth) node ps' nodes = Ok r.
Proof.
  intros Hrec. induction ps' as [|plugin ps' IH]; intros nodes Hps Hm; [now eexists|].
  cbn [expand_plugins].
  assert (Hp : In plugin ps) by (apply Hps; now left).
  assert (Hps' : incl ps' ps) by (intros p Hp'; apply Hps; now right).
  destruct (Htotal plugin node Hp) as [[applies Ea] [vs Ev]].
  rewrite Ea. cbn [bind]. destruct applies.
  - rewrite Ev. cbn [bind].
    destruct (@expand_vertices_returns depth Hrec vs nodes) as [[nodes1 out1] E1];
      [intros v Hv; exact (Htargets _ _ _ Hp Ev Hv) | exact Hm |].
    rewrite E1. cbn [bind].
    pose proof (@expand_vertices_expands Node node_ops Val ps (build_vertices ps depth)
                  (@build_vertices_expands Node node_ops Val ps depth) _ _ _ _ E1)
      as (Hi & _).
    destruct (IH nodes1 Hps') as [[nodes2 out2] ->].
    + pose proof (@unseen_mono nodes nodes1 Hi). lia.
    + cbn [bind]. now eexists.
  - cbn [bind]. destruct (IH nodes Hps' Hm) as [[nodes2 out2] ->]. cbn [bind]. now eexists.
Qed.

Lemma build_vertices_returns (depth : nat) :
  forall node nodes,
    unseen universe nodes < depth -> exists r, build_vertices ps depth node nodes = Ok r.
Proof.
  induction depth as [|d IH]; intros node nodes Hm; [lia|].
  cbn [build_vertices]. apply expand_plugins_returns; [exact IH | apply incl_refl | lia].
Qed.

Lemma generate_loop_returns (depth : nat) :
  forall pending nodes,
    unseen universe nodes < depth -> exists r, generate_loop ps depth pending nodes = Ok r.
Proof.
  induction pending as [|node pending IH]; intros nodes Hm; [now eexists|].
  cbn [generate_loop].
  destruct (@build_vertices_returns depth node nodes Hm) as [[nodes1 out1] E1]. rewrite E1. cbn [bind].
  pose proof (@build_vertices_expands Node node_ops Val ps depth _ _ _ _ E1) as (Hi & _).
  destruct (IH nodes1) as [[nodes2 out2] ->].
  - pose proof (@unseen_mono nodes nodes1 Hi). lia.
  - cbn [bind]. now eexists.
Qed.

Lemma unseen_le (nodes : list Node) : unseen universe nodes <= List.length universe.
Proof. apply filter_length_le. Qed.

Lemma discovery_returns (depth : nat) (seeds : list Node) :
  List.length universe < depth ->
  exists ns vs, discovered depth seeds ps = Ok (ns, vs).
Proof.
  intros Hd. unfold discovered, generate_vertices.
  destruct (@generate_loop_returns depth (rev (nset_of_list seeds)) (nset_of_list seeds))
    as [[ns generated] ->].
  - pose proof (unseen_le (nset_of_list seeds)). lia.
  - cbn [bind]. eauto.
Qed.

Lemma discovered_ends (depth : nat) (seeds ns : list Node) (vs : list (Vertex Node Val)) :
  starts_at_node ps ->
  discovered depth seeds ps = Ok (ns, vs) ->
  forall v, In v vs -> In (from_node v) ns /\ In (to_node v) ns.
Proof.
  intros Hc H. unfold discovered, generate_vertices in H.
  destruct (generate_loop ps depth (rev (nset_of_list seeds)) (nset_of_list seeds))
    as [[ns' generated]|e] eqn:Hg; [|discriminate].
  cbn [bind] in H. injection H as <- <-.
  apply (@generate_loop_expands Node node_ops Val ps) in Hg.
  destruct Hg as (E1 & _ & E3 & _ & E5 & _).
  intros v Hv. apply (@vset_of_list_In Node node_ops Val) in Hv. split; [|now apply E3].
  destruct (E5 v Hv) as [(s & Hs & Hy)|(m & [Hm _] & Hy)].
  - destruct Hy as (plugin & l & Hp & _ & Hl & Hin). rewrite (Hc _ _ _ _ Hp Hl Hin).
    apply E1. now apply in_rev.
  - destruct Hy as (plugin & l & Hp & _ & Hl & Hin). now rewrite (Hc _ _ _ _ Hp Hl Hin).
Qed.

End DiscoveryTerminates.

Lemma DependencyGraph_init_discovered_verdict {Node : Type} {node_ops : PyNode Node}
  (Val : Type) (ps : list (Plugin Node Val)) (depth : nat) (seeds ns : list Node)
  (vs : list (Vertex Node Val)) (b : bool) :
  discovered depth seeds ps = Ok (ns, vs) ->
  is_acyclic_sets ns vs = Ok b ->
  DependencyGraph_init depth seeds ps =
  if b then Ok (mkGraph ns ps vs) else Raise CircularDependencyError.
Proof.
  unfold discovered, DependencyGraph_init. intros H Hb.
  destruct (generate_vertices ps depth (nset_of_list seeds)) as [[ns' generated]|e];
    [|discriminate].
  cbn [bind] in *. injection H as -> ->.
  unfold is_acyclic. cbn [nodes vertices]. rewrite Hb. reflexivity.
Qed.

(** X22: discovery terminates, on cyclic dependencies too, because a node is
    expanded only when it enters [self.nodes]: when the plugins do not
    raise, yield vertices that start at the node they are asked about and
    lead into a finite set of nodes, and more nested calls are available
    than that set has nodes, construction ends with a graph or with
    [CircularDependencyError]. *)
Theorem construction_ends {Node : Type} {node_ops : PyNode Node} (Val : Type)
  (ps : list (Plugin Node Val)) (universe seeds : list Node) (depth : nat) :
  total_plugins ps -> starts_at_node ps -> targets_in ps universe ->
  List.length universe < depth ->
  (exists g, DependencyGraph_init depth seeds ps = Ok g)
  \/ DependencyGraph_init depth seeds ps = Raise CircularDependencyError.
Proof.
  intros Htotal Hc Htargets Hd.
  destruct (@discovery_returns Node node_ops Val ps universe Htotal Htargets depth seeds Hd)
    as (ns & vs & Hdisc).
  destruct (@is_acyclic_returns Node node_ops Val ns vs) as [b Hb].
  { exact (@discovered_ends Node node_ops Val ps depth seeds ns vs Hc Hdisc). }
  rewrite (@DependencyGraph_init_discovered_verdict _ _ _ _ _ _ _ _ _ Hdisc Hb).
  destruct b; [left; eauto | now right].
Qed.

Lemma static_total {Node : Type} {node_ops : PyNode Node} (deps : list (Node * list Node)) :
  total_plugins (static_plugins deps).
Proof.
  intros plugin node [<-|[]]. split.
  - now exists true.
  - cbn [StaticDependencies Plugin_vertices].
    rewrite (@StaticDependencies_vertices_map Node node_ops unit). now eexists.
Qed.

Lemma static_targets {Node : Type} {node_ops : PyNode Node} (deps : list (Node * list Node)) :
  targets_in (static_plugins deps) (flat_map snd deps).
Proof.
  intros plugin node vs v [<-|[]] Hvs Hv. cbn [StaticDependencies Plugin_vertices] in Hvs.
  rewrite (@StaticDependencies_vertices_map Node node_ops unit) in Hvs. injection Hvs as <-.
  apply in_map_iff in Hv. destruct Hv as (sub & <- & Hsub). cbn [to_node].
  apply in_flat_map in Hsub. destruct Hsub as (row & Hrow & Hsub).
  apply filter_In in Hrow. apply in_flat_map. exists row. tauto.
Qed.

(** X23: with [StaticDependencies] as only plugin, constructing a graph
    from any table and any seeds ends with a graph or with
    [CircularDependencyError] as soon as more nested calls are available than
    the table lists dependencies; no other exception is possible. *)
Theorem static_construction_ends {Node : Type} {node_ops : PyNode Node}
  (deps : list (Node * list Node)) (seeds : list Node) (depth : nat) :
  List.length (flat_map snd deps) < depth ->
  (exists g, DependencyGraph_init depth seeds (static_plugins deps) = Ok g)
  \/ DependencyGraph_init depth seeds (static_plugins deps) = Raise CircularDependencyError.
Proof.
  intros Hd.
  destruct (@discovery_returns Node node_ops unit (static_plugins deps) (flat_map snd deps)
              (@static_total Node node_ops deps) (@static_targets Node node_ops deps)
              depth seeds Hd)
    as (ns & vs & Hdisc).
  destruct (@is_acyclic_returns Node node_ops unit ns vs) as [b Hb].
  { exact (@discovered_ends Node node_ops unit (static_plugins deps) depth seeds ns vs
             (@static_starts_at_node Node node_ops deps) Hdisc). }
  rewrite (@DependencyGraph_init_discovered_verdict _ _ _ _ _ _ _ _ _ Hdisc Hb).
  destruct b; [left; eauto | now right].
Qed.

(** Witness for X22, on the table of [test_circular_dependency]. *)
Lemma construction_ends_witness :
  let deps := [("A", ["C"; "D"]); ("D", ["A"])] in
  (exists g, DependencyGraph_init 4 ["A"] (static_plugins deps) = Ok g)
  \/ DependencyGraph_init 4 ["A"] (static_plugins deps) = Raise CircularDependencyError.
Proof.
  apply (@construction_ends string str_node unit _ ["C"; "D"; "A"]).
  - apply static_total.
  - apply static_starts_at_node.
  - exact (@static_targets string str_node [("A", ["C"; "D"]); ("D", ["A"])]).
  - simpl. lia.
Defined.

(** Witness for X23, on the table of [test_single_node]. *)
Lemma static_construction_ends_witness :
  (exists g, DependencyGraph_init 7 ["A"] (static_plugins single_node_deps) = Ok g)
  \/ DependencyGraph_init 7 ["A"] (static_plugins single_node_deps)
     = Raise CircularDependencyError.
Proof.
  apply (@static_construction_ends string str_node). simpl. lia.
Defined.

(** ** Constructed graphs *)

Section ConstructedGraphs.

Variable Node : Type.
Context {node_ops : PyNode Node}.
Variable Val : Type.

Lemma Vertex_str_ok (self : Vertex Node Val) :
  Vertex_str self =
  Ok ("(" ++ node_str (from_node self) ++ ") --> (" ++ node_str (to_node self) ++ ")")%string.
Proof.
  unfold Vertex_str. cbn. reflexivity.
Qed.

(** X24: [DependencyGraph.__str__] never raises: it is the renderings
    [(from) --> (to)] of the edges, in the iteration order of
    [self.vertices], joined by newlines (the empty string for a graph
    without edges, no newline at the end). *)
Theorem DependencyGraph_str_lines (self : DependencyGraph Node Val) :
  DependencyGraph_str self =
  Ok (String.concat (String (ascii_of_nat 10) EmptyString)
        (map (fun v => "(" ++ node_str (from_node v) ++ ") --> ("
                           ++ node_str (to_node v) ++ ")")%string
             (vertices self))).
Proof.
  unfold DependencyGraph_str.
  assert (H : forall l : list (Vertex Node Val),
             map_result (@Vertex_str Node node_ops Val) l =
             Ok (map (fun v => "(" ++ node_str (from_node v) ++ ") --> ("
                                ++ node_str (to_node v) ++ ")")%string l)).
  { induction l as [|v l IH]; [reflexivity|].
    cbn [map_result map]. rewrite Vertex_str_ok, IH. reflexivity. }
  rewrite H. reflexivity.
Qed.

(** X25: a constructed graph in which no node has two incoming edges has no
    cycle, and every transitive query on it returns, with exactly the nodes
    reachable from the queried node, as soon as more nested calls are
    available than the graph has edges. *)
Theorem tree_graph_queries_return (depth : nat) (seeds : list Node)
  (ps : list (Plugin Node Val)) (g : DependencyGraph Node Val) :
  DependencyGraph_init depth seeds ps = Ok g ->
  (forall v w, In v (vertices g) -> In w (vertices g) -> to_node v = to_node w -> v = w) ->
  acyclic (vertices g)
  /\ forall node d,
       List.length (vertices g) < d ->
       exists out,
         dependencies g d node true = Ok out
         /\ forall x, In x out <-> path (vertices g) node x.
Proof.
  intros Hg Hone.
  assert (Hnd : NoDup (vertices g)).
  { destruct (@DependencyGraph_init_discovered Node node_ops Val ps depth seeds g Hg)
      as (generated & _ & ->).
    apply (@vset_distinct_NoDup Node node_ops Val).
    exact (proj1 (@vset_fold_add Node node_ops Val generated [] eq_refl)). }
  assert (Hac : acyclic (vertices g)).
  { apply (@forest_rejects Node node_ops Val (nodes g) (vertices g) Hnd Hone).
    exact (@DependencyGraph_init_acyclic Node node_ops Val depth seeds ps g Hg). }
  split; [exact Hac|]. intros node d Hd. unfold dependencies.
  apply (@dependencies_in_safe Node node_ops Val); [|exact Hd].
  intros x _. apply Hac.
Qed.

End ConstructedGraphs.

(** Witness for X25, on the tree [A -> (B, C)], [B -> D]. *)
Lemma tree_graph_queries_return_witness :
  let deps := [("A", ["B"; "C"]); ("B", ["D"])] in
  exists g,
    DependencyGraph_init 4 ["A"] (static_plugins deps) = Ok g
    /\ acyclic (vertices g)
    /\ forall node d,
         List.length (vertices g) < d ->
         exists out,
           dependencies g d node true = Ok out
           /\ forall x, In x out <-> path (vertices g) node x.
Proof.
  eexists. split; [vm_compute; reflexivity|].
  apply (@tree_graph_queries_return string str_node unit 4 ["A"]
           (static_plugins [("A", ["B"; "C"]); ("B", ["D"])])).
  - vm_compute. reflexivity.
  - intros v w Hv Hw Ht. cbn [vertices] in Hv, Hw. simpl in Hv, Hw.
    intuition (subst; try reflexivity; discriminate Ht).
Defined.
